(** * Camino platform chain: layered state diff and transaction builder

    A shallow embedding of

    - [state.diff] (camino diff): the per-block modification set, its
      getters and setters, [LockedUTXOs], the next-to-unlock queries and
      [ApplyCaminoState];
    - [builder.caminoBuilder]: [NewClaimTx], [NewRewardsImportTx],
      [NewRegisterNodeTx], [getDepositRewardsOwner] and [getSigners];
    - [CaminoService.GetAllDepositOffers], [CaminoService.GetBalance] and
      [CaminoService.GetDeposits];
    - [genesis.SampleBeacons].

    Go values are modelled as follows.  [uint64]/[uint32] are [Z];
    identifiers ([ids.ID], [ids.ShortID], [ids.NodeID]) are [N], ordered as
    their byte strings are; a Go map is a [gmap]; a [set.Set] is the [gset]
    of its contents, and an [option] of it where the set may be nil and a
    function adds to it; a pointer that the source tests against [nil] is
    an [option]; a [(value, error)] pair is a
    [result], except where the source goes on using the value next to a
    non-nil error; [time.Time] is the number of seconds since the Unix
    epoch. *)

From Stdlib Require Import ZArith Lia.
From Stdlib.Strings Require Import Byte.
From stdpp Require Import gmap list sorting strings.

Local Open Scope Z_scope.

(** ** Identifiers, errors and results *)

Abbreviation ID := N.
Abbreviation ShortID := N.
Abbreviation NodeID := N.
Abbreviation Time := Z.

(** [time.Time{}], the zero time (January 1, year 1), in Unix seconds. *)
Definition zeroTime : Time := -62135596800.

Inductive error : Type :=
  | ErrMissingParentState (parentID : ID)
  | ErrNotFound
  | errKeyMissing
  | errWrongNodeKeyType
  | errTxIsNotCommitted
  | errNotSECPOwner
  | errWrongTxType
  | errWrongLockMode
  | errNoUTXOsForImport
  | ErrExternal (code : N)
  | ErrWrap (context : string) (cause : error).

Inductive result (A : Type) : Type :=
  | Ok (a : A)
  | Err (e : error).
Arguments Ok {A} a.
Arguments Err {A} e.

(** ** Data model *)

Record OutputOwners := {
  Locktime : Z;
  Threshold : Z;
  Addrs : list ShortID
}.

Record Offer := {
  Offer_ID : ID;
  Flags : Z;
  MinDuration : Z;
  MaxDuration : Z
}.

Record Deposit := {
  DepositOfferID : ID;
  UnlockedAmount : Z;
  ClaimedRewardAmount : Z;
  Start : Z;
  Duration : Z;
  Amount : Z
}.

(** Modelled from the spec: [Deposit.EndTime] belongs to the deposit package,
    whose source is not covered here; the spec gives
    [end_time = start + duration]. *)
Definition EndTime (d : Deposit) : Time := Start d + Duration d.

Record Alias := {
  Alias_ID : ShortID;
  Memo : list Z;
  Owners : OutputOwners
}.

Record Claimable := {
  Owner : OutputOwners;
  ValidatorReward : Z;
  DepositReward : Z
}.

Inductive ShortLinkKey : Type :=
  | ShortLinkKeyRegisterNode
  | ShortLinkKeyOther (k : N).

Global Instance ShortLinkKey_eq_dec : EqDecision ShortLinkKey.
Proof. solve_decision. Defined.

Global Instance ShortLinkKey_countable : Countable ShortLinkKey.
Proof.
  refine (inj_countable'
    (fun k => match k with
              | ShortLinkKeyRegisterNode => None
              | ShortLinkKeyOther n => Some n
              end)
    (fun o => match o with
              | None => ShortLinkKeyRegisterNode
              | Some n => ShortLinkKeyOther n
              end) _).
  by intros [].
Defined.

(** Modelled from the spec: [toShortLinkKey] is declared in a source file
    that is not covered here; the spec keys [modified_short_links] by the
    pair [(id, key)]. *)
Definition toShortLinkKey (id : ShortID) (key : ShortLinkKey) : ShortID * ShortLinkKey :=
  (id, key).

(** Modelled from the spec: [fromShortLinkKey], declared next to
    [toShortLinkKey], gives back the pair that made the key. *)
Definition fromShortLinkKey (fullKey : ShortID * ShortLinkKey) : ShortID * ShortLinkKey :=
  fullKey.

Inductive LockState : Type :=
  | StateUnlocked
  | StateDeposited
  | StateBonded
  | StateDepositedBonded.

Record LockIDs := {
  DepositTxID : ID;
  BondTxID : ID
}.

(** [avax.UTXO.Out]: a [*locked.Out] or any other output. *)
Inductive Output : Type :=
  | LockedOut (ids : LockIDs) (amount : Z) (owners : OutputOwners)
  | TransferOut (amount : Z) (owners : OutputOwners).

(** [UTXO_UTXOID] is the pair [(TxID, OutputIndex)]; [InputID] stands for
    the value of [utxo.InputID()]. *)
Record UTXO := {
  UTXO_UTXOID : ID * N;
  InputID : ID;
  UTXO_Asset : ID;
  UTXO_Out : Output
}.

Record Staker := {
  Staker_TxID : ID;
  Staker_SubnetID : ID;
  Staker_NodeID : NodeID;
  Staker_Weight : Z
}.

(** ** The parent state

    [state.Chain] as the diff uses it: one field per method the diff
    forwards to.  The two next-to-unlock methods receive a [set.Set], which
    is a Go map and is handed over by value.  An allocated map is shared
    by the caller and the method, so for the contents of such a map the
    methods also return the contents that the map has when they return.  A
    nil map is not shared: what a method adds goes to a map of the method's
    own, and the two fields that end in [_nil] are what the methods return
    when they are called with nil. *)

Record Chain := {
  Chain_LockedUTXOs : gset ID -> gset ShortID -> LockState -> result (list UTXO);
  Chain_GetAddressStates : ShortID -> result Z;
  Chain_GetDepositOffer : ID -> result (option Offer);
  Chain_GetAllDepositOffers : result (list Offer);
  Chain_GetDeposit : ID -> result Deposit;
  Chain_GetNextToUnlockDepositTime : gset ID -> (Time * option error) * gset ID;
  Chain_GetNextToUnlockDepositIDsAndTime :
    gset ID -> (list ID * Time * option error) * gset ID;
  Chain_GetNextToUnlockDepositTime_nil : Time * option error;
  Chain_GetNextToUnlockDepositIDsAndTime_nil : list ID * Time * option error;
  Chain_GetMultisigAlias : ShortID -> result Alias;
  Chain_GetShortIDLink : ShortID -> ShortLinkKey -> result ShortID;
  Chain_GetClaimable : ID -> result Claimable;
  Chain_GetNotDistributedValidatorReward : result Z
}.

(** ** The diff *)

Record depositDiff := {
  dd_Deposit : Deposit;
  added : bool;
  removed : bool
}.

Record utxoModification := {
  utxoID : ID;
  utxo : option UTXO
}.

Record diffValidator := {
  validatorModified : bool;
  validatorDeleted : bool;
  validator : Staker
}.

Record caminoDiff := {
  modifiedAddressStates : gmap ShortID Z;
  modifiedDepositOffers : gmap ID (option Offer);
  modifiedDeposits : gmap ID depositDiff;
  modifiedMultisigOwners : gmap ShortID (option Alias);
  modifiedShortLinks : gmap (ShortID * ShortLinkKey) (option ShortID);
  modifiedClaimables : gmap ID (option Claimable);
  modifiedNotDistributedValidatorReward : option Z;
  validatorDiffs : gmap ID (gmap NodeID diffValidator)
}.

Definition newCaminoDiff : caminoDiff :=
  {| modifiedAddressStates := ∅;
     modifiedDepositOffers := ∅;
     modifiedDeposits := ∅;
     modifiedMultisigOwners := ∅;
     modifiedShortLinks := ∅;
     modifiedClaimables := ∅;
     modifiedNotDistributedValidatorReward := None;
     validatorDiffs := ∅ |}.

(** [stateVersions] is [Versions.GetState]. *)
Record diff := {
  parentID : ID;
  stateVersions : ID -> option Chain;
  modifiedUTXOs : gmap ID utxoModification;
  caminoDiff_ : caminoDiff
}.

Definition with_camino (d : diff) (c : caminoDiff) : diff :=
  {| parentID := parentID d;
     stateVersions := stateVersions d;
     modifiedUTXOs := modifiedUTXOs d;
     caminoDiff_ := c |}.

(** ** Reads that may consult the parent

    A method of the diff either answers from its own modification set
    ([Done]) or resolves [parentID] through [stateVersions] and continues
    with what it finds ([AskParent]). *)

Inductive Query (A : Type) : Type :=
  | Done (a : A)
  | AskParent (parent : ID) (k : option Chain -> A).
Arguments Done {A} a.
Arguments AskParent {A} parent k.

Definition consultsParent {A} (q : Query A) : bool :=
  match q with Done _ => false | AskParent _ _ => true end.

Definition answer {A} (d : diff) (q : Query A) : A :=
  match q with
  | Done a => a
  | AskParent p k => k (stateVersions d p)
  end.

(** [parentState, ok := d.stateVersions.GetState(d.parentID)] followed by
    the [ErrMissingParentState] return. *)
Definition fromParent {A} (d : diff) (k : Chain -> result A) : Query (result A) :=
  AskParent (parentID d) (fun st =>
    match st with
    | None => Err (ErrMissingParentState (parentID d))
    | Some parentState => k parentState
    end).

(** ** Setters *)

Definition SetAddressStates (address : ShortID) (states : Z) (d : diff) : diff :=
  let c := caminoDiff_ d in
  with_camino d
    {| modifiedAddressStates := <[address := states]> (modifiedAddressStates c);
       modifiedDepositOffers := modifiedDepositOffers c;
       modifiedDeposits := modifiedDeposits c;
       modifiedMultisigOwners := modifiedMultisigOwners c;
       modifiedShortLinks := modifiedShortLinks c;
       modifiedClaimables := modifiedClaimables c;
       modifiedNotDistributedValidatorReward := modifiedNotDistributedValidatorReward c;
       validatorDiffs := validatorDiffs c |}.

Definition SetDepositOffer (offer : Offer) (d : diff) : diff :=
  let c := caminoDiff_ d in
  with_camino d
    {| modifiedAddressStates := modifiedAddressStates c;
       modifiedDepositOffers := <[Offer_ID offer := Some offer]> (modifiedDepositOffers c);
       modifiedDeposits := modifiedDeposits c;
       modifiedMultisigOwners := modifiedMultisigOwners c;
       modifiedShortLinks := modifiedShortLinks c;
       modifiedClaimables := modifiedClaimables c;
       modifiedNotDistributedValidatorReward := modifiedNotDistributedValidatorReward c;
       validatorDiffs := validatorDiffs c |}.

Definition setDeposit (depositTxID : ID) (dd : depositDiff) (d : diff) : diff :=
  let c := caminoDiff_ d in
  with_camino d
    {| modifiedAddressStates := modifiedAddressStates c;
       modifiedDepositOffers := modifiedDepositOffers c;
       modifiedDeposits := <[depositTxID := dd]> (modifiedDeposits c);
       modifiedMultisigOwners := modifiedMultisigOwners c;
       modifiedShortLinks := modifiedShortLinks c;
       modifiedClaimables := modifiedClaimables c;
       modifiedNotDistributedValidatorReward := modifiedNotDistributedValidatorReward c;
       validatorDiffs := validatorDiffs c |}.

Definition AddDeposit (depositTxID : ID) (deposit : Deposit) (d : diff) : diff :=
  setDeposit depositTxID {| dd_Deposit := deposit; added := true; removed := false |} d.

Definition ModifyDeposit (depositTxID : ID) (deposit : Deposit) (d : diff) : diff :=
  setDeposit depositTxID {| dd_Deposit := deposit; added := false; removed := false |} d.

Definition RemoveDeposit (depositTxID : ID) (deposit : Deposit) (d : diff) : diff :=
  setDeposit depositTxID {| dd_Deposit := deposit; added := false; removed := true |} d.

Definition SetMultisigAlias (owner : Alias) (d : diff) : diff :=
  let c := caminoDiff_ d in
  with_camino d
    {| modifiedAddressStates := modifiedAddressStates c;
       modifiedDepositOffers := modifiedDepositOffers c;
       modifiedDeposits := modifiedDeposits c;
       modifiedMultisigOwners := <[Alias_ID owner := Some owner]> (modifiedMultisigOwners c);
       modifiedShortLinks := modifiedShortLinks c;
       modifiedClaimables := modifiedClaimables c;
       modifiedNotDistributedValidatorReward := modifiedNotDistributedValidatorReward c;
       validatorDiffs := validatorDiffs c |}.

Definition SetShortIDLink (id : ShortID) (key : ShortLinkKey) (link : option ShortID)
    (d : diff) : diff :=
  let c := caminoDiff_ d in
  with_camino d
    {| modifiedAddressStates := modifiedAddressStates c;
       modifiedDepositOffers := modifiedDepositOffers c;
       modifiedDeposits := modifiedDeposits c;
       modifiedMultisigOwners := modifiedMultisigOwners c;
       modifiedShortLinks := <[toShortLinkKey id key := link]> (modifiedShortLinks c);
       modifiedClaimables := modifiedClaimables c;
       modifiedNotDistributedValidatorReward := modifiedNotDistributedValidatorReward c;
       validatorDiffs := validatorDiffs c |}.

Definition SetClaimable (ownerID : ID) (claimable : option Claimable) (d : diff) : diff :=
  let c := caminoDiff_ d in
  with_camino d
    {| modifiedAddressStates := modifiedAddressStates c;
       modifiedDepositOffers := modifiedDepositOffers c;
       modifiedDeposits := modifiedDeposits c;
       modifiedMultisigOwners := modifiedMultisigOwners c;
       modifiedShortLinks := modifiedShortLinks c;
       modifiedClaimables := <[ownerID := claimable]> (modifiedClaimables c);
       modifiedNotDistributedValidatorReward := modifiedNotDistributedValidatorReward c;
       validatorDiffs := validatorDiffs c |}.

Definition SetNotDistributedValidatorReward (reward : Z) (d : diff) : diff :=
  let c := caminoDiff_ d in
  with_camino d
    {| modifiedAddressStates := modifiedAddressStates c;
       modifiedDepositOffers := modifiedDepositOffers c;
       modifiedDeposits := modifiedDeposits c;
       modifiedMultisigOwners := modifiedMultisigOwners c;
       modifiedShortLinks := modifiedShortLinks c;
       modifiedClaimables := modifiedClaimables c;
       modifiedNotDistributedValidatorReward := Some reward;
       validatorDiffs := validatorDiffs c |}.

(** ** Getters *)

Definition GetAddressStates (d : diff) (address : ShortID) : Query (result Z) :=
  match modifiedAddressStates (caminoDiff_ d) !! address with
  | Some states => Done (Ok states)
  | None => fromParent d (fun parentState => Chain_GetAddressStates parentState address)
  end.

Definition GetDepositOffer (d : diff) (offerID : ID) : Query (result (option Offer)) :=
  match modifiedDepositOffers (caminoDiff_ d) !! offerID with
  | Some offer => Done (Ok offer)
  | None => fromParent d (fun parentState => Chain_GetDepositOffer parentState offerID)
  end.

Definition GetDeposit (d : diff) (depositTxID : ID) : Query (result Deposit) :=
  match modifiedDeposits (caminoDiff_ d) !! depositTxID with
  | Some depositDiff =>
      if removed depositDiff then Done (Err ErrNotFound)
      else Done (Ok (dd_Deposit depositDiff))
  | None => fromParent d (fun parentState => Chain_GetDeposit parentState depositTxID)
  end.

Definition GetMultisigAlias (d : diff) (alias : ShortID) : Query (result Alias) :=
  match modifiedMultisigOwners (caminoDiff_ d) !! alias with
  | Some None => Done (Err ErrNotFound)
  | Some (Some msigOwner) => Done (Ok msigOwner)
  | None => fromParent d (fun parentState => Chain_GetMultisigAlias parentState alias)
  end.

Definition GetShortIDLink (d : diff) (id : ShortID) (key : ShortLinkKey)
    : Query (result ShortID) :=
  match modifiedShortLinks (caminoDiff_ d) !! toShortLinkKey id key with
  | Some None => Done (Err ErrNotFound)
  | Some (Some addr) => Done (Ok addr)
  | None => fromParent d (fun parentState => Chain_GetShortIDLink parentState id key)
  end.

Definition GetClaimable (d : diff) (ownerID : ID) : Query (result Claimable) :=
  match modifiedClaimables (caminoDiff_ d) !! ownerID with
  | Some None => Done (Err ErrNotFound)
  | Some (Some claimable) => Done (Ok claimable)
  | None => fromParent d (fun parentState => Chain_GetClaimable parentState ownerID)
  end.

Definition GetNotDistributedValidatorReward (d : diff) : Query (result Z) :=
  match modifiedNotDistributedValidatorReward (caminoDiff_ d) with
  | Some reward => Done (Ok reward)
  | None => fromParent d (fun parentState => Chain_GetNotDistributedValidatorReward parentState)
  end.

(** [offers] first collects the diff's own non-nil offers, then the
    parent's offers that the diff does not override. *)
Definition GetAllDepositOffers (d : diff) : Query (result (list Offer)) :=
  fromParent d (fun parentState =>
    match Chain_GetAllDepositOffers parentState with
    | Err err => Err err
    | Ok parentOffers =>
        let modified := modifiedDepositOffers (caminoDiff_ d) in
        let offers := omap snd (map_to_list modified) in
        Ok (offers ++
            filter (fun offer => modified !! Offer_ID offer = None) parentOffers)
    end).

(** ** [CaminoService.GetAllDepositOffers]

    [OfferFlagLocked] is a constant of the deposit package;
    [stateOffers] is what [s.vm.state.GetAllDepositOffers()] returned. *)
Definition CaminoService_GetAllDepositOffers (OfferFlagLocked : Z)
    (stateOffers : result (list Offer)) (active : bool) : result (list Offer) :=
  match stateOffers with
  | Err err => Err err
  | Ok depositOffers =>
      if active
      then Ok (filter (fun offer => Z.land (Flags offer) OfferFlagLocked = 0) depositOffers)
      else Ok depositOffers
  end.

(** ** Next deposit to unlock

    [MaxTime] is [mockable.MaxTime].  Both functions range over
    [modifiedDeposits] more than once; Go fixes the order of none of these
    ranges, so each run comes with the orders it takes.

    The argument [removedDepositIDs] is a [set.Set], a Go map handed over
    by value.  [GetNextToUnlockDepositTime_in] and
    [GetNextToUnlockDepositIDsAndTime_in] are the runs on an allocated map
    with the contents [removedDepositIDs]: caller, diff and parent share the
    map, and the second component of the result is what the map, and so the
    caller's set, holds when the function returns.  The runs on the nil map
    are [GetNextToUnlockDepositTime_nil_in] and
    [GetNextToUnlockDepositIDsAndTime_nil_in] below, and
    [GetNextToUnlockDepositTime_on] and
    [GetNextToUnlockDepositIDsAndTime_on] are the functions on either. *)

Definition isOtherError (err : option error) : bool :=
  match err with
  | None | Some ErrNotFound => false
  | Some _ => true
  end.

(** The orders of the three ranges over [modifiedDeposits]: the one that
    fills the set of removed deposits, the one that looks for the earliest
    added deposit, and the one that collects the added deposits. *)
Record DepositRanges := {
  rangeRemoved : list (ID * depositDiff);
  rangeEarliest : list (ID * depositDiff);
  rangeAdded : list (ID * depositDiff)
}.

Definition rangesOverDeposits (d : diff) (o : DepositRanges) : Prop :=
  rangeRemoved o ≡ₚ map_to_list (modifiedDeposits (caminoDiff_ d))
  /\ rangeEarliest o ≡ₚ map_to_list (modifiedDeposits (caminoDiff_ d))
  /\ rangeAdded o ≡ₚ map_to_list (modifiedDeposits (caminoDiff_ d)).

(** The orders that [map_to_list] happens to give. *)
Definition someDepositRanges (d : diff) : DepositRanges :=
  {| rangeRemoved := map_to_list (modifiedDeposits (caminoDiff_ d));
     rangeEarliest := map_to_list (modifiedDeposits (caminoDiff_ d));
     rangeAdded := map_to_list (modifiedDeposits (caminoDiff_ d)) |}.

Definition markRemoved (mods : list (ID * depositDiff)) (removedDepositIDs : gset ID)
    : gset ID :=
  foldl (fun s kv => if removed kv.2 then {[kv.1]} ∪ s else s) removedDepositIDs mods.

Definition earliestAdded (mods : list (ID * depositDiff)) (removedDepositIDs : gset ID)
    (nextUnlockTime : Time) : Time :=
  foldl (fun t kv =>
           let depositEndtime := EndTime (dd_Deposit kv.2) in
           if added kv.2 && (depositEndtime <? t)
              && negb (bool_decide (kv.1 ∈ removedDepositIDs))
           then depositEndtime else t)
        nextUnlockTime mods.

Definition addedAt (mods : list (ID * depositDiff)) (removedDepositIDs : gset ID)
    (nextUnlockTime : Time) (nextDepositIDs : list ID) : list ID * bool :=
  foldl (fun acc kv =>
           if added kv.2 && (EndTime (dd_Deposit kv.2) =? nextUnlockTime)
              && negb (bool_decide (kv.1 ∈ removedDepositIDs))
           then (acc.1 ++ [kv.1], true) else acc)
        (nextDepositIDs, false) mods.

(** [utils.Sort] on identifiers. *)
Definition sortIDs (l : list ID) : list ID := merge_sort N.le l.

(** One run of [GetNextToUnlockDepositTime], on an allocated set, that
    ranges in the orders [o]. *)
Definition GetNextToUnlockDepositTime_in (o : DepositRanges) (MaxTime : Time) (d : diff)
    (removedDepositIDs : gset ID) : Query ((Time * option error) * gset ID) :=
  AskParent (parentID d) (fun st =>
    match st with
    | None => ((zeroTime, Some (ErrMissingParentState (parentID d))), removedDepositIDs)
    | Some parentState =>
        let removedDepositIDs := markRemoved (rangeRemoved o) removedDepositIDs in
        let '((nextUnlockTime, err), removedDepositIDs) :=
          Chain_GetNextToUnlockDepositTime parentState removedDepositIDs in
        if isOtherError err then ((zeroTime, err), removedDepositIDs)
        else
          let nextUnlockTime :=
            earliestAdded (rangeEarliest o) removedDepositIDs nextUnlockTime in
          if nextUnlockTime =? MaxTime
          then ((MaxTime, Some ErrNotFound), removedDepositIDs)
          else ((nextUnlockTime, None), removedDepositIDs)
    end).

Definition GetNextToUnlockDepositTime (MaxTime : Time) (d : diff)
    (removedDepositIDs : gset ID) : Query ((Time * option error) * gset ID) :=
  GetNextToUnlockDepositTime_in (someDepositRanges d) MaxTime d removedDepositIDs.

(** One run of [GetNextToUnlockDepositIDsAndTime], on an allocated set,
    that ranges in the orders [o]. *)
Definition GetNextToUnlockDepositIDsAndTime_in (o : DepositRanges) (MaxTime : Time)
    (d : diff) (removedDepositIDs : gset ID)
    : Query ((list ID * Time * option error) * gset ID) :=
  AskParent (parentID d) (fun st =>
    match st with
    | None =>
        (([], zeroTime, Some (ErrMissingParentState (parentID d))), removedDepositIDs)
    | Some parentState =>
        let removedDepositIDs := markRemoved (rangeRemoved o) removedDepositIDs in
        let '((parentNextDepositIDs, parentNextUnlockTime, err), removedDepositIDs) :=
          Chain_GetNextToUnlockDepositIDsAndTime parentState removedDepositIDs in
        if isOtherError err then (([], zeroTime, err), removedDepositIDs)
        else
          let nextUnlockTime :=
            earliestAdded (rangeEarliest o) removedDepositIDs parentNextUnlockTime in
          if nextUnlockTime =? MaxTime
          then (([], MaxTime, Some ErrNotFound), removedDepositIDs)
          else
            let nextDepositIDs :=
              if negb (nextUnlockTime <? parentNextUnlockTime)
              then parentNextDepositIDs else [] in
            let '(nextDepositIDs, needSort) :=
              addedAt (rangeAdded o) removedDepositIDs nextUnlockTime nextDepositIDs in
            ((if needSort then sortIDs nextDepositIDs else nextDepositIDs,
              nextUnlockTime, None), removedDepositIDs)
    end).

Definition GetNextToUnlockDepositIDsAndTime (MaxTime : Time) (d : diff)
    (removedDepositIDs : gset ID)
    : Query ((list ID * Time * option error) * gset ID) :=
  GetNextToUnlockDepositIDsAndTime_in (someDepositRanges d) MaxTime d removedDepositIDs.

(** *** The nil set

    [removedDepositIDs.Add] on a nil set allocates a map in the variable
    of the function that calls it; the set of the caller stays nil.  The
    first loop therefore leaves the diff's variable nil when the diff marks
    no deposit removed, and otherwise with a map of the diff's own that
    holds the removed deposits. *)
Definition markRemoved_nil (mods : list (ID * depositDiff)) : option (gset ID) :=
  foldl (fun s kv => if removed kv.2 then Some ({[kv.1]} ∪ default ∅ s) else s) None mods.

(** One run of [GetNextToUnlockDepositTime], on the nil set, that ranges in
    the orders [o].  The parent is handed the diff's variable: nil, or the
    map of the diff's own, which the diff then shares with the parent.
    [Contains] on a nil set is false. *)
Definition GetNextToUnlockDepositTime_nil_in (o : DepositRanges) (MaxTime : Time)
    (d : diff) : Query (Time * option error) :=
  AskParent (parentID d) (fun st =>
    match st with
    | None => (zeroTime, Some (ErrMissingParentState (parentID d)))
    | Some parentState =>
        let '((nextUnlockTime, err), removedDepositIDs) :=
          match markRemoved_nil (rangeRemoved o) with
          | Some removedDepositIDs =>
              Chain_GetNextToUnlockDepositTime parentState removedDepositIDs
          | None => (Chain_GetNextToUnlockDepositTime_nil parentState, ∅)
          end in
        if isOtherError err then (zeroTime, err)
        else
          let nextUnlockTime :=
            earliestAdded (rangeEarliest o) removedDepositIDs nextUnlockTime in
          if nextUnlockTime =? MaxTime
          then (MaxTime, Some ErrNotFound)
          else (nextUnlockTime, None)
    end).

(** One run of [GetNextToUnlockDepositIDsAndTime], on the nil set, that
    ranges in the orders [o]. *)
Definition GetNextToUnlockDepositIDsAndTime_nil_in (o : DepositRanges) (MaxTime : Time)
    (d : diff) : Query (list ID * Time * option error) :=
  AskParent (parentID d) (fun st =>
    match st with
    | None => ([], zeroTime, Some (ErrMissingParentState (parentID d)))
    | Some parentState =>
        let '((parentNextDepositIDs, parentNextUnlockTime, err), removedDepositIDs) :=
          match markRemoved_nil (rangeRemoved o) with
          | Some removedDepositIDs =>
              Chain_GetNextToUnlockDepositIDsAndTime parentState removedDepositIDs
          | None => (Chain_GetNextToUnlockDepositIDsAndTime_nil parentState, ∅)
          end in
        if isOtherError err then ([], zeroTime, err)
        else
          let nextUnlockTime :=
            earliestAdded (rangeEarliest o) removedDepositIDs parentNextUnlockTime in
          if nextUnlockTime =? MaxTime
          then ([], MaxTime, Some ErrNotFound)
          else
            let nextDepositIDs :=
              if negb (nextUnlockTime <? parentNextUnlockTime)
              then parentNextDepositIDs else [] in
            let '(nextDepositIDs, needSort) :=
              addedAt (rangeAdded o) removedDepositIDs nextUnlockTime nextDepositIDs in
            (if needSort then sortIDs nextDepositIDs else nextDepositIDs,
             nextUnlockTime, None)
    end).

(** *** The functions on either set

    [removedDepositIDs] is the set that the caller hands over: [None] is
    the nil set, [Some contents] an allocated set that holds [contents].  Next to what
    the function returns, the result has the set of the caller as it is
    after the call. *)
Definition Query_map {A B} (f : A -> B) (q : Query A) : Query B :=
  match q with
  | Done a => Done (f a)
  | AskParent parent k => AskParent parent (fun st => f (k st))
  end.

Definition GetNextToUnlockDepositTime_on (o : DepositRanges) (MaxTime : Time) (d : diff)
    (removedDepositIDs : option (gset ID))
    : Query ((Time * option error) * option (gset ID)) :=
  match removedDepositIDs with
  | Some contents =>
      Query_map (fun r => (r.1, Some r.2))
        (GetNextToUnlockDepositTime_in o MaxTime d contents)
  | None =>
      Query_map (fun r => (r, None)) (GetNextToUnlockDepositTime_nil_in o MaxTime d)
  end.

Definition GetNextToUnlockDepositIDsAndTime_on (o : DepositRanges) (MaxTime : Time)
    (d : diff) (removedDepositIDs : option (gset ID))
    : Query ((list ID * Time * option error) * option (gset ID)) :=
  match removedDepositIDs with
  | Some contents =>
      Query_map (fun r => (r.1, Some r.2))
        (GetNextToUnlockDepositIDsAndTime_in o MaxTime d contents)
  | None =>
      Query_map (fun r => (r, None)) (GetNextToUnlockDepositIDsAndTime_nil_in o MaxTime d)
  end.

(** ** [LockedUTXOs]

    [Match] is [locked.IDs.Match], of the locked package.  [rangeOrder]
    is the order in which Go ranges over the [remaining] set: any
    enumeration of it. *)

(** Step 1, [for i := len(retUtxos) - 1; i >= 0; i--]: [stepExisting i]
    runs the iterations [i - 1], ..., [0]. *)
Fixpoint stepExisting (modified : gmap ID utxoModification) (i : nat)
    (retUtxos : list UTXO) (remaining : gset ID) : list UTXO * gset ID :=
  match i with
  | O => (retUtxos, remaining)
  | S j =>
      match retUtxos !! j with
      | None => (retUtxos, remaining)
      | Some u =>
          match modified !! InputID u with
          | Some m =>
              let retUtxos' :=
                match utxo m with
                | None => take j retUtxos ++ drop (S j) retUtxos
                | Some u' => <[j := u']> retUtxos
                end in
              stepExisting modified j retUtxos' (remaining ∖ {[utxoID m]})
          | None => stepExisting modified j retUtxos remaining
          end
      end
  end.

(** Step 2, [for utxoID := range remaining]. *)
Definition stepAppend (Match : LockIDs -> LockState -> gset ID -> bool)
    (modified : gmap ID utxoModification) (txIDs : gset ID) (lockState : LockState)
    (order : list ID) (retUtxos : list UTXO) : list UTXO :=
  foldl (fun ret utxoID =>
           match modified !! utxoID with
           | Some {| utxo := Some u |} =>
               match UTXO_Out u with
               | LockedOut ids _ _ =>
                   if Match ids lockState txIDs then ret ++ [u] else ret
               | _ => ret
               end
           | _ => ret
           end)
        retUtxos order.

Definition LockedUTXOs (Match : LockIDs -> LockState -> gset ID -> bool)
    (rangeOrder : gset ID -> list ID) (d : diff)
    (txIDs : gset ID) (addresses : gset ShortID) (lockState : LockState)
    : Query (result (list UTXO)) :=
  fromParent d (fun parentState =>
    match Chain_LockedUTXOs parentState txIDs addresses lockState with
    | Err err => Err err
    | Ok retUtxos =>
        let remaining := dom (modifiedUTXOs d) in
        let '(retUtxos, remaining) :=
          stepExisting (modifiedUTXOs d) (length retUtxos) retUtxos remaining in
        Ok (stepAppend Match (modifiedUTXOs d) txIDs lockState
              (rangeOrder remaining) retUtxos)
    end).

(** ** [ApplyCaminoState]

    [State] is the setter half of the base state's interface. *)

Record State (S : Type) := {
  State_SetNotDistributedValidatorReward : Z -> S -> S;
  State_SetAddressStates : ShortID -> Z -> S -> S;
  State_SetDepositOffer : option Offer -> S -> S;
  State_AddDeposit : ID -> Deposit -> S -> S;
  State_RemoveDeposit : ID -> Deposit -> S -> S;
  State_ModifyDeposit : ID -> Deposit -> S -> S;
  State_SetMultisigAlias : option Alias -> S -> S;
  State_SetShortIDLink : ShortID -> ShortLinkKey -> option ShortID -> S -> S;
  State_SetClaimable : ID -> option Claimable -> S -> S;
  State_DeleteDeferredValidator : Staker -> S -> S;
  State_PutDeferredValidator : Staker -> S -> S
}.
Arguments State_SetNotDistributedValidatorReward {S} _ _ _.
Arguments State_SetAddressStates {S} _ _ _ _.
Arguments State_SetDepositOffer {S} _ _ _.
Arguments State_AddDeposit {S} _ _ _ _.
Arguments State_RemoveDeposit {S} _ _ _ _.
Arguments State_ModifyDeposit {S} _ _ _ _.
Arguments State_SetMultisigAlias {S} _ _ _.
Arguments State_SetShortIDLink {S} _ _ _ _ _.
Arguments State_SetClaimable {S} _ _ _ _.
Arguments State_DeleteDeferredValidator {S} _ _ _.
Arguments State_PutDeferredValidator {S} _ _ _.

(** The orders in which one run of [ApplyCaminoState] ranges over the
    diff's maps.  Go fixes none of them. *)
Record RangeOrders := {
  orderAddressStates : list (ShortID * Z);
  orderDepositOffers : list (ID * option Offer);
  orderDeposits : list (ID * depositDiff);
  orderMultisigOwners : list (ShortID * option Alias);
  orderShortLinks : list ((ShortID * ShortLinkKey) * option ShortID);
  orderClaimables : list (ID * option Claimable);
  orderValidatorDiffs : list (ID * list (NodeID * diffValidator))
}.

Definition nestedRange (vd : gmap ID (gmap NodeID diffValidator))
    (order : list (ID * list (NodeID * diffValidator))) : Prop :=
  exists outer : list (ID * gmap NodeID diffValidator),
    outer ≡ₚ map_to_list vd /\
    Forall2 (fun x y => x.1 = y.1 /\ y.2 ≡ₚ map_to_list x.2) outer order.

Definition rangesOver (c : caminoDiff) (o : RangeOrders) : Prop :=
  orderAddressStates o ≡ₚ map_to_list (modifiedAddressStates c) /\
  orderDepositOffers o ≡ₚ map_to_list (modifiedDepositOffers c) /\
  orderDeposits o ≡ₚ map_to_list (modifiedDeposits c) /\
  orderMultisigOwners o ≡ₚ map_to_list (modifiedMultisigOwners c) /\
  orderShortLinks o ≡ₚ map_to_list (modifiedShortLinks c) /\
  orderClaimables o ≡ₚ map_to_list (modifiedClaimables c) /\
  nestedRange (validatorDiffs c) (orderValidatorDiffs o).

(** The order that [map_to_list] happens to give. *)
Definition someOrders (c : caminoDiff) : RangeOrders :=
  {| orderAddressStates := map_to_list (modifiedAddressStates c);
     orderDepositOffers := map_to_list (modifiedDepositOffers c);
     orderDeposits := map_to_list (modifiedDeposits c);
     orderMultisigOwners := map_to_list (modifiedMultisigOwners c);
     orderShortLinks := map_to_list (modifiedShortLinks c);
     orderClaimables := map_to_list (modifiedClaimables c);
     orderValidatorDiffs :=
       (fun x => (x.1, map_to_list x.2)) <$> map_to_list (validatorDiffs c) |}.

Section Apply.
Context {S : Type} (baseState : State S).

Definition applyDeposit (s : S) (kv : ID * depositDiff) : S :=
  let '(depositTxID, depositDiff) := kv in
  if added depositDiff
  then State_AddDeposit baseState depositTxID (dd_Deposit depositDiff) s
  else if removed depositDiff
  then State_RemoveDeposit baseState depositTxID (dd_Deposit depositDiff) s
  else State_ModifyDeposit baseState depositTxID (dd_Deposit depositDiff) s.

Definition applyShortLink (s : S) (kv : (ShortID * ShortLinkKey) * option ShortID) : S :=
  let '(fullKey, link) := kv in
  let '(id, key) := fromShortLinkKey fullKey in
  State_SetShortIDLink baseState id key link s.

Definition applyValidatorDiff (s : S) (kv : NodeID * diffValidator) : S :=
  let validatorDiff := kv.2 in
  if validatorModified validatorDiff
  then if validatorDeleted validatorDiff
       then State_DeleteDeferredValidator baseState (validator validatorDiff) s
       else State_PutDeferredValidator baseState (validator validatorDiff) s
  else s.

(** One run of [ApplyCaminoState] that ranges in the orders [o]. *)
Definition ApplyCaminoState_in (o : RangeOrders) (d : diff) (s : S) : S :=
  let s :=
    match modifiedNotDistributedValidatorReward (caminoDiff_ d) with
    | Some reward => State_SetNotDistributedValidatorReward baseState reward s
    | None => s
    end in
  let s := foldl (fun s kv => State_SetAddressStates baseState kv.1 kv.2 s)
             s (orderAddressStates o) in
  let s := foldl (fun s kv => State_SetDepositOffer baseState kv.2 s)
             s (orderDepositOffers o) in
  let s := foldl applyDeposit s (orderDeposits o) in
  let s := foldl (fun s kv => State_SetMultisigAlias baseState kv.2 s)
             s (orderMultisigOwners o) in
  let s := foldl applyShortLink s (orderShortLinks o) in
  let s := foldl (fun s kv => State_SetClaimable baseState kv.1 kv.2 s)
             s (orderClaimables o) in
  foldl (fun s validatorDiffs => foldl applyValidatorDiff s validatorDiffs.2)
    s (orderValidatorDiffs o).

Definition ApplyCaminoState (d : diff) (s : S) : S :=
  ApplyCaminoState_in (someOrders (caminoDiff_ d)) d s.
End Apply.

(** ** The transaction builder *)

Record PrivateKey := {
  Key_Address : ShortID;
  Key_Secret : N
}.

Global Instance PrivateKey_eq_dec : EqDecision PrivateKey.
Proof. solve_decision. Defined.

(** Modelled from the spec: [secp256k1fx.Keychain], whose source is not
    covered here; the spec describes it as an ordered map from addresses to
    keys. *)
Record Keychain := { Keys : list PrivateKey }.

(** Modelled from the spec: [Keychain.Add] of the same package; in an
    ordered map from addresses to keys, a key is appended unless its address
    is already present. *)
Definition Keychain_Add (kc : Keychain) (key : PrivateKey) : Keychain :=
  if bool_decide (Key_Address key ∈ Key_Address <$> Keys kc)
  then kc
  else {| Keys := Keys kc ++ [key] |}.

(** Modelled from the spec: [secp256k1fx.NewKeychain] of the same package,
    which adds the given keys one after the other to an empty keychain. *)
Definition NewKeychain (keys : list PrivateKey) : Keychain :=
  foldl Keychain_Add {| Keys := [] |} keys.

Record CaminoConfig := {
  VerifyNodeSignature : bool;
  LockModeBondDeposit : bool
}.

Inductive SpendInput : Type :=
  | TransferableIn (amount : Z) (sigIndices : list Z)
  | OtherIn.

Record TransferableInput := {
  In_UTXOID : ID * N;
  In_Asset : ID;
  In_In : SpendInput
}.

Record TransferableOutput := {
  Out_Asset : ID;
  Out_Out : Output
}.

Record BaseTx := {
  NetworkID : Z;
  BlockchainID : ID;
  Ins : list TransferableInput;
  Outs : list TransferableOutput
}.

(** [fx.Owner]: a [*secp256k1fx.OutputOwners] or some other owner. *)
Inductive FxOwner : Type :=
  | SECPOwner (owners : OutputOwners)
  | OtherOwner.

Inductive UnsignedTx : Type :=
  | DepositTx (base : BaseTx) (RewardsOwner : FxOwner)
  | ClaimTx (base : BaseTx) (DepositTxIDs ClaimableOwnerIDs : list ID)
      (ClaimedAmounts : list Z) (ClaimTo : option OutputOwners)
  | RewardsImportTx (base : BaseTx)
  | OtherTx (base : BaseTx).

(** A credential, identified with the keys whose signatures it holds. *)
Record Credential := { Cred_Signers : list PrivateKey }.

Record Tx := {
  Unsigned : UnsignedTx;
  Creds : list Credential
}.

Inductive Status : Type :=
  | Committed
  | Aborted
  | Processing
  | Unknown.

Record TimedUTXO := {
  Timed_UTXO : UTXO;
  Timestamp : Z
}.

(** What the builder reaches through its fields: the chain state, the
    spender, the clock, the codec, shared memory and the configuration. *)
Record caminoBuilder := {
  b_CaminoConfig : result CaminoConfig;
  b_TxFee : Z;
  b_NetworkID : Z;
  b_ChainID : ID;
  b_Lock : list PrivateKey -> Z -> Z -> LockState -> option OutputOwners ->
           option OutputOwners -> Z ->
           result (list TransferableInput * list TransferableOutput * list (list PrivateKey));
  b_GetTx : ID -> result (Tx * Status);
  b_GetClaimable : ID -> result Claimable;
  b_clkUnix : Z;
  b_Match : Keychain -> OutputOwners -> Z -> list Z * list PrivateKey * bool;
  b_signError : UnsignedTx -> list (list PrivateKey) -> option error;
  b_SyntacticVerify : Tx -> option error;
  b_Indexed : result (list (list byte));
  b_Unmarshal : list byte -> option TimedUTXO;
  b_SharedMemorySyncBound : Z;
  b_treasurySpend : Output -> Z -> result SpendInput
}.

(** Modelled from the spec: [txs.NewSigned], whose source is not covered
    here; the spec has one credential per entry of the signers array, the
    credentials of the inputs first and the role credentials after them.
    [b_signError] stands for the ways signing and encoding can fail. *)
Definition NewSigned (b : caminoBuilder) (utx : UnsignedTx)
    (signers : list (list PrivateKey)) : result Tx :=
  match b_signError b utx signers with
  | Some err => Err err
  | None =>
      Ok {| Unsigned := utx;
            Creds := (fun keys => {| Cred_Signers := keys |}) <$> signers |}
  end.

(** A Go function result: a transaction pointer and an error. *)
Abbreviation TxResult := (option Tx * option error)%type.

Definition getDepositRewardsOwner (b : caminoBuilder) (depositTxID : ID)
    : result OutputOwners :=
  match b_GetTx b depositTxID with
  | Err err => Err err
  | Ok (signedDepositTx, txStatus) =>
      match txStatus with
      | Committed =>
          match Unsigned signedDepositTx with
          | DepositTx _ rewardsOwner =>
              match rewardsOwner with
              | SECPOwner depositRewardsOwner => Ok depositRewardsOwner
              | OtherOwner => Err errNotSECPOwner
              end
          | _ => Err errWrongTxType
          end
      | _ => Err errTxIsNotCommitted
      end
  end.

(** [for _, depositTxID := range depositTxIDs] of [NewClaimTx]. *)
Fixpoint depositSigners (b : caminoBuilder) (kc : Keychain) (depositTxIDs : list ID)
    (claimableSignersKC : Keychain) : result Keychain :=
  match depositTxIDs with
  | [] => Ok claimableSignersKC
  | depositTxID :: rest =>
      match getDepositRewardsOwner b depositTxID with
      | Err err => Err err
      | Ok depositRewardsOwner =>
          let '(_, signers, able) := b_Match b kc depositRewardsOwner (b_clkUnix b) in
          if negb able then Err errKeyMissing
          else depositSigners b kc rest (foldl Keychain_Add claimableSignersKC signers)
      end
  end.

(** [for _, ownerID := range claimableOwnerIDs] of [NewClaimTx]. *)
Fixpoint claimableSigners (b : caminoBuilder) (kc : Keychain) (claimableOwnerIDs : list ID)
    (claimableSignersKC : Keychain) : result Keychain :=
  match claimableOwnerIDs with
  | [] => Ok claimableSignersKC
  | ownerID :: rest =>
      match b_GetClaimable b ownerID with
      | Err err => Err (ErrWrap "couldn't get claimable for ownerID" err)
      | Ok claimable =>
          let '(_, signers, able) := b_Match b kc (Owner claimable) (b_clkUnix b) in
          if negb able then Err errKeyMissing
          else claimableSigners b kc rest (foldl Keychain_Add claimableSignersKC signers)
      end
  end.

Definition NewClaimTx (b : caminoBuilder)
    (depositTxIDs claimableOwnerIDs : list ID) (amountToClaim : list Z)
    (claimTo : option OutputOwners) (keys : list PrivateKey)
    (change : option OutputOwners) : TxResult :=
  match b_CaminoConfig b with
  | Err err => (None, Some err)
  | Ok caminoGenesis =>
      if negb (LockModeBondDeposit caminoGenesis) then (None, Some errWrongLockMode)
      else
        match b_Lock b keys 0 (b_TxFee b) StateUnlocked None change 0 with
        | Err err => (None, Some (ErrWrap "couldn't generate tx inputs/outputs" err))
        | Ok (ins, outs, signers) =>
            let kc := NewKeychain keys in
            let claimableSignersKC := NewKeychain [] in
            match depositSigners b kc depositTxIDs claimableSignersKC with
            | Err err => (None, Some err)
            | Ok claimableSignersKC =>
                match claimableSigners b kc claimableOwnerIDs claimableSignersKC with
                | Err err => (None, Some err)
                | Ok claimableSignersKC =>
                    let signers := signers ++ [Keys claimableSignersKC] in
                    let utx :=
                      ClaimTx {| NetworkID := b_NetworkID b;
                                 BlockchainID := b_ChainID b;
                                 Ins := ins;
                                 Outs := outs |}
                              depositTxIDs claimableOwnerIDs amountToClaim claimTo in
                    match NewSigned b utx signers with
                    | Err err => (None, Some err)
                    | Ok tx => (Some tx, b_SyntacticVerify b tx)
                    end
                end
            end
        end
  end.

(** [uint64] subtraction, which wraps around. *)
Definition sub64 (x y : Z) : Z := (x - y) mod 2 ^ 64.

(** [for _, utxoBytes := range allUTXOsBytes] of [NewRewardsImportTx]. *)
Definition importableUTXOs (b : caminoBuilder) (now : Z)
    (allUTXOsBytes : list (list byte)) : list UTXO :=
  foldl (fun utxos utxoBytes =>
           match b_Unmarshal b utxoBytes with
           | None => utxos
           | Some utxo =>
               if Timestamp utxo <=? sub64 now (b_SharedMemorySyncBound b)
               then utxos ++ [Timed_UTXO utxo] else utxos
           end)
        [] allUTXOsBytes.

(** [for i, utxo := range utxos], which fills [ins]. *)
Fixpoint importInputs (b : caminoBuilder) (now : Z) (utxos : list UTXO)
    : option error + list TransferableInput :=
  match utxos with
  | [] => inr []
  | utxo :: rest =>
      match b_treasurySpend b (UTXO_Out utxo) now with
      | Err err => inl (Some err)
      | Ok OtherIn => inl None
      | Ok input =>
          match importInputs b now rest with
          | inl e => inl e
          | inr ins =>
              inr ({| In_UTXOID := UTXO_UTXOID utxo;
                      In_Asset := UTXO_Asset utxo;
                      In_In := input |} :: ins)
          end
      end
  end.

(** The order of [avax.SortTransferableInputs]: by transaction identifier,
    then by output index. *)
Definition utxoIDLe (x y : TransferableInput) : Prop :=
  ((In_UTXOID x).1 < (In_UTXOID y).1)%N \/
  ((In_UTXOID x).1 = (In_UTXOID y).1 /\ ((In_UTXOID x).2 <= (In_UTXOID y).2)%N).

Global Instance utxoIDLe_dec : RelDecision utxoIDLe.
Proof. intros x y. unfold utxoIDLe. apply _. Defined.

Definition SortTransferableInputs (ins : list TransferableInput) : list TransferableInput :=
  merge_sort utxoIDLe ins.

Definition NewRewardsImportTx (b : caminoBuilder) : TxResult :=
  match b_CaminoConfig b with
  | Err err => (None, Some err)
  | Ok caminoGenesis =>
      if negb (LockModeBondDeposit caminoGenesis) then (None, Some errWrongLockMode)
      else
        match b_Indexed b with
        | Err err => (None, Some (ErrWrap "error fetching atomic UTXOs" err))
        | Ok allUTXOsBytes =>
            let now := b_clkUnix b in
            let utxos := importableUTXOs b now allUTXOsBytes in
            if bool_decide (length utxos = 0%nat) then (None, Some errNoUTXOsForImport)
            else
              match importInputs b now utxos with
              | inl err => (None, err)
              | inr ins =>
                  let ins := SortTransferableInputs ins in
                  let utx :=
                    RewardsImportTx {| NetworkID := b_NetworkID b;
                                       BlockchainID := b_ChainID b;
                                       Ins := ins;
                                       Outs := [] |} in
                  match NewSigned b utx [] with
                  | Err err => (None, Some err)
                  | Ok tx => (Some tx, b_SyntacticVerify b tx)
                  end
              end
        end
  end.

(** ** Creating a diff and writing to it *)

(** The [timestamp] field, copied from the parent, plays no part below and
    is left out. *)
Definition NewCaminoDiff (parentID : ID) (stateVersions : ID -> option Chain)
    : result diff :=
  match stateVersions parentID with
  | None => Err (ErrMissingParentState parentID)
  | Some parentState =>
      Ok {| parentID := parentID;
            stateVersions := stateVersions;
            modifiedUTXOs := ∅;
            caminoDiff_ := newCaminoDiff |}
  end.

(** A call of one of the diff's setters. *)
Inductive Op : Type :=
  | OpSetAddressStates (address : ShortID) (states : Z)
  | OpSetDepositOffer (offer : Offer)
  | OpAddDeposit (depositTxID : ID) (deposit : Deposit)
  | OpModifyDeposit (depositTxID : ID) (deposit : Deposit)
  | OpRemoveDeposit (depositTxID : ID) (deposit : Deposit)
  | OpSetMultisigAlias (owner : Alias)
  | OpSetShortIDLink (id : ShortID) (key : ShortLinkKey) (link : option ShortID)
  | OpSetClaimable (ownerID : ID) (claimable : option Claimable)
  | OpSetNotDistributedValidatorReward (reward : Z).

Definition perform (d : diff) (op : Op) : diff :=
  match op with
  | OpSetAddressStates address states => SetAddressStates address states d
  | OpSetDepositOffer offer => SetDepositOffer offer d
  | OpAddDeposit depositTxID deposit => AddDeposit depositTxID deposit d
  | OpModifyDeposit depositTxID deposit => ModifyDeposit depositTxID deposit d
  | OpRemoveDeposit depositTxID deposit => RemoveDeposit depositTxID deposit d
  | OpSetMultisigAlias owner => SetMultisigAlias owner d
  | OpSetShortIDLink id key link => SetShortIDLink id key link d
  | OpSetClaimable ownerID claimable => SetClaimable ownerID claimable d
  | OpSetNotDistributedValidatorReward reward => SetNotDistributedValidatorReward reward d
  end.

(** The diff after the setter calls [ops], in this order. *)
Definition performAll (d : diff) (ops : list Op) : diff := foldl perform d ops.

(** What a getter is asked for. *)
Inductive Key : Type :=
  | KAddressStates (address : ShortID)
  | KDepositOffer (offerID : ID)
  | KDeposit (depositTxID : ID)
  | KMultisigAlias (alias : ShortID)
  | KShortIDLink (id : ShortID) (key : ShortLinkKey)
  | KClaimable (ownerID : ID)
  | KNotDistributedValidatorReward.

Global Instance Key_eq_dec : EqDecision Key.
Proof. solve_decision. Defined.

(** The key a setter call writes. *)
Definition target (op : Op) : Key :=
  match op with
  | OpSetAddressStates address _ => KAddressStates address
  | OpSetDepositOffer offer => KDepositOffer (Offer_ID offer)
  | OpAddDeposit depositTxID _
  | OpModifyDeposit depositTxID _
  | OpRemoveDeposit depositTxID _ => KDeposit depositTxID
  | OpSetMultisigAlias owner => KMultisigAlias (Alias_ID owner)
  | OpSetShortIDLink id key _ => KShortIDLink id key
  | OpSetClaimable ownerID _ => KClaimable ownerID
  | OpSetNotDistributedValidatorReward _ => KNotDistributedValidatorReward
  end.

Inductive Answer : Type :=
  | AnsAddressStates (r : result Z)
  | AnsDepositOffer (r : result (option Offer))
  | AnsDeposit (r : result Deposit)
  | AnsMultisigAlias (r : result Alias)
  | AnsShortIDLink (r : result ShortID)
  | AnsClaimable (r : result Claimable)
  | AnsNotDistributedValidatorReward (r : result Z).

(** The getter of the diff that answers for a key. *)
Definition getter (d : diff) (k : Key) : Query Answer :=
  let wrap {A} (f : result A -> Answer) (q : Query (result A)) : Query Answer :=
    match q with
    | Done a => Done (f a)
    | AskParent p c => AskParent p (fun st => f (c st))
    end in
  match k with
  | KAddressStates address => wrap AnsAddressStates (GetAddressStates d address)
  | KDepositOffer offerID => wrap AnsDepositOffer (GetDepositOffer d offerID)
  | KDeposit depositTxID => wrap AnsDeposit (GetDeposit d depositTxID)
  | KMultisigAlias alias => wrap AnsMultisigAlias (GetMultisigAlias d alias)
  | KShortIDLink id key => wrap AnsShortIDLink (GetShortIDLink d id key)
  | KClaimable ownerID => wrap AnsClaimable (GetClaimable d ownerID)
  | KNotDistributedValidatorReward =>
      wrap AnsNotDistributedValidatorReward (GetNotDistributedValidatorReward d)
  end.

(** The same question put to the parent state. *)
Definition parentAnswer (parentState : Chain) (k : Key) : Answer :=
  match k with
  | KAddressStates address => AnsAddressStates (Chain_GetAddressStates parentState address)
  | KDepositOffer offerID => AnsDepositOffer (Chain_GetDepositOffer parentState offerID)
  | KDeposit depositTxID => AnsDeposit (Chain_GetDeposit parentState depositTxID)
  | KMultisigAlias alias => AnsMultisigAlias (Chain_GetMultisigAlias parentState alias)
  | KShortIDLink id key => AnsShortIDLink (Chain_GetShortIDLink parentState id key)
  | KClaimable ownerID => AnsClaimable (Chain_GetClaimable parentState ownerID)
  | KNotDistributedValidatorReward =>
      AnsNotDistributedValidatorReward (Chain_GetNotDistributedValidatorReward parentState)
  end.

(** The value a setter call hands over, as a getter reports a value; a nil
    link or claimable, and a removed deposit, are tombstones. *)
Definition written (op : Op) : Answer :=
  match op with
  | OpSetAddressStates _ states => AnsAddressStates (Ok states)
  | OpSetDepositOffer offer => AnsDepositOffer (Ok (Some offer))
  | OpAddDeposit _ deposit | OpModifyDeposit _ deposit => AnsDeposit (Ok deposit)
  | OpRemoveDeposit _ _ => AnsDeposit (Err ErrNotFound)
  | OpSetMultisigAlias owner => AnsMultisigAlias (Ok owner)
  | OpSetShortIDLink _ _ (Some link) => AnsShortIDLink (Ok link)
  | OpSetShortIDLink _ _ None => AnsShortIDLink (Err ErrNotFound)
  | OpSetClaimable _ (Some claimable) => AnsClaimable (Ok claimable)
  | OpSetClaimable _ None => AnsClaimable (Err ErrNotFound)
  | OpSetNotDistributedValidatorReward reward => AnsNotDistributedValidatorReward (Ok reward)
  end.

(** ** The calls [ApplyCaminoState] makes on the base state *)

Inductive Call : Type :=
  | CallSetNotDistributedValidatorReward (reward : Z)
  | CallSetAddressStates (address : ShortID) (states : Z)
  | CallSetDepositOffer (offer : option Offer)
  | CallAddDeposit (depositTxID : ID) (deposit : Deposit)
  | CallRemoveDeposit (depositTxID : ID) (deposit : Deposit)
  | CallModifyDeposit (depositTxID : ID) (deposit : Deposit)
  | CallSetMultisigAlias (owner : option Alias)
  | CallSetShortIDLink (id : ShortID) (key : ShortLinkKey) (link : option ShortID)
  | CallSetClaimable (ownerID : ID) (claimable : option Claimable)
  | CallDeleteDeferredValidator (staker : Staker)
  | CallPutDeferredValidator (staker : Staker).

Definition exec {S} (baseState : State S) (c : Call) (s : S) : S :=
  match c with
  | CallSetNotDistributedValidatorReward reward =>
      State_SetNotDistributedValidatorReward baseState reward s
  | CallSetAddressStates address states => State_SetAddressStates baseState address states s
  | CallSetDepositOffer offer => State_SetDepositOffer baseState offer s
  | CallAddDeposit depositTxID deposit => State_AddDeposit baseState depositTxID deposit s
  | CallRemoveDeposit depositTxID deposit => State_RemoveDeposit baseState depositTxID deposit s
  | CallModifyDeposit depositTxID deposit => State_ModifyDeposit baseState depositTxID deposit s
  | CallSetMultisigAlias owner => State_SetMultisigAlias baseState owner s
  | CallSetShortIDLink id key link => State_SetShortIDLink baseState id key link s
  | CallSetClaimable ownerID claimable => State_SetClaimable baseState ownerID claimable s
  | CallDeleteDeferredValidator staker => State_DeleteDeferredValidator baseState staker s
  | CallPutDeferredValidator staker => State_PutDeferredValidator baseState staker s
  end.

(** What a call writes to: the entry of the state that it sets or clears. *)
Inductive Loc : Type :=
  | LocNotDistributedValidatorReward
  | LocAddressStates (address : ShortID)
  | LocDepositOffer (offerID : ID)
  | LocDeposit (depositTxID : ID)
  | LocMultisigAlias (alias : ShortID)
  | LocShortIDLink (id : ShortID) (key : ShortLinkKey)
  | LocClaimable (ownerID : ID)
  | LocDeferredValidator (subnetID : ID) (nodeID : NodeID).

Global Instance Loc_eq_dec : EqDecision Loc.
Proof. solve_decision. Defined.

Global Instance Loc_countable : Countable Loc.
Proof.
  refine (inj_countable'
    (fun l => match l with
              | LocNotDistributedValidatorReward => inl (inl (inl ()))
              | LocAddressStates a => inl (inl (inr (0%N, a)))
              | LocDepositOffer i => inl (inl (inr (1%N, i)))
              | LocDeposit i => inl (inl (inr (2%N, i)))
              | LocMultisigAlias a => inl (inl (inr (3%N, a)))
              | LocClaimable i => inl (inl (inr (4%N, i)))
              | LocShortIDLink i k => inl (inr (i, k))
              | LocDeferredValidator s n => inr (s, n)
              end)
    (fun x => match x with
              | inl (inl (inl ())) => LocNotDistributedValidatorReward
              | inl (inl (inr (0%N, a))) => LocAddressStates a
              | inl (inl (inr (1%N, i))) => LocDepositOffer i
              | inl (inl (inr (2%N, i))) => LocDeposit i
              | inl (inl (inr (3%N, a))) => LocMultisigAlias a
              | inl (inl (inr (_, i))) => LocClaimable i
              | inl (inr (i, k)) => LocShortIDLink i k
              | inr (s, n) => LocDeferredValidator s n
              end) _).
  by intros [].
Defined.

(** A call with a nil offer or alias names no entry. *)
Definition call_loc (c : Call) : option Loc :=
  match c with
  | CallSetNotDistributedValidatorReward _ => Some LocNotDistributedValidatorReward
  | CallSetAddressStates address _ => Some (LocAddressStates address)
  | CallSetDepositOffer offer => LocDepositOffer ∘ Offer_ID <$> offer
  | CallAddDeposit depositTxID _
  | CallRemoveDeposit depositTxID _
  | CallModifyDeposit depositTxID _ => Some (LocDeposit depositTxID)
  | CallSetMultisigAlias owner => LocMultisigAlias ∘ Alias_ID <$> owner
  | CallSetShortIDLink id key _ => Some (LocShortIDLink id key)
  | CallSetClaimable ownerID _ => Some (LocClaimable ownerID)
  | CallDeleteDeferredValidator staker
  | CallPutDeferredValidator staker =>
      Some (LocDeferredValidator (Staker_SubnetID staker) (Staker_NodeID staker))
  end.

(** The base state keeps the last value written per entry: repeating a
    write changes nothing, and writes to different entries are independent. *)
Class LastWriteWins {S} (baseState : State S) : Prop := {
  write_twice c s :
    is_Some (call_loc c) ->
    exec baseState c (exec baseState c s) = exec baseState c s;
  write_independent c1 c2 s :
    is_Some (call_loc c1) -> is_Some (call_loc c2) ->
    call_loc c1 <> call_loc c2 ->
    exec baseState c1 (exec baseState c2 s) = exec baseState c2 (exec baseState c1 s)
}.

(** The calls of one run, in the order they are made. *)
Definition depositCall (kv : ID * depositDiff) : Call :=
  if added kv.2 then CallAddDeposit kv.1 (dd_Deposit kv.2)
  else if removed kv.2 then CallRemoveDeposit kv.1 (dd_Deposit kv.2)
  else CallModifyDeposit kv.1 (dd_Deposit kv.2).

Definition validatorCalls (kv : NodeID * diffValidator) : list Call :=
  if validatorModified kv.2
  then if validatorDeleted kv.2
       then [CallDeleteDeferredValidator (validator kv.2)]
       else [CallPutDeferredValidator (validator kv.2)]
  else [].

Definition applyCalls (o : RangeOrders) (d : diff) : list Call :=
  match modifiedNotDistributedValidatorReward (caminoDiff_ d) with
  | Some reward => [CallSetNotDistributedValidatorReward reward]
  | None => []
  end
  ++ ((fun kv => CallSetAddressStates kv.1 kv.2) <$> orderAddressStates o)
  ++ ((fun kv => CallSetDepositOffer kv.2) <$> orderDepositOffers o)
  ++ (depositCall <$> orderDeposits o)
  ++ ((fun kv => CallSetMultisigAlias kv.2) <$> orderMultisigOwners o)
  ++ ((fun kv => CallSetShortIDLink kv.1.1 kv.1.2 kv.2) <$> orderShortLinks o)
  ++ ((fun kv => CallSetClaimable kv.1 kv.2) <$> orderClaimables o)
  ++ (orderValidatorDiffs o ≫= fun x => x.2 ≫= validatorCalls).

(** The entries of a diff as its setters leave them: an offer or alias is
    filed under its own identifier and is not nil, and a modified validator
    under its subnet and node. *)
Definition diff_wf (c : caminoDiff) : Prop :=
  (forall k o, modifiedDepositOffers c !! k = Some o ->
     exists offer, o = Some offer /\ Offer_ID offer = k) /\
  (forall k o, modifiedMultisigOwners c !! k = Some o ->
     exists owner, o = Some owner /\ Alias_ID owner = k) /\
  (forall subnetID vs nodeID v,
     validatorDiffs c !! subnetID = Some vs -> vs !! nodeID = Some v ->
     validatorModified v = true ->
     Staker_SubnetID (validator v) = subnetID /\ Staker_NodeID (validator v) = nodeID).

(** ** A base state that holds one value per entry *)

(** The values that the entries of the base state hold. *)
Inductive Cell : Type :=
  | CellU64 (v : Z)
  | CellOffer (offer : Offer)
  | CellDeposit (deposit : Deposit)
  | CellAlias (alias : Alias)
  | CellShortID (id : ShortID)
  | CellClaimable (claimable : Claimable)
  | CellStaker (staker : Staker).

Abbreviation BaseState := (gmap Loc Cell).

(** Writing the entry [l]: a value is stored, a nil value clears the entry. *)
Definition store (l : Loc) (v : option Cell) (s : BaseState) : BaseState :=
  match v with
  | Some c => <[l := c]> s
  | None => delete l s
  end.

Arguments store : simpl never.

(** Modelled from the spec: the setters of the base state, whose source is
    not covered here; the spec asks of the base state that it holds the
    final values written, writes to distinct keys being independent and the
    last write to a key winning.  A nil offer or alias, which the diff's
    setters never store, is ignored. *)
Definition baseSetters : State BaseState :=
  {| State_SetNotDistributedValidatorReward reward :=
       store LocNotDistributedValidatorReward (Some (CellU64 reward));
     State_SetAddressStates address states :=
       store (LocAddressStates address) (Some (CellU64 states));
     State_SetDepositOffer offer :=
       match offer with
       | Some o => store (LocDepositOffer (Offer_ID o)) (Some (CellOffer o))
       | None => fun s => s
       end;
     State_AddDeposit depositTxID deposit :=
       store (LocDeposit depositTxID) (Some (CellDeposit deposit));
     State_RemoveDeposit depositTxID _ := store (LocDeposit depositTxID) None;
     State_ModifyDeposit depositTxID deposit :=
       store (LocDeposit depositTxID) (Some (CellDeposit deposit));
     State_SetMultisigAlias owner :=
       match owner with
       | Some a => store (LocMultisigAlias (Alias_ID a)) (Some (CellAlias a))
       | None => fun s => s
       end;
     State_SetShortIDLink id key link :=
       store (LocShortIDLink id key) (CellShortID <$> link);
     State_SetClaimable ownerID claimable :=
       store (LocClaimable ownerID) (CellClaimable <$> claimable);
     State_DeleteDeferredValidator staker :=
       store (LocDeferredValidator (Staker_SubnetID staker) (Staker_NodeID staker)) None;
     State_PutDeferredValidator staker :=
       store (LocDeferredValidator (Staker_SubnetID staker) (Staker_NodeID staker))
         (Some (CellStaker staker)) |}.

(** Making the calls [cs] on the base state, first call first. *)
Definition replay {S} (baseState : State S) (cs : list Call) (s : S) : S :=
  foldl (fun s c => exec baseState c s) s cs.

(** The entries that the calls of a diff write to. *)
Definition applyLocs (c : caminoDiff) : list Loc :=
  match modifiedNotDistributedValidatorReward c with
  | Some _ => [LocNotDistributedValidatorReward]
  | None => []
  end
  ++ (LocAddressStates <$> (map_to_list (modifiedAddressStates c)).*1)
  ++ (LocDepositOffer <$> (map_to_list (modifiedDepositOffers c)).*1)
  ++ (LocDeposit <$> (map_to_list (modifiedDeposits c)).*1)
  ++ (LocMultisigAlias <$> (map_to_list (modifiedMultisigOwners c)).*1)
  ++ ((fun k => LocShortIDLink k.1 k.2) <$> (map_to_list (modifiedShortLinks c)).*1)
  ++ (LocClaimable <$> (map_to_list (modifiedClaimables c)).*1)
  ++ (map_to_list (validatorDiffs c) ≫= fun x =>
        (fun kv => LocDeferredValidator x.1 kv.1) <$>
          filter (fun kv => validatorModified kv.2 = true) (map_to_list x.2)).

(** ** Scenarios

    Concrete states for the end-to-end scenarios of the specification. *)

(** A value for the parameter [MaxTime]: the largest second a [time.Time]
    can hold, [1<<63 - 62135596801]. *)
Definition scenarioMaxTime : Time := 9223371974719179007.

Definition ownerA : OutputOwners :=
  {| Locktime := 0; Threshold := 1; Addrs := [10%N] |}.

Definition claimableOf (validatorReward : Z) : Claimable :=
  {| Owner := ownerA; ValidatorReward := validatorReward; DepositReward := 0 |}.

Definition depositEnding (endTime : Time) : Deposit :=
  {| DepositOfferID := 1%N;
     UnlockedAmount := 0;
     ClaimedRewardAmount := 0;
     Start := endTime - 100;
     Duration := 100;
     Amount := 500 |}.

(** The identifiers of the scenarios: the claimable owner [O] and the
    deposits [X] and [Y]. *)
Definition idO : ID := 5%N.
Definition idX : ID := 7%N.
Definition idY : ID := 3%N.

(** A parent state that holds the claimable [O] with a validator reward of
    10 and the deposit [X], which ends at [xEnd], and nothing else. *)
Definition scenarioParent (MaxTime xEnd : Time) : Chain :=
  {| Chain_LockedUTXOs _ _ _ := Ok [];
     Chain_GetAddressStates _ := Err ErrNotFound;
     Chain_GetDepositOffer _ := Err ErrNotFound;
     Chain_GetAllDepositOffers := Ok [];
     Chain_GetDeposit depositTxID :=
       if decide (depositTxID = idX) then Ok (depositEnding xEnd) else Err ErrNotFound;
     Chain_GetNextToUnlockDepositTime removedDepositIDs :=
       (if decide (idX ∈ removedDepositIDs \/ MaxTime <= xEnd)
        then (MaxTime, Some ErrNotFound) else (xEnd, None),
        removedDepositIDs);
     Chain_GetNextToUnlockDepositIDsAndTime removedDepositIDs :=
       (if decide (idX ∈ removedDepositIDs \/ MaxTime <= xEnd)
        then ([], MaxTime, Some ErrNotFound) else ([idX], xEnd, None),
        removedDepositIDs);
     Chain_GetNextToUnlockDepositTime_nil :=
       if decide (MaxTime <= xEnd) then (MaxTime, Some ErrNotFound) else (xEnd, None);
     Chain_GetNextToUnlockDepositIDsAndTime_nil :=
       if decide (MaxTime <= xEnd)
       then ([], MaxTime, Some ErrNotFound) else ([idX], xEnd, None);
     Chain_GetMultisigAlias _ := Err ErrNotFound;
     Chain_GetShortIDLink _ _ := Err ErrNotFound;
     Chain_GetClaimable ownerID :=
       if decide (ownerID = idO) then Ok (claimableOf 10) else Err ErrNotFound;
     Chain_GetNotDistributedValidatorReward := Ok 0 |}.

(** The parent is registered under the identifier 1. *)
Definition scenarioVersions (parent : Chain) : ID -> option Chain :=
  fun id => if decide (id = 1%N) then Some parent else None.

Definition scenarioDiff (parent : Chain) : diff :=
  {| parentID := 1%N;
     stateVersions := scenarioVersions parent;
     modifiedUTXOs := ∅;
     caminoDiff_ := newCaminoDiff |}.

(** A base state that holds the claimable [O] with a validator reward of 10. *)
Definition scenarioBase : BaseState :=
  {[ LocClaimable idO := CellClaimable (claimableOf 10) ]}.

(** A diff whose modification sets hold a tombstone for the alias 4, for
    the node link of the address 4, for the claimable [O] and for the
    deposit [X]. *)
Definition tombstoneDiff (parent : Chain) : diff :=
  with_camino (scenarioDiff parent)
    {| modifiedAddressStates := ∅;
       modifiedDepositOffers := ∅;
       modifiedDeposits :=
         {[ idX := {| dd_Deposit := depositEnding 1000; added := false; removed := true |} ]};
       modifiedMultisigOwners := {[ 4%N := None ]};
       modifiedShortLinks := {[ toShortLinkKey 4%N ShortLinkKeyRegisterNode := None ]};
       modifiedClaimables := {[ idO := None ]};
       modifiedNotDistributedValidatorReward := None;
       validatorDiffs := ∅ |}.

(** Two deposit offers, the first with the flag bit 1 set. *)
Definition lockedOffer : Offer :=
  {| Offer_ID := 8%N; Flags := 1; MinDuration := 60; MaxDuration := 600 |}.

Definition openOffer : Offer :=
  {| Offer_ID := 9%N; Flags := 0; MinDuration := 60; MaxDuration := 600 |}.

(** A diff that marks the deposit [X] removed and whose parent,
    registered under 2, is not known to [scenarioVersions]. *)
Definition orphanDiff (parent : Chain) : diff :=
  {| parentID := 2%N;
     stateVersions := scenarioVersions parent;
     modifiedUTXOs := ∅;
     caminoDiff_ := caminoDiff_ (RemoveDeposit idX (depositEnding 1000) (scenarioDiff parent)) |}.

(** ** What the next-to-unlock query is to return

    [live id t] says that the deposit [id], which ends at [t], is one the
    query has to consider. *)

(** The answer of the source: deposits that end before [MaxTime] are
    considered; when there is none, the answer is [MaxTime] and NotFound. *)
Definition nextToUnlock (MaxTime : Time) (live : ID -> Time -> Prop)
    (r : list ID * Time * option error) : Prop :=
  (~ (exists id t, live id t /\ t < MaxTime)
   /\ r = ([], MaxTime, Some ErrNotFound))
  \/ (exists ids t,
        r = (ids, t, None)
        /\ t < MaxTime
        /\ (exists id, live id t)
        /\ (forall id t', live id t' -> t <= t')
        /\ Sorted N.le ids
        /\ forall id, id ∈ ids <-> live id t).

(** The answer in the words of the specification: the identifiers with the
    minimum end time, sorted ascending, and that time; NotFound exactly when
    there is no deposit to consider. *)
Definition nextToUnlock_spec (live : ID -> Time -> Prop)
    (r : list ID * Time * option error) : Prop :=
  (~ (exists id t, live id t) /\ r.2 = Some ErrNotFound)
  \/ (exists ids t,
        r = (ids, t, None)
        /\ (exists id, live id t)
        /\ (forall id t', live id t' -> t <= t')
        /\ Sorted N.le ids
        /\ forall id, id ∈ ids <-> live id t).

(** A state [P] answers for the deposits [deposits]: asked with the set
    [S], it considers the deposits outside [S], and it leaves [S] to the
    caller with the identifiers [adds] added. *)
Definition answersFor (MaxTime : Time) (P : Chain)
    (deposits : ID -> Time -> Prop) (adds : gset ID) : Prop :=
  forall S : gset ID,
    (Chain_GetNextToUnlockDepositIDsAndTime P S).2 = S ∪ adds
    /\ nextToUnlock MaxTime (fun id t => deposits id t /\ id ∉ S)
         (Chain_GetNextToUnlockDepositIDsAndTime P S).1.

Definition markedRemoved (d : diff) (id : ID) : Prop :=
  exists dd, modifiedDeposits (caminoDiff_ d) !! id = Some dd /\ removed dd = true.

(** The effective deposit set of a diff: the deposits of the parent that
    the diff does not mark removed, and the deposits that the diff adds. *)
Definition effective (d : diff) (parentDeposits : ID -> Time -> Prop)
    : ID -> Time -> Prop :=
  fun id t =>
    (parentDeposits id t /\ ~ markedRemoved d id)
    \/ (exists dd,
          modifiedDeposits (caminoDiff_ d) !! id = Some dd
          /\ added dd = true /\ removed dd = false
          /\ EndTime (dd_Deposit dd) = t).

(** The identifiers that a diff marks removed. *)
Definition removedIDs (d : diff) : gset ID :=
  dom (filter (fun kv => removed kv.2 = true) (modifiedDeposits (caminoDiff_ d))).

(** An added deposit that the loops of the query may pick, given the
    contents of the set after the parent's call. *)
Definition candidate (removedDepositIDs : gset ID) (kv : ID * depositDiff) : Prop :=
  added kv.2 = true /\ (kv.1 ∉ removedDepositIDs).

(** The deposits of [scenarioParent]: [X] alone. *)
Definition scenarioDeposits (xEnd : Time) : ID -> Time -> Prop :=
  fun id t => id = idX /\ t = xEnd.

(** ** What [LockedUTXOs] returns *)

(** What becomes of a UTXO of the parent's answer: it is dropped when the
    diff holds a nil entry for it, replaced by the diff's UTXO when the diff
    holds one, and kept otherwise. *)
Definition updateExisting (modified : gmap ID utxoModification) (u : UTXO) : list UTXO :=
  match modified !! InputID u with
  | Some m =>
      match utxo m with
      | None => []
      | Some u' => [u']
      end
  | None => [u]
  end.

(** The UTXO that the diff holds under [utxoID], when it is locked in
    [lockState] by one of [txIDs]. *)
Definition introduced (Match : LockIDs -> LockState -> gset ID -> bool)
    (modified : gmap ID utxoModification) (txIDs : gset ID) (lockState : LockState)
    (utxoID : ID) : option UTXO :=
  match modified !! utxoID with
  | Some m =>
      match utxo m with
      | Some u =>
          match UTXO_Out u with
          | LockedOut ids _ _ => if Match ids lockState txIDs then Some u else None
          | _ => None
          end
      | None => None
      end
  | None => None
  end.

(** The answer in the words of the specification: the parent's answer
    without the UTXOs whose identifier appears in [modifiedUTXOs], then the
    UTXOs of the diff that match. *)
Definition LockedUTXOs_spec (Match : LockIDs -> LockState -> gset ID -> bool)
    (modified : gmap ID utxoModification) (txIDs : gset ID) (lockState : LockState)
    (parentUTXOs : list UTXO) : list UTXO :=
  filter (fun u => modified !! InputID u = None) parentUTXOs
  ++ omap (introduced Match modified txIDs lockState) (elements (dom modified)).

(** A [Match] for the scenarios: the identifier that locks the output in
    the asked state is among [txIDs]. *)
Definition scenarioMatch (ids : LockIDs) (lockState : LockState) (txIDs : gset ID) : bool :=
  match lockState with
  | StateDeposited => bool_decide (DepositTxID ids ∈ txIDs)
  | StateBonded => bool_decide (BondTxID ids ∈ txIDs)
  | _ => false
  end.

(** The UTXO [n], bonded by the transaction [bondTx]. *)
Definition bondedUTXO (n : ID) (bondTx : ID) : UTXO :=
  {| UTXO_UTXOID := (n, 0%N);
     InputID := n;
     UTXO_Asset := 1%N;
     UTXO_Out := LockedOut {| DepositTxID := 0%N; BondTxID := bondTx |} 100 ownerA |}.

(** The UTXO [n] with a plain transfer output. *)
Definition plainUTXO (n : ID) : UTXO :=
  {| UTXO_UTXOID := (n, 0%N);
     InputID := n;
     UTXO_Asset := 1%N;
     UTXO_Out := TransferOut 100 ownerA |}.

Definition withLockedUTXOs (P : Chain) (utxos : list UTXO) : Chain :=
  {| Chain_LockedUTXOs _ _ _ := Ok utxos;
     Chain_GetAddressStates := Chain_GetAddressStates P;
     Chain_GetDepositOffer := Chain_GetDepositOffer P;
     Chain_GetAllDepositOffers := Chain_GetAllDepositOffers P;
     Chain_GetDeposit := Chain_GetDeposit P;
     Chain_GetNextToUnlockDepositTime := Chain_GetNextToUnlockDepositTime P;
     Chain_GetNextToUnlockDepositIDsAndTime := Chain_GetNextToUnlockDepositIDsAndTime P;
     Chain_GetNextToUnlockDepositTime_nil := Chain_GetNextToUnlockDepositTime_nil P;
     Chain_GetNextToUnlockDepositIDsAndTime_nil :=
       Chain_GetNextToUnlockDepositIDsAndTime_nil P;
     Chain_GetMultisigAlias := Chain_GetMultisigAlias P;
     Chain_GetShortIDLink := Chain_GetShortIDLink P;
     Chain_GetClaimable := Chain_GetClaimable P;
     Chain_GetNotDistributedValidatorReward := Chain_GetNotDistributedValidatorReward P |}.

(** A diff over a parent that answers with [parentUTXOs], holding the UTXO
    modifications [mods], each filed under its own identifier. *)
Definition utxoDiff (parentUTXOs : list UTXO) (mods : list utxoModification) : diff :=
  {| parentID := 1%N;
     stateVersions :=
       scenarioVersions (withLockedUTXOs (scenarioParent scenarioMaxTime 1000) parentUTXOs);
     modifiedUTXOs := list_to_map ((fun m => (utxoID m, m)) <$> mods);
     caminoDiff_ := newCaminoDiff |}.

(** ** The credentials of a claim transaction *)

(** The number of credentials in the words of the specification: one per
    input, then one per listed deposit and one per listed claimable owner. *)
Definition claimedCredentials (ins : list TransferableInput)
    (depositTxIDs claimableOwnerIDs : list ID) : nat :=
  (length ins + (length depositTxIDs + length claimableOwnerIDs))%nat.

(** The keys that [Match] picks from the keychain of [keys] to sign for
    [owner] at the time of the builder's clock, and whether they are enough
    to sign for it. *)
Definition matchedKeys (b : caminoBuilder) (keys : list PrivateKey) (owner : OutputOwners)
    : list PrivateKey :=
  (b_Match b (NewKeychain keys) owner (b_clkUnix b)).1.2.

Definition ableToSign (b : caminoBuilder) (keys : list PrivateKey) (owner : OutputOwners)
    : bool :=
  (b_Match b (NewKeychain keys) owner (b_clkUnix b)).2.

(** The keys of the trailing credential in the words of the amended claim:
    the keys matched for each of [owners], in the order of [owners],
    collected in one keychain that starts empty. *)
Definition collectedKeys (b : caminoBuilder) (keys : list PrivateKey)
    (owners : list OutputOwners) : list PrivateKey :=
  Keys (foldl Keychain_Add (NewKeychain []) (owners ≫= matchedKeys b keys)).

(** A [Match] for the scenarios: the keys of the chain whose addresses are
    among the owner's, and whether they reach the threshold at [time]. *)
Definition scenarioKeyMatch (kc : Keychain) (owners : OutputOwners) (time : Z)
    : list Z * list PrivateKey * bool :=
  let keys := filter (fun key => Key_Address key ∈ Addrs owners) (Keys kc) in
  ([], keys,
   bool_decide (Threshold owners <= Z.of_nat (length keys) /\ Locktime owners <= time)).

Definition keyA : PrivateKey := {| Key_Address := 10%N; Key_Secret := 1%N |}.

Definition feeInput : TransferableInput :=
  {| In_UTXOID := (30%N, 0%N); In_Asset := 1%N; In_In := TransferableIn 1000 [0] |}.

(** A committed deposit transaction whose rewards go to [ownerA]. *)
Definition depositTxOfA : Tx :=
  {| Unsigned :=
       DepositTx {| NetworkID := 1; BlockchainID := 0%N; Ins := []; Outs := [] |}
         (SECPOwner ownerA);
     Creds := [] |}.

(** A builder in lock mode: the spender pays the fee from one input signed
    by [keyA]; every deposit transaction is [depositTxOfA]; the claimable
    [O] belongs to [ownerA]; shared memory holds [sharedUTXOs], which the
    codec decodes by [decode]; the clock shows [now]. *)
Definition scenarioBuilder (sharedUTXOs : list (list byte))
    (decode : list byte -> option TimedUTXO) (now : Z) : caminoBuilder :=
  {| b_CaminoConfig := Ok {| VerifyNodeSignature := true; LockModeBondDeposit := true |};
     b_TxFee := 10;
     b_NetworkID := 1;
     b_ChainID := 0%N;
     b_Lock keys _ _ _ _ _ _ := Ok ([feeInput], [], [keys]);
     b_GetTx _ := Ok (depositTxOfA, Committed);
     b_GetClaimable ownerID :=
       if decide (ownerID = idO) then Ok (claimableOf 10) else Err ErrNotFound;
     b_clkUnix := now;
     b_Match := scenarioKeyMatch;
     b_signError _ _ := None;
     b_SyntacticVerify _ := None;
     b_Indexed := Ok sharedUTXOs;
     b_Unmarshal := decode;
     b_SharedMemorySyncBound := 10;
     b_treasurySpend out _ :=
       match out with
       | TransferOut amount _ => Ok (TransferableIn amount [0])
       | LockedOut _ _ _ => Err errKeyMissing
       end |}.

(** ** The UTXOs that a rewards import takes *)

(** The UTXO that [utxoBytes] stands for, when the bytes decode as a timed
    UTXO whose timestamp is at most [now - SharedMemorySyncBound]. *)
Definition importable (b : caminoBuilder) (now : Z) (utxoBytes : list byte) : option UTXO :=
  match b_Unmarshal b utxoBytes with
  | Some timed =>
      if Timestamp timed <=? sub64 now (b_SharedMemorySyncBound b)
      then Some (Timed_UTXO timed) else None
  | None => None
  end.

(** The input that consumes a UTXO. *)
Definition consumes (b : caminoBuilder) (now : Z) (u : UTXO) (i : TransferableInput) : Prop :=
  In_UTXOID i = UTXO_UTXOID u
  /\ In_Asset i = UTXO_Asset u
  /\ b_treasurySpend b (UTXO_Out u) now = Ok (In_In i).

(** A codec for the scenarios: three bytes, the second being [x01],
    decode as the plain UTXO numbered by the first byte, with the third
    byte as its timestamp. *)
Definition scenarioDecode (utxoBytes : list byte) : option TimedUTXO :=
  match utxoBytes with
  | [n; x01; t] =>
      Some {| Timed_UTXO := plainUTXO (Byte.to_N n); Timestamp := Z.of_N (Byte.to_N t) |}
  | _ => None
  end.

(** ** A diff as the parent of another diff

    The methods of the diff [d], as the [state.Chain] that a diff above it
    resolves. *)
Definition diffChain (MaxTime : Time) (Match : LockIDs -> LockState -> gset ID -> bool)
    (rangeOrder : gset ID -> list ID) (d : diff) : Chain :=
  {| Chain_LockedUTXOs txIDs addresses lockState :=
       answer d (LockedUTXOs Match rangeOrder d txIDs addresses lockState);
     Chain_GetAddressStates address := answer d (GetAddressStates d address);
     Chain_GetDepositOffer offerID := answer d (GetDepositOffer d offerID);
     Chain_GetAllDepositOffers := answer d (GetAllDepositOffers d);
     Chain_GetDeposit depositTxID := answer d (GetDeposit d depositTxID);
     Chain_GetNextToUnlockDepositTime removedDepositIDs :=
       answer d (GetNextToUnlockDepositTime MaxTime d removedDepositIDs);
     Chain_GetNextToUnlockDepositIDsAndTime removedDepositIDs :=
       answer d (GetNextToUnlockDepositIDsAndTime MaxTime d removedDepositIDs);
     Chain_GetNextToUnlockDepositTime_nil :=
       answer d (GetNextToUnlockDepositTime_nil_in (someDepositRanges d) MaxTime d);
     Chain_GetNextToUnlockDepositIDsAndTime_nil :=
       answer d (GetNextToUnlockDepositIDsAndTime_nil_in (someDepositRanges d) MaxTime d);
     Chain_GetMultisigAlias alias := answer d (GetMultisigAlias d alias);
     Chain_GetShortIDLink id key := answer d (GetShortIDLink d id key);
     Chain_GetClaimable ownerID := answer d (GetClaimable d ownerID);
     Chain_GetNotDistributedValidatorReward :=
       answer d (GetNotDistributedValidatorReward d) |}.

(** The diff that removes the deposit [X] of the scenario parent, as a
    parent. *)
Definition removingParent : Chain :=
  diffChain scenarioMaxTime scenarioMatch elements
    (performAll (scenarioDiff (scenarioParent scenarioMaxTime 1000))
       [OpRemoveDeposit idX (depositEnding 1000)]).

(** ** What [ApplyCaminoState] hands over for a key *)

(** The call by which [ApplyCaminoState] hands on to the base state what a
    setter call wrote. *)
Definition callOf (op : Op) : Call :=
  match op with
  | OpSetAddressStates address states => CallSetAddressStates address states
  | OpSetDepositOffer offer => CallSetDepositOffer (Some offer)
  | OpAddDeposit depositTxID deposit => CallAddDeposit depositTxID deposit
  | OpModifyDeposit depositTxID deposit => CallModifyDeposit depositTxID deposit
  | OpRemoveDeposit depositTxID deposit => CallRemoveDeposit depositTxID deposit
  | OpSetMultisigAlias owner => CallSetMultisigAlias (Some owner)
  | OpSetShortIDLink id key link => CallSetShortIDLink id key link
  | OpSetClaimable ownerID claimable => CallSetClaimable ownerID claimable
  | OpSetNotDistributedValidatorReward reward => CallSetNotDistributedValidatorReward reward
  end.

(** The call that [ApplyCaminoState] makes for the entry that the diff holds
    for the key [k]; [None] when the diff holds no entry for [k]. *)
Definition entryCall (c : caminoDiff) (k : Key) : option Call :=
  match k with
  | KAddressStates address =>
      CallSetAddressStates address <$> modifiedAddressStates c !! address
  | KDepositOffer offerID => CallSetDepositOffer <$> modifiedDepositOffers c !! offerID
  | KDeposit depositTxID =>
      (fun dd => depositCall (depositTxID, dd)) <$> modifiedDeposits c !! depositTxID
  | KMultisigAlias alias => CallSetMultisigAlias <$> modifiedMultisigOwners c !! alias
  | KShortIDLink id key =>
      CallSetShortIDLink id key <$> modifiedShortLinks c !! toShortLinkKey id key
  | KClaimable ownerID => CallSetClaimable ownerID <$> modifiedClaimables c !! ownerID
  | KNotDistributedValidatorReward =>
      CallSetNotDistributedValidatorReward <$> modifiedNotDistributedValidatorReward c
  end.

(** The error of a getter's answer. *)
Definition answerError (a : Answer) : option error :=
  match a with
  | AnsAddressStates (Err e)
  | AnsDepositOffer (Err e)
  | AnsDeposit (Err e)
  | AnsMultisigAlias (Err e)
  | AnsShortIDLink (Err e)
  | AnsClaimable (Err e)
  | AnsNotDistributedValidatorReward (Err e) => Some e
  | _ => None
  end.

(** The orders of [someOrders], each taken backwards. *)
Definition reversedOrders (c : caminoDiff) : RangeOrders :=
  {| orderAddressStates := reverse (map_to_list (modifiedAddressStates c));
     orderDepositOffers := reverse (map_to_list (modifiedDepositOffers c));
     orderDeposits := reverse (map_to_list (modifiedDeposits c));
     orderMultisigOwners := reverse (map_to_list (modifiedMultisigOwners c));
     orderShortLinks := reverse (map_to_list (modifiedShortLinks c));
     orderClaimables := reverse (map_to_list (modifiedClaimables c));
     orderValidatorDiffs :=
       (fun x => (x.1, reverse (map_to_list x.2))) <$> reverse (map_to_list (validatorDiffs c)) |}.

(** The orders of [someDepositRanges], each taken backwards. *)
Definition reversedDepositRanges (d : diff) : DepositRanges :=
  {| rangeRemoved := reverse (map_to_list (modifiedDeposits (caminoDiff_ d)));
     rangeEarliest := reverse (map_to_list (modifiedDeposits (caminoDiff_ d)));
     rangeAdded := reverse (map_to_list (modifiedDeposits (caminoDiff_ d))) |}.

(** ** The time of the next unlock, with and without the identifiers *)

(** What [GetNextToUnlockDepositIDsAndTime] returns, without the
    identifiers. *)
Definition withoutIDs (r : (list ID * Time * option error) * gset ID)
    : (Time * option error) * gset ID :=
  ((r.1.1.2, r.1.2), r.2).

(** A state whose two next-to-unlock methods agree on the time, the error
    and what they leave in the caller's set. *)
Definition nextToUnlockAgree (P : Chain) : Prop :=
  forall removedDepositIDs : gset ID,
    Chain_GetNextToUnlockDepositTime P removedDepositIDs
    = withoutIDs (Chain_GetNextToUnlockDepositIDsAndTime P removedDepositIDs).

(** ** Listing and resolving deposit offers *)

(** A state that lists exactly the offers that it resolves by their
    identifiers. *)
Definition offersAgree (P : Chain) : Prop :=
  exists offers,
    Chain_GetAllDepositOffers P = Ok offers
    /\ forall offer,
         offer ∈ offers <-> Chain_GetDepositOffer P (Offer_ID offer) = Ok (Some offer).

(** ** The entries of [modifiedUTXOs] *)

(** The entries of [modifiedUTXOs] as [AddUTXO] and [DeleteUTXO] of the
    diff leave them: an entry is filed under the identifier stored in it,
    which is the input identifier of the UTXO it holds. *)
Definition utxos_wf (modified : gmap ID utxoModification) : Prop :=
  forall k m,
    modified !! k = Some m ->
    utxoID m = k /\ forall u, utxo m = Some u -> InputID u = k.

(** ** The keys that sign for addresses *)

(** Modelled from the spec: [Keychain.Get] of [secp256k1fx.Keychain], whose
    source is not covered here; in an ordered map from addresses to keys
    it looks up the key of an address. *)
Definition Keychain_Get (kc : Keychain) (id : ShortID) : option PrivateKey :=
  head (filter (fun key => Key_Address key = id) (Keys kc)).

(** [addrString] is [ids.ShortID.String].  The keys of a
    [secp256k1fx.Keychain] are all of the type that the source asserts, so
    the return of [errWrongNodeKeyType] is never taken. *)
Fixpoint getSigners (addrString : ShortID -> string) (keys : list PrivateKey)
    (addresses : list ShortID) : result (list PrivateKey) :=
  match addresses with
  | [] => Ok []
  | addr :: rest =>
      match Keychain_Get (NewKeychain keys) addr with
      | None => Err (ErrWrap (addrString addr) errKeyMissing)
      | Some key =>
          match getSigners addrString keys rest with
          | Err err => Err err
          | Ok signers => Ok (key :: signers)
          end
      end
  end.

Definition getSigner (addrString : ShortID -> string) (keys : list PrivateKey)
    (address : ShortID) : result (list PrivateKey) :=
  getSigners addrString keys [address].

(** ** The transaction that registers a node *)

Record RegisterNodeTx := {
  RegisterNodeTx_BaseTx : BaseTx;
  OldNodeID : NodeID;
  NewNodeID : NodeID;
  ConsortiumMemberAuth : list Z;
  ConsortiumMemberAddress : ShortID
}.

Record SignedRegisterNodeTx := {
  RegisterNode_Unsigned : RegisterNodeTx;
  RegisterNode_Creds : list Credential
}.

(** What [NewRegisterNodeTx] reaches beyond the fields of [caminoBuilder]:
    [r_EmptyNodeID] is [ids.EmptyNodeID]; [r_SpendMultiSig] is
    [Keychain.SpendMultiSig] on a transfer output of the given owners, which
    returns the signature indices of the input it makes and the keys that
    sign; [r_signError] and [r_SyntacticVerify] are as [b_signError] and
    [b_SyntacticVerify]. *)
Record registerNodeEnv := {
  r_builder : caminoBuilder;
  r_EmptyNodeID : NodeID;
  r_addrString : ShortID -> string;
  r_SpendMultiSig : Keychain -> OutputOwners -> Z -> result (list Z * list PrivateKey);
  r_signError : RegisterNodeTx -> list (list PrivateKey) -> option error;
  r_SyntacticVerify : SignedRegisterNodeTx -> option error
}.

(** [nodeSigners] of [NewRegisterNodeTx]. *)
Definition nodeSignersOf (EmptyNodeID : NodeID) (addrString : ShortID -> string)
    (keys : list PrivateKey) (newNodeID : NodeID) : result (list PrivateKey) :=
  if decide (newNodeID <> EmptyNodeID)
  then getSigner addrString keys newNodeID
  else Ok [].

(** [txs.NewSigned] is modelled as in [NewSigned]. *)
Definition NewRegisterNodeTx (e : registerNodeEnv)
    (oldNodeID newNodeID : NodeID) (consortiumMemberAddress : ShortID)
    (keys : list PrivateKey) (change : option OutputOwners)
    : option SignedRegisterNodeTx * option error :=
  let b := r_builder e in
  match b_Lock b keys 0 (b_TxFee b) StateUnlocked None change 0 with
  | Err err => (None, Some (ErrWrap "couldn't generate tx inputs/outputs" err))
  | Ok (ins, outs, signers) =>
      match nodeSignersOf (r_EmptyNodeID e) (r_addrString e) keys newNodeID with
      | Err err => (None, Some err)
      | Ok nodeSigners =>
          let signers := signers ++ [nodeSigners] in
          let kc := NewKeychain keys in
          match r_SpendMultiSig e kc
                  {| Locktime := 0; Threshold := 1; Addrs := [consortiumMemberAddress] |}
                  0 with
          | Err err => (None, Some err)
          | Ok (sigIndices, consortiumSigners) =>
              let signers := signers ++ [consortiumSigners] in
              let utx :=
                {| RegisterNodeTx_BaseTx :=
                     {| NetworkID := b_NetworkID b;
                        BlockchainID := b_ChainID b;
                        Ins := ins;
                        Outs := outs |};
                   OldNodeID := oldNodeID;
                   NewNodeID := newNodeID;
                   ConsortiumMemberAuth := sigIndices;
                   ConsortiumMemberAddress := consortiumMemberAddress |} in
              match r_signError e utx signers with
              | Some err => (None, Some err)
              | None =>
                  let tx :=
                    {| RegisterNode_Unsigned := utx;
                       RegisterNode_Creds :=
                         (fun keys => {| Cred_Signers := keys |}) <$> signers |} in
                  (Some tx, r_SyntacticVerify e tx)
              end
          end
      end
  end.

(** A builder environment for the scenarios: the empty node identifier is
    the one whose bytes are all zero, and the consortium member signs with
    the keys of the chain that belong to the owners. *)
Definition scenarioRegisterNodeEnv : registerNodeEnv :=
  {| r_builder := scenarioBuilder [] scenarioDecode 100;
     r_EmptyNodeID := 0%N;
     r_addrString _ := "";
     r_SpendMultiSig kc owners _ :=
       Ok ([0], filter (fun key => Key_Address key ∈ Addrs owners) (Keys kc));
     r_signError _ _ := None;
     r_SyntacticVerify _ := None |}.

Definition keyNode : PrivateKey := {| Key_Address := 12%N; Key_Secret := 2%N |}.

(** A builder whose treasury keychain spends an output that is no
    transfer output into an input that is no transferable input. *)
Definition oddTreasuryBuilder (sharedUTXOs : list (list byte)) : caminoBuilder :=
  {| b_CaminoConfig := b_CaminoConfig (scenarioBuilder sharedUTXOs scenarioDecode 100);
     b_TxFee := 10;
     b_NetworkID := 1;
     b_ChainID := 0%N;
     b_Lock := b_Lock (scenarioBuilder sharedUTXOs scenarioDecode 100);
     b_GetTx := b_GetTx (scenarioBuilder sharedUTXOs scenarioDecode 100);
     b_GetClaimable := b_GetClaimable (scenarioBuilder sharedUTXOs scenarioDecode 100);
     b_clkUnix := 100;
     b_Match := scenarioKeyMatch;
     b_signError _ _ := None;
     b_SyntacticVerify _ := None;
     b_Indexed := Ok sharedUTXOs;
     b_Unmarshal := scenarioDecode;
     b_SharedMemorySyncBound := 10;
     b_treasurySpend _ _ := Ok OtherIn |}.

(** ** [CaminoService.GetBalance] *)

(** The output of a UTXO as [GetBalance] tells outputs apart: a
    [*secp256k1fx.TransferOutput], a [*locked.Out], or an output of another
    type. *)
Inductive BalanceOut : Type :=
  | SECPTransferOutput (amount : Z)
  | LockedOutput (ids : LockIDs) (amount : Z)
  | UnexpectedOutput.

Record BalanceUTXO := {
  Balance_UTXOID : ID * N;
  Balance_AssetID : ID;
  Balance_Out : BalanceOut
}.

Record GetBalanceResponseV2 := {
  Balances : gmap ID Z;
  UnlockedOutputs : gmap ID Z;
  BondedOutputs : gmap ID Z;
  DepositedOutputs : gmap ID Z;
  DepositedBondedOutputs : gmap ID Z;
  UTXOIDs : list (ID * N)
}.

(** [m[assetID]], which is zero for an asset that the map does not hold. *)
Definition amountOf (m : gmap ID Z) (assetID : ID) : Z := default 0 (m !! assetID).

Section GetBalance.
(** [SafeAdd] is [utilsjson.SafeAdd]; [LockStateOf] is [locked.Out.LockState],
    as a function of the lock identifiers of the output. *)
Context (SafeAdd : Z -> Z -> Z) (LockStateOf : LockIDs -> LockState).

(** [m[assetID] = utilsjson.SafeAdd(m[assetID], amount)]. *)
Definition addAmount (m : gmap ID Z) (assetID : ID) (amount : Z) : gmap ID Z :=
  <[assetID := SafeAdd (amountOf m assetID) amount]> m.

(** One iteration of [for _, utxo := range utxos]. *)
Definition countUTXO (r : GetBalanceResponseV2) (utxo : BalanceUTXO) : GetBalanceResponseV2 :=
  let assetID := Balance_AssetID utxo in
  match Balance_Out utxo with
  | SECPTransferOutput amount =>
      {| Balances := addAmount (Balances r) assetID amount;
         UnlockedOutputs := addAmount (UnlockedOutputs r) assetID amount;
         BondedOutputs := BondedOutputs r;
         DepositedOutputs := DepositedOutputs r;
         DepositedBondedOutputs := DepositedBondedOutputs r;
         UTXOIDs := UTXOIDs r ++ [Balance_UTXOID utxo] |}
  | LockedOutput ids amount =>
      match LockStateOf ids with
      | StateBonded =>
          {| Balances := addAmount (Balances r) assetID amount;
             UnlockedOutputs := UnlockedOutputs r;
             BondedOutputs := addAmount (BondedOutputs r) assetID amount;
             DepositedOutputs := DepositedOutputs r;
             DepositedBondedOutputs := DepositedBondedOutputs r;
             UTXOIDs := UTXOIDs r ++ [Balance_UTXOID utxo] |}
      | StateDeposited =>
          {| Balances := addAmount (Balances r) assetID amount;
             UnlockedOutputs := UnlockedOutputs r;
             BondedOutputs := BondedOutputs r;
             DepositedOutputs := addAmount (DepositedOutputs r) assetID amount;
             DepositedBondedOutputs := DepositedBondedOutputs r;
             UTXOIDs := UTXOIDs r ++ [Balance_UTXOID utxo] |}
      | StateDepositedBonded =>
          {| Balances := addAmount (Balances r) assetID amount;
             UnlockedOutputs := UnlockedOutputs r;
             BondedOutputs := BondedOutputs r;
             DepositedOutputs := DepositedOutputs r;
             DepositedBondedOutputs := addAmount (DepositedBondedOutputs r) assetID amount;
             UTXOIDs := UTXOIDs r ++ [Balance_UTXOID utxo] |}
      | StateUnlocked => r
      end
  | UnexpectedOutput => r
  end.

(** [avaxGetBalance] is what [s.Service.GetBalance] returns, which answers
    when the lock mode is off; [ParseServiceAddresses] and [GetAllUTXOs]
    are the functions of the avax package.  The answer is the response of
    the embedded service or the response of this one. *)
Definition CaminoService_GetBalance {A : Type}
    (caminoConfig : result CaminoConfig) (avaxGetBalance : result A)
    (ParseServiceAddresses : list string -> result (gset ShortID))
    (GetAllUTXOs : gset ShortID -> result (list BalanceUTXO))
    (Address : option string) (Addresses : list string)
    : result (A + GetBalanceResponseV2) :=
  match caminoConfig with
  | Err err => Err err
  | Ok caminoConfig =>
      if negb (LockModeBondDeposit caminoConfig)
      then match avaxGetBalance with
           | Err err => Err err
           | Ok response => Ok (inl response)
           end
      else
        let Addresses :=
          match Address with
          | Some address => Addresses ++ [address]
          | None => Addresses
          end in
        match ParseServiceAddresses Addresses with
        | Err err => Err err
        | Ok addrs =>
            match GetAllUTXOs addrs with
            | Err err => Err (ErrWrap "couldn't get UTXO set" err)
            | Ok utxos =>
                Ok (inr (foldl countUTXO
                           {| Balances := ∅;
                              UnlockedOutputs := ∅;
                              BondedOutputs := ∅;
                              DepositedOutputs := ∅;
                              DepositedBondedOutputs := ∅;
                              UTXOIDs := [] |}
                           utxos))
            end
        end
  end.
End GetBalance.

Global Instance LockState_eq_dec : EqDecision LockState.
Proof. solve_decision. Defined.

(** The largest [uint64], at which [utilsjson.SafeAdd] stops. *)
Definition MaxUint64 : Z := 2 ^ 64 - 1.

Definition saturated (x : Z) : Z := Z.min x MaxUint64.

(** Addition that stops at the largest [uint64]. *)
Definition saturatingAdd (x y : Z) : Z := saturated (x + y).

Section Counted.
Context (LockStateOf : LockIDs -> LockState).

(** The lock state in which [GetBalance] counts an output, and the amount
    it counts. *)
Definition countedAs (out : BalanceOut) : option (LockState * Z) :=
  match out with
  | SECPTransferOutput amount => Some (StateUnlocked, amount)
  | LockedOutput ids amount =>
      match LockStateOf ids with
      | StateUnlocked => None
      | lockState => Some (lockState, amount)
      end
  | UnexpectedOutput => None
  end.

(** The sum of the amounts of the UTXOs of an asset that are counted in a
    lock state. *)
Definition sumCounted (lockState : LockState) (assetID : ID) (utxos : list BalanceUTXO) : Z :=
  foldr (fun utxo sum =>
           match countedAs (Balance_Out utxo) with
           | Some (st, amount) =>
               if decide (st = lockState /\ Balance_AssetID utxo = assetID)
               then amount + sum else sum
           | None => sum
           end)
        0 utxos.


(** The map in which [GetBalance] sums the outputs counted in a lock
    state; [None] stands for the map of the balances, which sums them
    all. *)
Definition balanceField (lockState : option LockState) (r : GetBalanceResponseV2)
    : gmap ID Z :=
  match lockState with
  | None => Balances r
  | Some StateUnlocked => UnlockedOutputs r
  | Some StateBonded => BondedOutputs r
  | Some StateDeposited => DepositedOutputs r
  | Some StateDepositedBonded => DepositedBondedOutputs r
  end.

(** The amount that a UTXO adds to the sum of its asset in that map. *)
Definition countsIn (lockState : option LockState) (utxo : BalanceUTXO) : option Z :=
  match countedAs (Balance_Out utxo) with
  | Some (st, amount) =>
      match lockState with
      | None => Some amount
      | Some lockState => if decide (st = lockState) then Some amount else None
      end
  | None => None
  end.

Definition sumIn (lockState : option LockState) (assetID : ID) (utxos : list BalanceUTXO) : Z :=
  foldr (fun utxo sum =>
           match countsIn lockState utxo with
           | Some amount => if decide (Balance_AssetID utxo = assetID) then amount + sum else sum
           | None => sum
           end)
        0 utxos.

(** UTXOs whose amounts are [uint64] values. *)
Definition amountsInRange (utxos : list BalanceUTXO) : Prop :=
  Forall (fun utxo =>
            forall st amount,
              countedAs (Balance_Out utxo) = Some (st, amount) -> 0 <= amount <= MaxUint64)
         utxos.
End Counted.

(** Modelled from the spec: [locked.Out.LockState] belongs to the locked
    package, whose source is not covered here; the spec decodes the state
    from the lock identifiers: both empty, unlocked; deposit only,
    deposited; bond only, bonded; both, deposited and bonded.  Here the
    empty identifier is the one whose bytes are all zero. *)
Definition LockState_of (ids : LockIDs) : LockState :=
  match bool_decide (DepositTxID ids = 0%N), bool_decide (BondTxID ids = 0%N) with
  | true, true => StateUnlocked
  | false, true => StateDeposited
  | true, false => StateBonded
  | false, false => StateDepositedBonded
  end.

(** The UTXOs of an address for the scenarios: 100 unlocked, 40 bonded, 30
    deposited, 20 deposited and bonded, a locked output without lock
    identifiers and an output of another type, all of the asset 1, and 7
    unlocked of the asset 2. *)
Definition scenarioBalanceUTXOs : list BalanceUTXO :=
  [ {| Balance_UTXOID := (1%N, 0%N); Balance_AssetID := 1%N;
       Balance_Out := SECPTransferOutput 100 |};
    {| Balance_UTXOID := (2%N, 0%N); Balance_AssetID := 1%N;
       Balance_Out := LockedOutput {| DepositTxID := 0%N; BondTxID := 20%N |} 40 |};
    {| Balance_UTXOID := (3%N, 0%N); Balance_AssetID := 1%N;
       Balance_Out := LockedOutput {| DepositTxID := 21%N; BondTxID := 0%N |} 30 |};
    {| Balance_UTXOID := (4%N, 0%N); Balance_AssetID := 1%N;
       Balance_Out := LockedOutput {| DepositTxID := 21%N; BondTxID := 20%N |} 20 |};
    {| Balance_UTXOID := (5%N, 0%N); Balance_AssetID := 1%N;
       Balance_Out := LockedOutput {| DepositTxID := 0%N; BondTxID := 0%N |} 9 |};
    {| Balance_UTXOID := (6%N, 0%N); Balance_AssetID := 1%N;
       Balance_Out := UnexpectedOutput |};
    {| Balance_UTXOID := (7%N, 0%N); Balance_AssetID := 2%N;
       Balance_Out := SECPTransferOutput 7 |} ].

(** ** [CaminoService.GetDeposits] *)

Record APIDeposit := {
  API_DepositTxID : ID;
  API_DepositOfferID : ID;
  API_UnlockedAmount : Z;
  API_ClaimedRewardAmount : Z;
  API_Start : Z;
  API_Duration : Z;
  API_Amount : Z
}.

Definition APIDepositFromDeposit (depositTxID : ID) (deposit : Deposit) : APIDeposit :=
  {| API_DepositTxID := depositTxID;
     API_DepositOfferID := DepositOfferID deposit;
     API_UnlockedAmount := UnlockedAmount deposit;
     API_ClaimedRewardAmount := ClaimedRewardAmount deposit;
     API_Start := Start deposit;
     API_Duration := Duration deposit;
     API_Amount := Amount deposit |}.

(** The reply, which the caller hands over and [GetDeposits] fills: an
    entry of [Reply_Deposits] is a pointer, nil until it is set. *)
Record GetDepositsReply := {
  Reply_Deposits : list (option APIDeposit);
  Reply_AvailableRewards : list Z;
  Reply_Timestamp : Z
}.

Section GetDeposits.
(** [state] is [s.vm.state]; [ClaimableReward] is [Deposit.ClaimableReward]
    of the deposit package. *)
Context (state : Chain) (ClaimableReward : Deposit -> option Offer -> Z -> Z).

(** [for i := range args.DepositTxIDs], from the index [i] on.  The two
    slices of the reply are as long as [args.DepositTxIDs], so no index is
    out of range. *)
Fixpoint GetDeposits_from (i : nat) (DepositTxIDs : list ID) (reply : GetDepositsReply)
    : GetDepositsReply * option error :=
  match DepositTxIDs with
  | [] => (reply, None)
  | depositTxID :: rest =>
      match Chain_GetDeposit state depositTxID with
      | Err err => (reply, Some (ErrWrap "could't get deposit from state" err))
      | Ok deposit =>
          match Chain_GetDepositOffer state (DepositOfferID deposit) with
          | Err err => (reply, Some err)
          | Ok offer =>
              GetDeposits_from (S i) rest
                {| Reply_Deposits :=
                     <[i := Some (APIDepositFromDeposit depositTxID deposit)]>
                       (Reply_Deposits reply);
                   Reply_AvailableRewards :=
                     <[i := ClaimableReward deposit offer (Reply_Timestamp reply)]>
                       (Reply_AvailableRewards reply);
                   Reply_Timestamp := Reply_Timestamp reply |}
          end
      end
  end.

(** [clockUnix] is [s.vm.clock.Unix()]. *)
Definition CaminoService_GetDeposits (clockUnix : Z) (DepositTxIDs : list ID)
    : GetDepositsReply * option error :=
  GetDeposits_from 0 DepositTxIDs
    {| Reply_Deposits := replicate (length DepositTxIDs) None;
       Reply_AvailableRewards := replicate (length DepositTxIDs) 0;
       Reply_Timestamp := clockUnix |}.

(** What the state holds for a deposit: the deposit and its offer, or the
    error that [GetDeposits] reports. *)
Definition depositAndOffer (depositTxID : ID) : result (Deposit * option Offer) :=
  match Chain_GetDeposit state depositTxID with
  | Err err => Err (ErrWrap "could't get deposit from state" err)
  | Ok deposit =>
      match Chain_GetDepositOffer state (DepositOfferID deposit) with
      | Err err => Err err
      | Ok offer => Ok (deposit, offer)
      end
  end.
End GetDeposits.

(** A state for the scenarios: the scenario parent, which holds the
    deposit [X], with the offer 1 of that deposit. *)
Definition scenarioDepositState : Chain :=
  {| Chain_LockedUTXOs := Chain_LockedUTXOs (scenarioParent scenarioMaxTime 1000);
     Chain_GetAddressStates := Chain_GetAddressStates (scenarioParent scenarioMaxTime 1000);
     Chain_GetDepositOffer offerID :=
       if decide (offerID = 1%N)
       then Ok (Some {| Offer_ID := 1%N; Flags := 0; MinDuration := 60; MaxDuration := 600 |})
       else Err ErrNotFound;
     Chain_GetAllDepositOffers :=
       Ok [{| Offer_ID := 1%N; Flags := 0; MinDuration := 60; MaxDuration := 600 |}];
     Chain_GetDeposit := Chain_GetDeposit (scenarioParent scenarioMaxTime 1000);
     Chain_GetNextToUnlockDepositTime :=
       Chain_GetNextToUnlockDepositTime (scenarioParent scenarioMaxTime 1000);
     Chain_GetNextToUnlockDepositIDsAndTime :=
       Chain_GetNextToUnlockDepositIDsAndTime (scenarioParent scenarioMaxTime 1000);
     Chain_GetNextToUnlockDepositTime_nil :=
       Chain_GetNextToUnlockDepositTime_nil (scenarioParent scenarioMaxTime 1000);
     Chain_GetNextToUnlockDepositIDsAndTime_nil :=
       Chain_GetNextToUnlockDepositIDsAndTime_nil (scenarioParent scenarioMaxTime 1000);
     Chain_GetMultisigAlias := Chain_GetMultisigAlias (scenarioParent scenarioMaxTime 1000);
     Chain_GetShortIDLink := Chain_GetShortIDLink (scenarioParent scenarioMaxTime 1000);
     Chain_GetClaimable := Chain_GetClaimable (scenarioParent scenarioMaxTime 1000);
     Chain_GetNotDistributedValidatorReward :=
       Chain_GetNotDistributedValidatorReward (scenarioParent scenarioMaxTime 1000) |}.

(** ** What the base state holds after [ApplyCaminoState] *)

(** The entry of the base state that holds the value of a key. *)
Definition keyLoc (k : Key) : Loc :=
  match k with
  | KAddressStates address => LocAddressStates address
  | KDepositOffer offerID => LocDepositOffer offerID
  | KDeposit depositTxID => LocDeposit depositTxID
  | KMultisigAlias alias => LocMultisigAlias alias
  | KShortIDLink id key => LocShortIDLink id key
  | KClaimable ownerID => LocClaimable ownerID
  | KNotDistributedValidatorReward => LocNotDistributedValidatorReward
  end.

(** The content of an entry of the base state that holds what a getter
    answers: the value of the answer, and nothing when the answer is an
    error or a nil offer. *)
Definition cellOfAnswer (a : Answer) : option Cell :=
  match a with
  | AnsAddressStates (Ok states) => Some (CellU64 states)
  | AnsDepositOffer (Ok (Some offer)) => Some (CellOffer offer)
  | AnsDeposit (Ok deposit) => Some (CellDeposit deposit)
  | AnsMultisigAlias (Ok alias) => Some (CellAlias alias)
  | AnsShortIDLink (Ok link) => Some (CellShortID link)
  | AnsClaimable (Ok claimable) => Some (CellClaimable claimable)
  | AnsNotDistributedValidatorReward (Ok reward) => Some (CellU64 reward)
  | _ => None
  end.

(** The content that a call on [baseSetters] leaves in the entry it writes
    to. *)
Definition cellOf (c : Call) : option Cell :=
  match c with
  | CallSetNotDistributedValidatorReward reward => Some (CellU64 reward)
  | CallSetAddressStates _ states => Some (CellU64 states)
  | CallSetDepositOffer offer => CellOffer <$> offer
  | CallAddDeposit _ deposit | CallModifyDeposit _ deposit => Some (CellDeposit deposit)
  | CallRemoveDeposit _ _ => None
  | CallSetMultisigAlias owner => CellAlias <$> owner
  | CallSetShortIDLink _ _ link => CellShortID <$> link
  | CallSetClaimable _ claimable => CellClaimable <$> claimable
  | CallDeleteDeferredValidator _ => None
  | CallPutDeferredValidator staker => Some (CellStaker staker)
  end.

(** The entries of [modifiedDeposits] as [AddDeposit], [ModifyDeposit] and
    [RemoveDeposit] leave them: none is marked both added and removed. *)
Definition deposits_wf (c : caminoDiff) : Prop :=
  forall depositTxID dd,
    modifiedDeposits c !! depositTxID = Some dd -> added dd = true -> removed dd = false.

(** ** The beacons of a network (package genesis) *)

Record node := {
  node_ip : string;
  node_nodeID : string
}.

(** [ColumbusID] is [constants.ColumbusID]. *)
Definition getNodes (ColumbusID : Z) (networkID : Z) : list node :=
  if decide (networkID = ColumbusID)
  then [ {| node_ip := "34.91.158.85:9651";
            node_nodeID := "NodeID-6XD16eZ22fadTKq3qsxro9TPFZyxTiFv3" |};
         {| node_ip := "35.205.189.109:9651";
            node_nodeID := "NodeID-6rsqgkg4F1i3SBjzj4tS5ucQWH7JMEouj" |} ]
  else [].

(** [Sample n count] is what [sampler.Uniform], initialised with [n],
    returns for [Sample(count)]: the indices, and none when it fails, as
    the source drops the error.  The result is [None] where the source
    panics: when it makes a slice of negative capacity, and when an index
    is out of range. *)
Definition SampleBeacons (ColumbusID : Z) (Sample : Z -> Z -> list Z)
    (networkID count : Z) : option (list string * list string) :=
  let beacons := getNodes ColumbusID networkID in
  let count :=
    if Z.of_nat (length beacons) <? count then Z.of_nat (length beacons) else count in
  if count <? 0 then None
  else
    let indices := Sample (Z.of_nat (length beacons)) count in
    foldl (fun sampled index =>
             match sampled with
             | None => None
             | Some (sampledIPs, sampledIDs) =>
                 match beacons !! Z.to_nat index with
                 | Some beacon =>
                     Some (sampledIPs ++ [node_ip beacon], sampledIDs ++ [node_nodeID beacon])
                 | None => None
                 end
             end)
          (Some ([], [])) indices.

(** A sampler for the scenarios: the first [count] indices. *)
Definition firstIndices (n count : Z) : list Z := Z.of_nat <$> seq 0 (Z.to_nat count).

(** ** What the base state holds for a deferred validator *)

(** The entry that the diff holds for the deferred validator of a subnet
    and a node. *)
Definition validatorEntry (c : caminoDiff) (subnetID : ID) (nodeID : NodeID)
    : option diffValidator :=
  validatorDiffs c !! subnetID ≫= fun vs => vs !! nodeID.

(** The diff [d] holding the deferred-validator entries [vd]:
    PutDeferredValidator and DeleteDeferredValidator write to
    [deferredStakerDiffs] and to no other field of the diff. *)
Definition withValidatorDiffs (d : diff) (vd : gmap ID (gmap NodeID diffValidator)) : diff :=
  with_camino d
    {| modifiedAddressStates := modifiedAddressStates (caminoDiff_ d);
       modifiedDepositOffers := modifiedDepositOffers (caminoDiff_ d);
       modifiedDeposits := modifiedDeposits (caminoDiff_ d);
       modifiedMultisigOwners := modifiedMultisigOwners (caminoDiff_ d);
       modifiedShortLinks := modifiedShortLinks (caminoDiff_ d);
       modifiedClaimables := modifiedClaimables (caminoDiff_ d);
       modifiedNotDistributedValidatorReward :=
         modifiedNotDistributedValidatorReward (caminoDiff_ d);
       validatorDiffs := vd |}.

(** The entries [vd] are filed as [deferredStakerDiffs] files them: a
    modified entry under the subnet and the node of its staker. *)
Definition validators_wf (vd : gmap ID (gmap NodeID diffValidator)) : Prop :=
  forall subnetID vs nodeID v,
    vd !! subnetID = Some vs -> vs !! nodeID = Some v ->
    validatorModified v = true ->
    Staker_SubnetID (validator v) = subnetID /\ Staker_NodeID (validator v) = nodeID.

(** The call that [ApplyCaminoState] makes for a modified validator
    entry. *)
Definition validatorCall (v : diffValidator) : Call :=
  if validatorDeleted v then CallDeleteDeferredValidator (validator v)
  else CallPutDeferredValidator (validator v).

(** A diff that puts the deferred validator of the node 12 in the subnet 1
    and deletes the one of the node 13. *)
Definition validatorScenarioDiff : diff :=
  with_camino (scenarioDiff (scenarioParent scenarioMaxTime 1000))
    {| modifiedAddressStates := ∅;
       modifiedDepositOffers := ∅;
       modifiedDeposits := ∅;
       modifiedMultisigOwners := ∅;
       modifiedShortLinks := ∅;
       modifiedClaimables := ∅;
       modifiedNotDistributedValidatorReward := None;
       validatorDiffs :=
         {[ 1%N :=
              {[ 12%N := {| validatorModified := true; validatorDeleted := false;
                            validator := {| Staker_TxID := 40%N; Staker_SubnetID := 1%N;
                                            Staker_NodeID := 12%N; Staker_Weight := 5 |} |};
                 13%N := {| validatorModified := true; validatorDeleted := true;
                            validator := {| Staker_TxID := 41%N; Staker_SubnetID := 1%N;
                                            Staker_NodeID := 13%N; Staker_Weight := 6 |} |} ]} ]} |}.

(** * Properties *)

(** ** Reading through the diff *)

Lemma performAll_snoc d ops op :
  performAll d (ops ++ [op]) = perform (performAll d ops) op.
Proof. unfold performAll. by rewrite foldl_app. Qed.

Lemma perform_parentID d op : parentID (perform d op) = parentID d.
Proof. by destruct op. Qed.

Lemma perform_stateVersions d op : stateVersions (perform d op) = stateVersions d.
Proof. by destruct op. Qed.

Lemma performAll_stateVersions d ops :
  stateVersions (performAll d ops) = stateVersions d
  /\ parentID (performAll d ops) = parentID d.
Proof.
  induction ops as [|op ops IH] using rev_ind; [done|].
  rewrite performAll_snoc, perform_stateVersions, perform_parentID. exact IH.
Qed.

(** A setter call leaves the answers for all other keys as they were. *)
Lemma getter_perform_other d op k :
  target op <> k -> getter (perform d op) k = getter d k.
Proof.
  intros Hk.
  destruct op, k; simpl in Hk; try reflexivity;
    unfold getter, perform, GetAddressStates, GetDepositOffer, GetDeposit,
      GetMultisigAlias, GetShortIDLink, GetClaimable,
      GetNotDistributedValidatorReward, AddDeposit, ModifyDeposit, RemoveDeposit,
      toShortLinkKey; simpl;
    try (rewrite lookup_insert_ne by (unfold toShortLinkKey; congruence); reflexivity);
    congruence.
Qed.

(** Right after a setter call the getter hands back what was written,
    without asking the parent. *)
Lemma getter_perform_same d op :
  getter (perform d op) (target op) = Done (written op).
Proof.
  destruct op as [| | | | | | ? ? [?|] | ? [?|] |]; simpl;
    unfold getter, GetAddressStates, GetDepositOffer, GetDeposit,
      GetMultisigAlias, GetShortIDLink, GetClaimable,
      GetNotDistributedValidatorReward, toShortLinkKey; simpl;
    try rewrite lookup_insert_eq; reflexivity.
Qed.

Lemma getter_performAll_other d ops k :
  Forall (fun op => target op <> k) ops ->
  getter (performAll d ops) k = getter d k.
Proof.
  induction ops as [|op ops IH] using rev_ind; [done|].
  rewrite Forall_app, Forall_singleton. intros [Hops Hop].
  rewrite performAll_snoc, getter_perform_other by exact Hop. by apply IH.
Qed.

Lemma getter_fresh parentID versions d0 k :
  NewCaminoDiff parentID versions = Ok d0 ->
  exists c, getter d0 k = AskParent parentID c
    /\ forall parentState, c (Some parentState) = parentAnswer parentState k.
Proof.
  unfold NewCaminoDiff. destruct (versions parentID); [|done].
  intros [= <-]. destruct k; eexists; split; reflexivity || done.
Qed.

(** C2.  Let [d] be a diff created over a resolvable parent [P] and then
    written to by the setter calls [ops].  For every key that none of the
    calls writes, the diff's getter returns exactly the parent's answer;
    and for a call [op] that no later call overwrites, the getter returns
    the value [op] wrote.  This covers GetAddressStates, GetDepositOffer,
    GetDeposit, GetMultisigAlias, GetShortIDLink, GetClaimable and
    GetNotDistributedValidatorReward. *)
Theorem diff_read_through parentID versions P d0 :
  NewCaminoDiff parentID versions = Ok d0 ->
  versions parentID = Some P ->
  (forall ops k,
     Forall (fun op => target op <> k) ops ->
     let d := performAll d0 ops in
     answer d (getter d k) = parentAnswer P k)
  /\
  (forall before op after,
     Forall (fun op' => target op' <> target op) after ->
     let d := performAll d0 (before ++ op :: after) in
     answer d (getter d (target op)) = written op).
Proof.
  intros Hnew HP. split.
  - intros ops k Hops d. subst d.
    rewrite getter_performAll_other by done.
    destruct (getter_fresh _ _ _ k Hnew) as (c & -> & Hc). simpl.
    destruct (performAll_stateVersions d0 ops) as [-> _].
    assert (stateVersions d0 = versions) as ->.
    { unfold NewCaminoDiff in Hnew. rewrite HP in Hnew. by injection Hnew as <-. }
    by rewrite HP, Hc.
  - intros before op after Hafter d. subst d.
    unfold performAll. rewrite foldl_app. simpl.
    fold (performAll (perform (foldl perform d0 before) op) after).
    rewrite getter_performAll_other by done.
    by rewrite getter_perform_same.
Qed.

(** ** Replaying writes on a last-write-wins state *)

Lemma foldl_ext_eq {A B} (f g : A -> B -> A) (l : list B) (a a' : A) :
  (forall a b, f a b = g a b) -> a = a' -> foldl f a l = foldl g a' l.
Proof.
  intros Hfg <-. revert a. induction l as [|b l IH]; intros a; [done|].
  simpl. by rewrite Hfg, IH.
Qed.

Section Replay.
Context {S : Type} (baseState : State S) `{!LastWriteWins baseState}.

Lemma replay_cons c cs (s : S) :
  replay baseState (c :: cs) s = replay baseState cs (exec baseState c s).
Proof. reflexivity. Qed.

Lemma replay_app cs1 cs2 (s : S) :
  replay baseState (cs1 ++ cs2) s = replay baseState cs2 (replay baseState cs1 s).
Proof. apply foldl_app. Qed.

Lemma exec_replay_comm c cs (s : S) :
  is_Some (call_loc c) ->
  Forall (fun c' => is_Some (call_loc c')) cs ->
  call_loc c ∉ call_loc <$> cs ->
  exec baseState c (replay baseState cs s) = replay baseState cs (exec baseState c s).
Proof.
  intros Hc. revert s. induction cs as [|c' cs IH]; intros s Hcs Hnotin; [done|].
  apply Forall_cons in Hcs as [Hc' Hcs].
  rewrite fmap_cons, not_elem_of_cons in Hnotin. destruct Hnotin as [Hne Hnotin].
  rewrite !replay_cons, IH by done.
  by rewrite write_independent.
Qed.

Lemma replay_Permutation cs cs' :
  cs ≡ₚ cs' ->
  Forall (fun c => is_Some (call_loc c)) cs ->
  NoDup (call_loc <$> cs) ->
  forall s : S, replay baseState cs s = replay baseState cs' s.
Proof.
  induction 1 as [|c cs cs' Hp IH|c1 c2 cs|cs1 cs2 cs3 Hp1 IH1 Hp2 IH2];
    intros Hsome Hnd s.
  - done.
  - apply Forall_cons in Hsome as [_ Hsome].
    rewrite fmap_cons in Hnd. apply NoDup_cons in Hnd as [_ Hnd].
    rewrite !replay_cons. by apply IH.
  - apply Forall_cons in Hsome as [H2 Hsome]. apply Forall_cons in Hsome as [H1 _].
    rewrite !fmap_cons in Hnd. apply NoDup_cons in Hnd as [Hne _].
    rewrite not_elem_of_cons in Hne. destruct Hne as [Hne _].
    rewrite !replay_cons. f_equal. by apply write_independent.
  - rewrite IH1 by done. apply IH2.
    + by rewrite <- Hp1.
    + by rewrite <- Hp1.
Qed.

Lemma replay_twice cs (s : S) :
  Forall (fun c => is_Some (call_loc c)) cs ->
  NoDup (call_loc <$> cs) ->
  replay baseState cs (replay baseState cs s) = replay baseState cs s.
Proof.
  revert s. induction cs as [|c cs IH]; intros s Hsome Hnd; [done|].
  apply Forall_cons in Hsome as [Hc Hsome].
  rewrite fmap_cons in Hnd. apply NoDup_cons in Hnd as [Hnotin Hnd].
  rewrite !replay_cons.
  rewrite exec_replay_comm by done.
  rewrite write_twice by done.
  by apply IH.
Qed.

(** Replaying the same writes again, in any order, changes nothing. *)
Lemma replay_again cs cs' (s : S) :
  cs ≡ₚ cs' ->
  Forall (fun c => is_Some (call_loc c)) cs ->
  NoDup (call_loc <$> cs) ->
  replay baseState cs' (replay baseState cs s) = replay baseState cs s.
Proof.
  intros Hp Hsome Hnd.
  rewrite <- (replay_Permutation cs cs') by done.
  by apply replay_twice.
Qed.

(** [ApplyCaminoState] makes exactly the calls of [applyCalls]. *)
Lemma foldl_bind_calls {A} (f : A -> list Call) (l : list A) (s : S) :
  replay baseState (l ≫= f) s = foldl (fun s x => replay baseState (f x) s) s l.
Proof.
  revert s. induction l as [|x l IH]; intros s; [done|].
  rewrite bind_cons, replay_app. apply IH.
Qed.

Lemma replay_fmap {A} (f : A -> Call) (l : list A) (s : S) :
  replay baseState (f <$> l) s = foldl (fun s x => exec baseState (f x) s) s l.
Proof. apply foldl_fmap. Qed.

Lemma ApplyCaminoState_in_replay o d (s : S) :
  ApplyCaminoState_in baseState o d s = replay baseState (applyCalls o d) s.
Proof.
  unfold ApplyCaminoState_in, applyCalls.
  rewrite !replay_app, foldl_bind_calls, !replay_fmap.
  apply foldl_ext_eq.
  { intros s' x. rewrite foldl_bind_calls. apply foldl_ext_eq; [|done].
    intros s'' kv. unfold applyValidatorDiff, validatorCalls.
    by destruct (validatorModified kv.2), (validatorDeleted kv.2). }
  apply foldl_ext_eq; [done|].
  apply foldl_ext_eq; [by intros s' [[] ]|].
  apply foldl_ext_eq; [done|].
  apply foldl_ext_eq.
  { intros s' [k dd]. unfold applyDeposit, depositCall. simpl.
    by destruct (added dd), (removed dd). }
  apply foldl_ext_eq; [done|].
  apply foldl_ext_eq; [done|].
  by destruct (modifiedNotDistributedValidatorReward (caminoDiff_ d)).
Qed.

End Replay.

(** ** The calls of a diff *)

Lemma nestedRange_calls vd order :
  nestedRange vd order ->
  order ≫= (fun x => x.2 ≫= validatorCalls)
  ≡ₚ map_to_list vd ≫= (fun x => map_to_list x.2 ≫= validatorCalls).
Proof.
  intros (outer & Houter & Hall). rewrite <- Houter. clear Houter.
  induction Hall as [|x y outer order [_ Hxy] _ IH]; [done|].
  rewrite !bind_cons. simpl. by rewrite Hxy, IH.
Qed.

Lemma someOrders_rangesOver c : rangesOver c (someOrders c).
Proof.
  repeat split; try done.
  exists (map_to_list (validatorDiffs c)). split; [done|].
  simpl. induction (map_to_list (validatorDiffs c)) as [|x l IH]; constructor; done.
Qed.

(** Whatever the orders of the ranges, the same calls are made. *)
Lemma applyCalls_Permutation o o' d :
  rangesOver (caminoDiff_ d) o -> rangesOver (caminoDiff_ d) o' ->
  applyCalls o d ≡ₚ applyCalls o' d.
Proof.
  intros (Ha & Ho & Hd & Hm & Hs & Hc & Hv) (Ha' & Ho' & Hd' & Hm' & Hs' & Hc' & Hv').
  unfold applyCalls.
  rewrite Ha, Ho, Hd, Hm, Hs, Hc, Ha', Ho', Hd', Hm', Hs', Hc'.
  by rewrite (nestedRange_calls _ _ Hv), (nestedRange_calls _ _ Hv').
Qed.

Lemma validatorCalls_locs subnetID (l : list (NodeID * diffValidator)) :
  (forall kv, kv ∈ l -> validatorModified kv.2 = true ->
     Staker_SubnetID (validator kv.2) = subnetID
     /\ Staker_NodeID (validator kv.2) = kv.1) ->
  call_loc <$> (l ≫= validatorCalls)
  = Some <$> ((fun kv => LocDeferredValidator subnetID kv.1) <$>
                filter (fun kv => validatorModified kv.2 = true) l).
Proof.
  induction l as [|kv l IH]; intros Hwf; [done|].
  rewrite bind_cons, fmap_app, filter_cons, IH
    by (intros; apply Hwf; [by right|done]).
  unfold validatorCalls at 1.
  destruct (validatorModified kv.2) eqn:Hmod.
  - destruct (Hwf kv) as [Hs Hn]; [by left|done|].
    rewrite decide_True by done.
    destruct (validatorDeleted kv.2); simpl; by rewrite Hs, Hn.
  - by rewrite decide_False by done.
Qed.

Lemma applyCalls_locs d :
  diff_wf (caminoDiff_ d) ->
  call_loc <$> applyCalls (someOrders (caminoDiff_ d)) d
  = Some <$> applyLocs (caminoDiff_ d).
Proof.
  intros (Hoffers & Hmsig & Hvals).
  unfold applyCalls, applyLocs, someOrders. simpl.
  rewrite !fmap_app, <- !list_fmap_compose.
  repeat apply (f_equal2 app).
  - by destruct (modifiedNotDistributedValidatorReward (caminoDiff_ d)).
  - done.
  - apply Forall_fmap_ext, Forall_forall. intros [k o] Hin%elem_of_map_to_list.
    destruct (Hoffers _ _ Hin) as (offer & -> & <-). done.
  - apply Forall_fmap_ext, Forall_forall. intros [k dd] _.
    unfold depositCall. simpl. by destruct (added dd), (removed dd).
  - apply Forall_fmap_ext, Forall_forall. intros [k o] Hin%elem_of_map_to_list.
    destruct (Hmsig _ _ Hin) as (owner & -> & <-). done.
  - done.
  - done.
  - rewrite list_fmap_bind.
    assert (Hall : forall x, x ∈ map_to_list (validatorDiffs (caminoDiff_ d)) ->
              validatorDiffs (caminoDiff_ d) !! x.1 = Some x.2).
    { intros [k vs]. apply elem_of_map_to_list. }
    induction (map_to_list (validatorDiffs (caminoDiff_ d))) as [|x l IH]; [done|].
    rewrite !bind_cons, !fmap_app, IH by (intros; apply Hall; by right).
    f_equal. simpl. apply validatorCalls_locs.
    intros [n v] Hin%elem_of_map_to_list Hmod.
    eapply Hvals; [apply Hall; by left|done..].
Qed.

Lemma elem_of_validatorLocs (x : ID * gmap NodeID diffValidator) (l : Loc) :
  l ∈ (fun kv : NodeID * diffValidator => LocDeferredValidator x.1 kv.1) <$>
        filter (fun kv => validatorModified kv.2 = true) (map_to_list x.2) ->
  exists nodeID, l = LocDeferredValidator x.1 nodeID.
Proof. intros (kv & -> & _)%list_elem_of_fmap. by eexists. Qed.

Lemma applyLocs_NoDup c : NoDup (applyLocs c).
Proof.
  unfold applyLocs.
  repeat (apply NoDup_app; split; [|split]).
  all: try (intros l Hl Hrest;
            repeat (apply elem_of_app in Hrest as [Hrest|Hrest]);
            try apply list_elem_of_bind in Hrest as (? & (? & ->)%elem_of_validatorLocs & _);
            try apply list_elem_of_fmap in Hrest as (? & -> & _);
            try apply list_elem_of_fmap in Hl as (? & ? & _);
            try (destruct (modifiedNotDistributedValidatorReward c);
                 [apply list_elem_of_singleton in Hl|by apply elem_of_nil in Hl]);
            congruence).
  - destruct (modifiedNotDistributedValidatorReward c);
      [apply NoDup_singleton|apply NoDup_nil_2].
  - apply NoDup_fmap_2; [by intros ?? [=]|apply NoDup_fst_map_to_list].
  - apply NoDup_fmap_2; [by intros ?? [=]|apply NoDup_fst_map_to_list].
  - apply NoDup_fmap_2; [by intros ?? [=]|apply NoDup_fst_map_to_list].
  - apply NoDup_fmap_2; [by intros ?? [=]|apply NoDup_fst_map_to_list].
  - apply NoDup_fmap_2; [by intros [] [] [=]; simplify_eq/=|apply NoDup_fst_map_to_list].
  - apply NoDup_fmap_2; [by intros ?? [=]|apply NoDup_fst_map_to_list].
  - apply NoDup_bind.
    + intros [k1 vs1] [k2 vs2] l Hin1 Hin2
        (n1 & ->)%elem_of_validatorLocs (n2 & [= Hk _])%elem_of_validatorLocs.
      simpl in Hk. subst k2.
      apply elem_of_map_to_list in Hin1, Hin2. congruence.
    + intros x _. apply NoDup_fmap_2_strong.
      * intros [n1 v1] [n2 v2] [_ Hin1]%list_elem_of_filter [_ Hin2]%list_elem_of_filter [= ->].
        apply elem_of_map_to_list in Hin1, Hin2. congruence.
      * apply NoDup_filter, NoDup_map_to_list.
    + apply NoDup_map_to_list.
Qed.

(** ** Applying a diff twice *)

(** The setters keep a diff well filed. *)
Lemma newCaminoDiff_wf : diff_wf newCaminoDiff.
Proof. split; [|split]; intros *; simpl; by rewrite ?lookup_empty. Qed.

Lemma perform_wf d op : diff_wf (caminoDiff_ d) -> diff_wf (caminoDiff_ (perform d op)).
Proof.
  intros (Hoffers & Hmsig & Hvals).
  destruct op; simpl; (split; [|split]); simpl; try done.
  - intros k o. rewrite lookup_insert. case_decide; [|by apply Hoffers].
    intros [= <-]. subst k. by eexists.
  - intros k o. rewrite lookup_insert. case_decide; [|by apply Hmsig].
    intros [= <-]. subst k. by eexists.
Qed.

Lemma performAll_wf d ops :
  diff_wf (caminoDiff_ d) -> diff_wf (caminoDiff_ (performAll d ops)).
Proof.
  intros Hwf. induction ops as [|op ops IH] using rev_ind; [done|].
  rewrite performAll_snoc. by apply perform_wf.
Qed.

Lemma applyCalls_written d o :
  diff_wf (caminoDiff_ d) -> rangesOver (caminoDiff_ d) o ->
  Forall (fun c => is_Some (call_loc c)) (applyCalls o d)
  /\ NoDup (call_loc <$> applyCalls o d).
Proof.
  intros Hwf Ho.
  pose proof (applyCalls_Permutation o _ d Ho (someOrders_rangesOver _)) as Hp.
  rewrite Hp. change (fun c => is_Some (call_loc c)) with (is_Some ∘ call_loc).
  rewrite <- Forall_fmap, applyCalls_locs by done. split.
  - apply Forall_fmap, Forall_forall. by eexists.
  - apply NoDup_fmap_2; [by intros ?? [=]|apply applyLocs_NoDup].
Qed.

(** C1.  Let [d] be a diff whose entries are filed as its setters file
    them, and let the base state keep the last value written per entry.
    After [ApplyCaminoState] has run once on a base state, a second run,
    whatever the orders in which either run ranges over the diff's maps,
    leaves the base state as the first run left it. *)
Theorem ApplyCaminoState_idempotent {S} (baseState : State S)
    (d : diff) (o1 o2 : RangeOrders) (s : S) :
  LastWriteWins baseState ->
  diff_wf (caminoDiff_ d) ->
  rangesOver (caminoDiff_ d) o1 ->
  rangesOver (caminoDiff_ d) o2 ->
  ApplyCaminoState_in baseState o2 d (ApplyCaminoState_in baseState o1 d s)
  = ApplyCaminoState_in baseState o1 d s.
Proof.
  intros Hlww Hwf Ho1 Ho2.
  rewrite !ApplyCaminoState_in_replay.
  destruct (applyCalls_written d o1 Hwf Ho1) as [Hsome Hnd].
  apply replay_again; [done| |done..].
  by apply applyCalls_Permutation.
Qed.

(** The model of the base state keeps the last value written per entry. *)
Lemma store_twice l v (s : BaseState) : store l v (store l v s) = store l v s.
Proof.
  unfold store. destruct v; simpl; [apply insert_insert_eq|].
  apply map_eq. intros i. destruct (decide (l = i)) as [->|];
    by rewrite ?lookup_delete_eq, ?lookup_delete_ne.
Qed.

Lemma store_independent l1 v1 l2 v2 (s : BaseState) :
  l1 <> l2 -> store l1 v1 (store l2 v2 s) = store l2 v2 (store l1 v1 s).
Proof.
  intros Hne. apply map_eq. intros i. unfold store.
  destruct v1, v2; simpl;
    rewrite ?lookup_insert, ?lookup_delete, ?lookup_insert, ?lookup_delete;
    repeat case_decide; congruence.
Qed.

Lemma exec_baseSetters c l :
  call_loc c = Some l ->
  exists v, forall s, exec baseSetters c s = store l v s.
Proof.
  destruct c as [| |[?|]| | | |[?|]| | | |]; simpl; intros [= <-];
    eexists; intros s; reflexivity.
Qed.

Lemma baseSetters_LastWriteWins : LastWriteWins baseSetters.
Proof.
  split.
  - intros c s [l Hl]. destruct (exec_baseSetters c l Hl) as [v Hv].
    rewrite !Hv. apply store_twice.
  - intros c1 c2 s [l1 Hl1] [l2 Hl2] Hne.
    destruct (exec_baseSetters c1 l1 Hl1) as [v1 Hv1].
    destruct (exec_baseSetters c2 l2 Hl2) as [v2 Hv2].
    rewrite !Hv1, !Hv2. apply store_independent. congruence.
Qed.

(** Scenario S5: the base holds a validator reward of 10 for [O], the diff
    sets it to 25; applying the diff once or twice leaves 25 in the base. *)
Lemma ApplyCaminoState_idempotent_witness :
  ApplyCaminoState baseSetters
    (performAll (scenarioDiff (scenarioParent scenarioMaxTime 1000))
       [OpSetClaimable idO (Some (claimableOf 25))])
    (ApplyCaminoState baseSetters
       (performAll (scenarioDiff (scenarioParent scenarioMaxTime 1000))
          [OpSetClaimable idO (Some (claimableOf 25))])
       scenarioBase)
  = ApplyCaminoState baseSetters
      (performAll (scenarioDiff (scenarioParent scenarioMaxTime 1000))
         [OpSetClaimable idO (Some (claimableOf 25))])
      scenarioBase
  /\ ApplyCaminoState baseSetters
       (performAll (scenarioDiff (scenarioParent scenarioMaxTime 1000))
          [OpSetClaimable idO (Some (claimableOf 25))])
       scenarioBase !! LocClaimable idO
     = Some (CellClaimable (claimableOf 25)).
Proof.
  split.
  - apply (ApplyCaminoState_idempotent baseSetters).
    + exact baseSetters_LastWriteWins.
    + apply performAll_wf, newCaminoDiff_wf.
    + apply someOrders_rangesOver.
    + apply someOrders_rangesOver.
  - vm_compute. reflexivity.
Defined.

(** Scenario S5, read side: the parent holds 10 for [O]; a diff that has
    not written [O] answers 10, and after setting 25 it answers 25. *)
Lemma diff_read_through_witness :
  answer (performAll (scenarioDiff (scenarioParent scenarioMaxTime 1000))
            [OpSetAddressStates 10%N 1])
    (getter (performAll (scenarioDiff (scenarioParent scenarioMaxTime 1000))
               [OpSetAddressStates 10%N 1])
       (KClaimable idO))
  = AnsClaimable (Ok (claimableOf 10))
  /\ answer (performAll (scenarioDiff (scenarioParent scenarioMaxTime 1000))
               [OpSetClaimable idO (Some (claimableOf 25)); OpSetAddressStates 10%N 1])
       (getter (performAll (scenarioDiff (scenarioParent scenarioMaxTime 1000))
                  [OpSetClaimable idO (Some (claimableOf 25)); OpSetAddressStates 10%N 1])
          (KClaimable idO))
     = AnsClaimable (Ok (claimableOf 25)).
Proof.
  destruct (diff_read_through 1%N
              (scenarioVersions (scenarioParent scenarioMaxTime 1000))
              (scenarioParent scenarioMaxTime 1000)
              (scenarioDiff (scenarioParent scenarioMaxTime 1000))
              eq_refl eq_refl) as [Hother Hsame].
  split.
  - apply (Hother [OpSetAddressStates 10%N 1] (KClaimable idO)).
    repeat constructor. discriminate.
  - apply (Hsame [] (OpSetClaimable idO (Some (claimableOf 25)))
             [OpSetAddressStates 10%N 1]).
    repeat constructor. discriminate.
Defined.

(** ** Tombstones *)

(** C7.  When the diff's own modification set holds a tombstone for the
    queried key (a nil alias, link or claimable, or a deposit marked
    removed), GetMultisigAlias, GetShortIDLink, GetClaimable and GetDeposit
    answer NotFound on the spot: the answer is [Done], so the parent state
    is not consulted. *)
Theorem tombstone_short_circuits (d : diff) :
  (forall alias,
     modifiedMultisigOwners (caminoDiff_ d) !! alias = Some None ->
     GetMultisigAlias d alias = Done (Err ErrNotFound))
  /\ (forall id key,
        modifiedShortLinks (caminoDiff_ d) !! toShortLinkKey id key = Some None ->
        GetShortIDLink d id key = Done (Err ErrNotFound))
  /\ (forall ownerID,
        modifiedClaimables (caminoDiff_ d) !! ownerID = Some None ->
        GetClaimable d ownerID = Done (Err ErrNotFound))
  /\ (forall depositTxID depositDiff,
        modifiedDeposits (caminoDiff_ d) !! depositTxID = Some depositDiff ->
        removed depositDiff = true ->
        GetDeposit d depositTxID = Done (Err ErrNotFound)).
Proof.
  repeat split.
  - intros alias H. unfold GetMultisigAlias. by rewrite H.
  - intros id key H. unfold GetShortIDLink. by rewrite H.
  - intros ownerID H. unfold GetClaimable. by rewrite H.
  - intros depositTxID depositDiff H Hremoved. unfold GetDeposit.
    by rewrite H, Hremoved.
Qed.

(** The parent of [tombstoneDiff] holds both the claimable [O] and the
    deposit [X]; the diff answers NotFound for them without asking it. *)
Lemma tombstone_short_circuits_witness :
  let d := tombstoneDiff (scenarioParent scenarioMaxTime 1000) in
  (GetMultisigAlias d 4%N = Done (Err ErrNotFound)
   /\ GetShortIDLink d 4%N ShortLinkKeyRegisterNode = Done (Err ErrNotFound))
  /\ (GetClaimable d idO = Done (Err ErrNotFound)
      /\ consultsParent (GetClaimable d idO) = false)
  /\ (GetDeposit d idX = Done (Err ErrNotFound)
      /\ consultsParent (GetDeposit d idX) = false).
Proof.
  intros d.
  destruct (tombstone_short_circuits d) as (Hmsig & Hlink & Hclaimable & Hdeposit).
  assert (Hc : GetClaimable d idO = Done (Err ErrNotFound))
    by (apply Hclaimable; reflexivity).
  assert (Hd : GetDeposit d idX = Done (Err ErrNotFound))
    by (eapply Hdeposit; reflexivity).
  split; [split|split; split].
  - apply Hmsig. reflexivity.
  - apply Hlink. reflexivity.
  - exact Hc.
  - by rewrite Hc.
  - exact Hd.
  - by rewrite Hd.
Defined.

(** ** Deposit offers *)

Lemma performAll_parent pid versions P d0 ops :
  NewCaminoDiff pid versions = Ok d0 ->
  versions pid = Some P ->
  stateVersions (performAll d0 ops) (parentID (performAll d0 ops)) = Some P
  /\ diff_wf (caminoDiff_ (performAll d0 ops)).
Proof.
  unfold NewCaminoDiff. intros Hnew HP. rewrite HP in Hnew. injection Hnew as <-.
  destruct (performAll_stateVersions
              {| parentID := pid; stateVersions := versions;
                 modifiedUTXOs := ∅; caminoDiff_ := newCaminoDiff |} ops) as [-> ->].
  split; [done|]. apply performAll_wf, newCaminoDiff_wf.
Qed.

Lemma elem_of_GetAllDepositOffers d P allOffers offer :
  stateVersions d (parentID d) = Some P ->
  answer d (GetAllDepositOffers d) = Ok allOffers ->
  offer ∈ allOffers ->
  (exists k, modifiedDepositOffers (caminoDiff_ d) !! k = Some (Some offer))
  \/ (modifiedDepositOffers (caminoDiff_ d) !! Offer_ID offer = None
      /\ exists parentOffers,
           Chain_GetAllDepositOffers P = Ok parentOffers /\ offer ∈ parentOffers).
Proof.
  intros HP. unfold GetAllDepositOffers, fromParent. simpl. rewrite HP.
  destruct (Chain_GetAllDepositOffers P) as [parentOffers|]; [|done].
  intros [= <-]. rewrite elem_of_app. intros [Hin|Hin].
  - left. apply list_elem_of_omap in Hin as ([k o] & Hin & Ho). simpl in Ho. subst o.
    exists k. by apply elem_of_map_to_list.
  - right. apply list_elem_of_filter in Hin as [Hnone Hin]. eauto.
Qed.

(** C9.  Take a diff created over a resolvable parent (whose listing of
    offers agrees with its lookup by identifier) and written to by setter
    calls, as the state that the service asks.  An offer of that state
    whose flags contain the Locked flag is not among the offers that
    GetAllDepositOffers returns for [active = true], and GetDepositOffer
    still returns that offer for its identifier. *)
Theorem locked_offer_hidden_but_resolvable
    (OfferFlagLocked : Z) pid versions P d0 ops (offer : Offer) allOffers :
  NewCaminoDiff pid versions = Ok d0 ->
  versions pid = Some P ->
  (forall parentOffers o,
     Chain_GetAllDepositOffers P = Ok parentOffers -> o ∈ parentOffers ->
     Chain_GetDepositOffer P (Offer_ID o) = Ok (Some o)) ->
  Z.land (Flags offer) OfferFlagLocked <> 0 ->
  answer (performAll d0 ops) (GetAllDepositOffers (performAll d0 ops)) = Ok allOffers ->
  offer ∈ allOffers ->
  (exists activeOffers,
     CaminoService_GetAllDepositOffers OfferFlagLocked
       (answer (performAll d0 ops) (GetAllDepositOffers (performAll d0 ops))) true
     = Ok activeOffers
     /\ offer ∉ activeOffers)
  /\ answer (performAll d0 ops) (GetDepositOffer (performAll d0 ops) (Offer_ID offer))
     = Ok (Some offer).
Proof.
  intros Hnew HP Hparent Hlocked Hall Hin.
  destruct (performAll_parent _ _ _ _ ops Hnew HP) as [Hres (Hoffers & _)].
  set (d := performAll d0 ops) in *. split.
  - rewrite Hall. simpl. eexists. split; [done|].
    rewrite list_elem_of_filter. tauto.
  - destruct (elem_of_GetAllDepositOffers d P allOffers offer Hres Hall Hin)
      as [[k Hk]|[Hnone (parentOffers & Hlist & Hinp)]].
    + destruct (Hoffers _ _ Hk) as (offer' & [= <-] & <-).
      unfold GetDepositOffer. by rewrite Hk.
    + unfold GetDepositOffer. rewrite Hnone. simpl. rewrite Hres. eauto.
Qed.

(** The diff holds a locked and an open offer: listing the active offers
    leaves the locked one out, looking it up by identifier finds it. *)
Lemma locked_offer_hidden_but_resolvable_witness :
  (exists activeOffers,
     CaminoService_GetAllDepositOffers 1
       (answer (performAll (scenarioDiff (scenarioParent scenarioMaxTime 1000))
                  [OpSetDepositOffer lockedOffer; OpSetDepositOffer openOffer])
          (GetAllDepositOffers
             (performAll (scenarioDiff (scenarioParent scenarioMaxTime 1000))
                [OpSetDepositOffer lockedOffer; OpSetDepositOffer openOffer])))
       true
     = Ok activeOffers
     /\ lockedOffer ∉ activeOffers)
  /\ answer (performAll (scenarioDiff (scenarioParent scenarioMaxTime 1000))
               [OpSetDepositOffer lockedOffer; OpSetDepositOffer openOffer])
       (GetDepositOffer
          (performAll (scenarioDiff (scenarioParent scenarioMaxTime 1000))
             [OpSetDepositOffer lockedOffer; OpSetDepositOffer openOffer])
          (Offer_ID lockedOffer))
     = Ok (Some lockedOffer).
Proof.
  eapply (locked_offer_hidden_but_resolvable 1 1%N
            (scenarioVersions (scenarioParent scenarioMaxTime 1000))
            (scenarioParent scenarioMaxTime 1000)).
  - reflexivity.
  - reflexivity.
  - intros parentOffers o [= <-] Hin. by apply elem_of_nil in Hin.
  - discriminate.
  - reflexivity.
  - apply list_elem_of_In. vm_compute. auto.
Defined.

(** ** The set of removed deposits *)

Lemma elem_of_markRemoved mods (removedDepositIDs : gset ID) id :
  id ∈ markRemoved mods removedDepositIDs
  <-> id ∈ removedDepositIDs \/ exists dd, (id, dd) ∈ mods /\ removed dd = true.
Proof.
  unfold markRemoved. revert removedDepositIDs.
  induction mods as [|[k dd] mods IH]; intros S; simpl.
  - split; [by left|]. intros [?|(dd & Hin & _)]; [done|]. by apply elem_of_nil in Hin.
  - rewrite IH. destruct (removed dd) eqn:Hrem.
    + rewrite elem_of_union, elem_of_singleton. split.
      * intros [[->|?]|(dd' & Hin & Hdd')]; [right|by left|right].
        -- exists dd. split; [by left|done].
        -- exists dd'. split; [by right|done].
      * intros [?|(dd' & Hin & Hdd')]; [left; by right|].
        apply elem_of_cons in Hin as [[= -> ->]|Hin]; [left; by left|].
        right. eauto.
    + split.
      * intros [?|(dd' & Hin & Hdd')]; [by left|right].
        exists dd'. split; [by right|done].
      * intros [?|(dd' & Hin & Hdd')]; [by left|].
        apply elem_of_cons in Hin as [[= -> ->]|Hin]; [congruence|].
        right. eauto.
Qed.

Lemma elem_of_range (m : gmap ID depositDiff) mods id dd :
  mods ≡ₚ map_to_list m -> (id, dd) ∈ mods <-> m !! id = Some dd.
Proof. intros ->. apply elem_of_map_to_list. Qed.

Lemma someDepositRanges_rangesOver d : rangesOverDeposits d (someDepositRanges d).
Proof. by repeat split. Qed.

Lemma markRemoved_spec (m : gmap ID depositDiff) mods (removedDepositIDs : gset ID) id :
  mods ≡ₚ map_to_list m ->
  id ∈ markRemoved mods removedDepositIDs
  <-> id ∈ removedDepositIDs \/ exists dd, m !! id = Some dd /\ removed dd = true.
Proof.
  intros Hmods. rewrite elem_of_markRemoved.
  by setoid_rewrite (elem_of_range m mods _ _ Hmods).
Qed.

(** On the nil set the first loop leaves the diff's variable nil when the
    diff marks no deposit removed; otherwise it leaves a map with what the
    loop puts into an allocated empty set. *)
Lemma markRemoved_nil_spec mods :
  markRemoved_nil mods
  = if bool_decide (Exists (fun kv => removed kv.2 = true) mods)
    then Some (markRemoved mods ∅) else None.
Proof.
  unfold markRemoved_nil, markRemoved.
  assert (Hsome : forall (l : list (ID * depositDiff)) (S0 : gset ID),
            foldl (fun s kv => if removed kv.2 then Some ({[kv.1]} ∪ default ∅ s) else s)
              (Some S0) l
            = Some (foldl (fun s kv => if removed kv.2 then {[kv.1]} ∪ s else s) S0 l)).
  { induction l as [|kv l IH]; intros S0; simpl; [done|].
    destruct (removed kv.2); simpl; apply IH. }
  induction mods as [|kv mods IH]; cbn [foldl].
  - rewrite bool_decide_eq_false_2; [done|]. by intros ?%Exists_nil.
  - destruct (removed kv.2) eqn:Hrem.
    + rewrite bool_decide_eq_true_2 by (by left). apply Hsome.
    + rewrite IH. apply (f_equal (fun b : bool => if b then _ else _)).
      apply bool_decide_ext. rewrite Exists_cons. split; [by right|].
      intros [?|?]; [congruence|done].
Qed.

Lemma markRemoved_none mods (removedDepositIDs : gset ID) :
  ~ Exists (fun kv => removed kv.2 = true) mods ->
  markRemoved mods removedDepositIDs = removedDepositIDs.
Proof.
  unfold markRemoved. induction mods as [|kv mods IH]; simpl; [done|].
  intros Hno. destruct (removed kv.2) eqn:Hrem; [destruct Hno; by left|].
  apply IH. intros ?. apply Hno. by right.
Qed.

Lemma earliestAdded_ext mods (S1 S2 : gset ID) (t : Time) :
  (forall kv, kv ∈ mods -> added kv.2 = true -> (kv.1 ∈ S1 <-> kv.1 ∈ S2)) ->
  earliestAdded mods S1 t = earliestAdded mods S2 t.
Proof.
  unfold earliestAdded. revert t. induction mods as [|kv mods IH]; intros t Hext; simpl; [done|].
  assert (Hkv : added kv.2 && (EndTime (dd_Deposit kv.2) <? t)
                && negb (bool_decide (kv.1 ∈ S1))
                = added kv.2 && (EndTime (dd_Deposit kv.2) <? t)
                  && negb (bool_decide (kv.1 ∈ S2))).
  { destruct (added kv.2) eqn:Hadd; [|done]. simpl.
    rewrite (bool_decide_ext (kv.1 ∈ S1) (kv.1 ∈ S2)); [done|].
    apply Hext; [by left|done]. }
  rewrite Hkv. apply IH. intros kv' Hin. apply Hext. by right.
Qed.

Lemma addedAt_ext mods (S1 S2 : gset ID) (t : Time) (ids0 : list ID) :
  (forall kv, kv ∈ mods -> added kv.2 = true -> (kv.1 ∈ S1 <-> kv.1 ∈ S2)) ->
  addedAt mods S1 t ids0 = addedAt mods S2 t ids0.
Proof.
  unfold addedAt. generalize (ids0, false).
  induction mods as [|kv mods IH]; intros acc Hext; simpl; [done|].
  assert (Hkv : added kv.2 && (EndTime (dd_Deposit kv.2) =? t)
                && negb (bool_decide (kv.1 ∈ S1))
                = added kv.2 && (EndTime (dd_Deposit kv.2) =? t)
                  && negb (bool_decide (kv.1 ∈ S2))).
  { destruct (added kv.2) eqn:Hadd; [|done]. simpl.
    rewrite (bool_decide_ext (kv.1 ∈ S1) (kv.1 ∈ S2)); [done|].
    apply Hext; [by left|done]. }
  rewrite Hkv. apply IH. intros kv' Hin. apply Hext. by right.
Qed.

(** What the two functions return on the nil set, next to what they return
    on an allocated empty set.  When the diff marks a deposit removed, the
    first [Add] allocates a map, and from there on the run is the run on an
    allocated set.  When it marks none, the parent is handed the nil set and
    the diff does not see what the parent adds: the two runs return the
    same when the parent returns the same for the nil set as for an
    allocated empty one, and adds to the latter none of the identifiers
    that the diff adds. *)
Lemma nil_set_as_empty_set (MaxTime : Time) (d : diff) (o : DepositRanges) :
  (forall P,
     stateVersions d (parentID d) = Some P ->
     ~ Exists (fun kv => removed kv.2 = true) (rangeRemoved o) ->
     Chain_GetNextToUnlockDepositTime_nil P = (Chain_GetNextToUnlockDepositTime P ∅).1
     /\ Chain_GetNextToUnlockDepositIDsAndTime_nil P
        = (Chain_GetNextToUnlockDepositIDsAndTime P ∅).1
     /\ (forall kv, kv ∈ rangeEarliest o ++ rangeAdded o -> added kv.2 = true ->
           (kv.1 ∉ (Chain_GetNextToUnlockDepositTime P ∅).2)
           /\ (kv.1 ∉ (Chain_GetNextToUnlockDepositIDsAndTime P ∅).2))) ->
  answer d (GetNextToUnlockDepositTime_nil_in o MaxTime d)
  = (answer d (GetNextToUnlockDepositTime_in o MaxTime d ∅)).1
  /\ answer d (GetNextToUnlockDepositIDsAndTime_nil_in o MaxTime d)
     = (answer d (GetNextToUnlockDepositIDsAndTime_in o MaxTime d ∅)).1.
Proof.
  intros Hparent.
  unfold GetNextToUnlockDepositTime_nil_in, GetNextToUnlockDepositIDsAndTime_nil_in,
    GetNextToUnlockDepositTime_in, GetNextToUnlockDepositIDsAndTime_in.
  simpl. destruct (stateVersions d (parentID d)) as [P|] eqn:HP; [|done].
  rewrite markRemoved_nil_spec. case_bool_decide as Hrem.
  - split.
    + destruct (Chain_GetNextToUnlockDepositTime P _) as [[t err] S'].
      destruct (isOtherError err); [done|]. by case_match.
    + destruct (Chain_GetNextToUnlockDepositIDsAndTime P _) as [[[ids t] err] S'].
      destruct (isOtherError err); [done|]. case_match; [done|]. by case_match.
  - destruct (Hparent P eq_refl Hrem) as (Ht & Hi & Hfresh).
    rewrite (markRemoved_none _ _ Hrem), Ht, Hi.
    assert (Hext1 : forall kv, kv ∈ rangeEarliest o -> added kv.2 = true ->
              kv.1 ∈ (∅ : gset ID) <-> kv.1 ∈ (Chain_GetNextToUnlockDepositTime P ∅).2).
    { intros kv Hin Hadd. destruct (Hfresh kv) as [Hn _]; [apply elem_of_app; by left|done|].
      split; [by intros ?%elem_of_empty|done]. }
    assert (Hext2 : forall kv, kv ∈ rangeEarliest o -> added kv.2 = true ->
              kv.1 ∈ (∅ : gset ID)
              <-> kv.1 ∈ (Chain_GetNextToUnlockDepositIDsAndTime P ∅).2).
    { intros kv Hin Hadd. destruct (Hfresh kv) as [_ Hn]; [apply elem_of_app; by left|done|].
      split; [by intros ?%elem_of_empty|done]. }
    assert (Hext3 : forall kv, kv ∈ rangeAdded o -> added kv.2 = true ->
              kv.1 ∈ (∅ : gset ID)
              <-> kv.1 ∈ (Chain_GetNextToUnlockDepositIDsAndTime P ∅).2).
    { intros kv Hin Hadd. destruct (Hfresh kv) as [_ Hn]; [apply elem_of_app; by right|done|].
      split; [by intros ?%elem_of_empty|done]. }
    split.
    + destruct (Chain_GetNextToUnlockDepositTime P ∅) as [[t err] S'] eqn:HPt.
      simpl in *. destruct (isOtherError err); [done|].
      rewrite (earliestAdded_ext _ ∅ S' t Hext1). by case_match.
    + destruct (Chain_GetNextToUnlockDepositIDsAndTime P ∅) as [[[ids t] err] S'] eqn:HPi.
      simpl in *. destruct (isOtherError err); [done|].
      rewrite (earliestAdded_ext _ ∅ S' t Hext2). case_match; [done|].
      rewrite (addedAt_ext _ ∅ S' _ _ Hext3). by case_match.
Qed.




(** ** The next deposit to unlock *)

Section NextToUnlock.
Context (removedDepositIDs : gset ID).

Lemma earliestAdded_spec mods (t0 : Time) :
  earliestAdded mods removedDepositIDs t0 <= t0
  /\ (forall kv, kv ∈ mods -> candidate removedDepositIDs kv ->
        earliestAdded mods removedDepositIDs t0 <= EndTime (dd_Deposit kv.2))
  /\ (earliestAdded mods removedDepositIDs t0 = t0
      \/ exists kv, kv ∈ mods /\ candidate removedDepositIDs kv
           /\ EndTime (dd_Deposit kv.2) = earliestAdded mods removedDepositIDs t0).
Proof.
  unfold earliestAdded, candidate. revert t0.
  induction mods as [|kv mods IH]; intros t0; simpl.
  - split; [lia|]. split; [|by left]. intros kv Hin. by apply elem_of_nil in Hin.
  - match goal with |- context [foldl ?f (if ?c then ?a else ?b) mods] =>
      set (t1 := if c then a else b); destruct (IH t1) as (Hle & Hmin & Hwit);
      assert (Ht1 : t1 <= t0
                    /\ (added kv.2 = true -> kv.1 ∉ removedDepositIDs ->
                        t1 <= EndTime (dd_Deposit kv.2))
                    /\ (t1 = t0 \/ (added kv.2 = true /\ (kv.1 ∉ removedDepositIDs)
                                    /\ EndTime (dd_Deposit kv.2) = t1)))
    end.
    { subst t1. destruct (added kv.2); simpl; [|repeat split; (lia || done || by left)].
      case_bool_decide; simpl; rewrite ?andb_false_r; [repeat split; (lia || done || by left)|].
      rewrite andb_true_r. destruct (Z.ltb_spec (EndTime (dd_Deposit kv.2)) t0).
      - repeat split; [lia|lia|right; done].
      - repeat split; [lia|lia|left; done]. }
    destruct Ht1 as (Ht1le & Ht1kv & Ht1wit).
    split; [lia|]. split.
    + intros kv' [->|Hin]%elem_of_cons [Hadd Hnot].
      * specialize (Ht1kv Hadd Hnot). lia.
      * by apply Hmin.
    + destruct Hwit as [Heq|(kv' & Hin & Hc & Hend)].
      * rewrite Heq. destruct Ht1wit as [->|(Hadd & Hnot & Hend)]; [by left|].
        right. exists kv. split; [by left|done].
      * right. exists kv'. split; [by right|done].
Qed.

Lemma addedAt_spec mods (t : Time) (ids0 : list ID) (flag : bool) :
  foldl (fun acc kv =>
           if added kv.2 && (EndTime (dd_Deposit kv.2) =? t)
              && negb (bool_decide (kv.1 ∈ removedDepositIDs))
           then (acc.1 ++ [kv.1], true) else acc)
        (ids0, flag) mods
  = (ids0 ++ (filter (fun kv => candidate removedDepositIDs kv /\ EndTime (dd_Deposit kv.2) = t) mods).*1,
     flag || bool_decide
               (filter (fun kv => candidate removedDepositIDs kv /\ EndTime (dd_Deposit kv.2) = t) mods <> [])).
Proof.
  unfold candidate. revert ids0 flag.
  induction mods as [|kv mods IH]; intros ids0 flag; simpl.
  - by rewrite app_nil_r, orb_false_r.
  - rewrite filter_cons. case_decide as Hc.
    + destruct Hc as [[Ha Hn] He].
      rewrite Ha, (bool_decide_eq_false_2 _ Hn), (proj2 (Z.eqb_eq _ _) He). simpl.
      rewrite IH. simpl. rewrite <- app_assoc. simpl. f_equal.
      by rewrite orb_true_r.
    + assert (added kv.2 && (EndTime (dd_Deposit kv.2) =? t)
              && negb (bool_decide (kv.1 ∈ removedDepositIDs)) = false) as ->.
      { apply not_true_is_false. intros H.
        apply andb_prop in H as [[Ha He]%andb_prop Hn].
        apply Z.eqb_eq in He. apply negb_true_iff, bool_decide_eq_false in Hn.
        by apply Hc. }
      apply IH.
Qed.

End NextToUnlock.

Lemma sortIDs_when_needed (ids0 L : list ID) :
  Sorted N.le ids0 ->
  Sorted N.le (if bool_decide (L <> []) then sortIDs (ids0 ++ L) else ids0 ++ L)
  /\ forall id,
       id ∈ (if bool_decide (L <> []) then sortIDs (ids0 ++ L) else ids0 ++ L)
       <-> id ∈ ids0 \/ id ∈ L.
Proof.
  intros Hsorted. case_bool_decide as HL.
  - split; [apply Sorted_merge_sort; apply _|].
    intros id. unfold sortIDs. by rewrite merge_sort_Permutation, elem_of_app.
  - destruct L; [|discriminate HL]. rewrite app_nil_r. split; [done|].
    intros id. rewrite elem_of_nil. tauto.
Qed.

(** What the diff answers, given what its parent answers. *)
Lemma GetNextToUnlockDepositIDsAndTime_spec (MaxTime : Time) (d : diff) (P : Chain)
    (o : DepositRanges) (deposits : ID -> Time -> Prop) (adds S : gset ID) :
  stateVersions d (parentID d) = Some P ->
  rangesOverDeposits d o ->
  answersFor MaxTime P deposits adds ->
  (forall id dd,
     modifiedDeposits (caminoDiff_ d) !! id = Some dd -> added dd = true -> id ∉ adds) ->
  (forall id,
     id ∈ (answer d (GetNextToUnlockDepositIDsAndTime_in o MaxTime d S)).2
     <-> id ∈ S \/ markedRemoved d id \/ id ∈ adds)
  /\ nextToUnlock MaxTime (fun id t => effective d deposits id t /\ id ∉ S)
       (answer d (GetNextToUnlockDepositIDsAndTime_in o MaxTime d S)).1.
Proof.
  intros HP (Ho1 & Ho2 & Ho3) Hparent Hfresh.
  unfold GetNextToUnlockDepositIDsAndTime_in. simpl. rewrite HP.
  set (m := modifiedDeposits (caminoDiff_ d)) in *.
  set (S1 := markRemoved (rangeRemoved o) S).
  assert (HS1 : forall id, id ∈ S1 <-> id ∈ S \/ markedRemoved d id).
  { intros id. by apply markRemoved_spec. }
  destruct (Hparent S1) as [Hset Hspec].
  destruct (Chain_GetNextToUnlockDepositIDsAndTime P S1) as [[[pids pt] perr] S'].
  simpl in Hset, Hspec. subst S'.
  (* the added deposits that the loops consider *)
  assert (Hcand : forall id dd, m !! id = Some dd ->
            (added dd = true /\ id ∉ S1 ∪ adds)
            <-> (added dd = true /\ removed dd = false /\ id ∉ S)).
  { intros id dd Hdd. rewrite elem_of_union, HS1. split.
    - intros [Hadd Hnot]. split; [done|]. split; [|tauto].
      destruct (removed dd) eqn:Hrem; [|done].
      destruct Hnot. left. right. by exists dd.
    - intros (Hadd & Hrem & HnS). split; [done|].
      intros [[?|(dd' & Hdd' & Hrem')]|Hadds]; [done| |by eapply Hfresh].
      unfold m in Hdd. congruence. }
  assert (Hlive : forall id t,
            (effective d deposits id t /\ id ∉ S)
            <-> (deposits id t /\ id ∉ S1)
                \/ (exists dd, m !! id = Some dd
                      /\ (added dd = true /\ id ∉ S1 ∪ adds)
                      /\ EndTime (dd_Deposit dd) = t)).
  { intros id t. unfold effective. rewrite HS1. split.
    - intros [[[Hdep Hnrem]|(dd & Hdd & Hadd & Hrem & Hend)] HnS]; [left; tauto|].
      right. exists dd. rewrite Hcand by done. tauto.
    - intros [[Hdep Hn]|(dd & Hdd & Hc & Hend)]; [tauto|].
      apply Hcand in Hc as (Hadd & Hrem & HnS); [|done].
      split; [|done]. right. by exists dd. }
  destruct (earliestAdded_spec (S1 ∪ adds) (rangeEarliest o) pt) as (Hle & Hmin & Hwit).
  unfold candidate in Hmin, Hwit.
  set (t := earliestAdded (rangeEarliest o) (S1 ∪ adds) pt) in *.
  assert (Hmin' : forall id dd, m !! id = Some dd ->
            added dd = true /\ id ∉ S1 ∪ adds -> t <= EndTime (dd_Deposit dd)).
  { intros id dd Hdd Hc. apply (Hmin (id, dd)); [by apply (elem_of_range m)|done]. }
  assert (Hwit' : t = pt \/ exists id dd, m !! id = Some dd
                    /\ (added dd = true /\ id ∉ S1 ∪ adds)
                    /\ EndTime (dd_Deposit dd) = t).
  { destruct Hwit as [?|([id dd] & Hin & Hc & Hend)]; [by left|].
    apply (elem_of_range m _ _ _ Ho2) in Hin. right. by exists id, dd. }
  clear Hmin Hwit.
  assert (Hother : isOtherError perr = false).
  { destruct Hspec as [[_ [= _ _ ->]]|(? & ? & [= _ _ ->] & _)]; done. }
  rewrite Hother. split.
  { intros id. destruct (t =? MaxTime); [|case_match]; simpl;
      rewrite elem_of_union, HS1; tauto. }
  unfold addedAt. rewrite addedAt_spec. unfold candidate. simpl.
  set (L := filter _ (rangeAdded o)).
  assert (HL : forall id, id ∈ L.*1 <->
            exists dd, m !! id = Some dd
              /\ (added dd = true /\ id ∉ S1 ∪ adds)
              /\ EndTime (dd_Deposit dd) = t).
  { intros id. rewrite list_elem_of_fmap. split.
    - intros ([id' dd] & -> & [Hc Hin]%list_elem_of_filter).
      apply (elem_of_range m _ _ _ Ho3) in Hin. exists dd. tauto.
    - intros (dd & Hdd & Hc & Hend). exists (id, dd). split; [done|].
      apply list_elem_of_filter. split; [done|]. by apply (elem_of_range m). }
  assert (HLnil : bool_decide (L <> []) = bool_decide (L.*1 <> [])).
  { apply bool_decide_ext. by destruct L. }
  rewrite HLnil. clear HLnil.
  destruct (Z.eqb_spec t MaxTime) as [HtMax|HtMax]; simpl.
  - (* nothing ends before MaxTime *)
    left. split; [|done]. intros (id & t' & Hl & Hlt).
    apply Hlive in Hl as [Hpl|(dd & Hdd & Hc & Hend)].
    + destruct Hspec as [[Hnone _]|(? & ? & [= _ -> _] & Hlt' & _)]; [|lia].
      apply Hnone. by exists id, t'.
    + specialize (Hmin' _ _ Hdd Hc). lia.
  - right.
    destruct Hspec as [[Hnone [= -> -> ->]]
                      |(? & ? & [= <- <- ->] & Hplt & Hpex & Hpmin & Hpsorted & Hpids)].
    + (* the parent has nothing to unlock *)
      destruct Hwit' as [?|(id0 & dd0 & Hdd0 & Hc0 & Hend0)]; [done|].
      destruct (sortIDs_when_needed
                  (if negb (t <? MaxTime) then [] else []) (L.*1)) as [Hsorted Hmem].
      { by destruct (negb (t <? MaxTime)). }
      eexists _, t. split; [reflexivity|].
      split; [lia|]. split; [|split; [|split; [done|]]].
      * exists id0. apply Hlive. right. by exists dd0.
      * intros id t' [Hpl|(dd & Hdd & Hc & Hend)]%Hlive.
        -- destruct (Z.lt_ge_cases t' MaxTime); [|lia].
           destruct Hnone. by exists id, t'.
        -- specialize (Hmin' _ _ Hdd Hc). lia.
      * intros id. rewrite Hmem, Hlive, HL.
        split; [intros [Hin|?]; [|by right]|intros [Hpl|?]; [|by right]].
        -- destruct (negb (t <? MaxTime)); by apply elem_of_nil in Hin.
        -- destruct Hnone. exists id, t. split; [done|lia].
    + (* the parent has deposits to unlock at pt *)
      destruct (sortIDs_when_needed
                  (if negb (t <? pt) then pids else []) (L.*1)) as [Hsorted Hmem].
      { destruct (negb (t <? pt)); [done|constructor]. }
      eexists _, t. split; [reflexivity|].
      split; [lia|]. split; [|split; [|split; [done|]]].
      * destruct Hwit' as [->|(id0 & dd0 & Hdd0 & Hc0 & Hend0)].
        -- destruct Hpex as [id0 Hid0]. exists id0. apply Hlive. by left.
        -- exists id0. apply Hlive. right. by exists dd0.
      * intros id t' [Hpl|(dd & Hdd & Hc & Hend)]%Hlive.
        -- specialize (Hpmin _ _ Hpl). lia.
        -- specialize (Hmin' _ _ Hdd Hc). lia.
      * intros id. rewrite Hmem, Hlive, HL.
        split; [intros [Hin|?]; [|by right]|intros [Hpl|?]; [|by right]].
        -- left. destruct (Z.ltb_spec t pt); simpl in Hin; [by apply elem_of_nil in Hin|].
           assert (t = pt) as -> by lia. by apply Hpids.
        -- left. specialize (Hpmin _ _ Hpl).
           assert (t = pt) as -> by lia.
           rewrite Z.ltb_irrefl. simpl. by apply Hpids.
Qed.

Lemma scenarioParent_answersFor (MaxTime xEnd : Time) :
  answersFor MaxTime (scenarioParent MaxTime xEnd) (scenarioDeposits xEnd) ∅.
Proof.
  intros S. split.
  { change (S = S ∪ ∅). symmetry. apply union_empty_r_L. }
  unfold scenarioDeposits, scenarioParent.
  cbn [Chain_GetNextToUnlockDepositIDsAndTime fst]. case_decide as Hcase.
  - left. split; [|done]. intros (id & t & [[-> ->] HnS] & Hlt). destruct Hcase; [done|lia].
  - right. exists [idX], xEnd. split; [done|].
    assert ((idX ∉ S) /\ xEnd < MaxTime) as [HnS Hlt].
    { split; [tauto|]. destruct (Z.lt_ge_cases xEnd MaxTime); [done|tauto]. }
    split; [done|]. split; [by exists idX|]. split; [intros id t' [[_ ->] _]; lia|].
    split; [repeat constructor|].
    intros id. rewrite list_elem_of_singleton. split; [by intros ->|by intros [[-> _] _]].
Qed.

Lemma elem_of_removedIDs d id : id ∈ removedIDs d <-> markedRemoved d id.
Proof.
  unfold removedIDs, markedRemoved. rewrite elem_of_dom. unfold is_Some.
  by setoid_rewrite map_lookup_filter_Some.
Qed.

(** A diff over a parent that answers for its deposits answers, in turn,
    for its effective deposit set: the rule carries along a chain of diffs. *)
Lemma diffChain_answersFor (MaxTime : Time) Match rangeOrder (d : diff) (P : Chain)
    (deposits : ID -> Time -> Prop) (adds : gset ID) :
  stateVersions d (parentID d) = Some P ->
  answersFor MaxTime P deposits adds ->
  (forall id dd,
     modifiedDeposits (caminoDiff_ d) !! id = Some dd -> added dd = true -> id ∉ adds) ->
  answersFor MaxTime (diffChain MaxTime Match rangeOrder d)
    (effective d deposits) (adds ∪ removedIDs d).
Proof.
  intros HP Hparent Hfresh S.
  destruct (GetNextToUnlockDepositIDsAndTime_spec MaxTime d P (someDepositRanges d)
              deposits adds S HP (someDepositRanges_rangesOver d) Hparent Hfresh)
    as [Hset Hspec].
  split; [|exact Hspec].
  apply set_eq. intros id. unfold diffChain. simpl.
  rewrite Hset, !elem_of_union, elem_of_removedIDs. tauto.
Qed.

(** Why the deposits that a diff adds must not carry an identifier that
    the parent adds to the caller's set: the parent, itself a diff, removes
    [X] and so puts [X] into the set; the diff above it adds [X] anew,
    ending at 900, and then finds [X] in the set and passes it over. *)
Lemma readded_deposit_hidden_by_parent_removal :
  let d := performAll (scenarioDiff removingParent) [OpAddDeposit idX (depositEnding 900)] in
  effective d (fun _ _ => False) idX 900
  /\ (answer d (GetNextToUnlockDepositIDsAndTime scenarioMaxTime d ∅))
     = ([], scenarioMaxTime, Some ErrNotFound, {[ idX ]}).
Proof.
  intros d. split.
  - right. eexists. split; [reflexivity|]. repeat split.
  - vm_compute. reflexivity.
Qed.







(** ** Locked UTXOs *)

Lemma bind_updateExisting_snoc modified l u :
  (l ++ [u]) ≫= updateExisting modified
  = (l ≫= updateExisting modified) ++ updateExisting modified u.
Proof. rewrite bind_app. simpl. by rewrite app_nil_r. Qed.

Lemma difference_difference_singleton (X Z : gset ID) (x : ID) :
  (X ∖ {[ x ]}) ∖ Z = X ∖ (Z ∪ ({[ x ]} ∪ ∅)).
Proof.
  apply set_eq. intros y.
  rewrite !elem_of_difference, !elem_of_union, elem_of_empty. tauto.
Qed.

(** The matched entries of the diff, by the identifier stored in them. *)
Lemma stepExisting_spec modified (i : nat) (retUtxos : list UTXO) (remaining : gset ID) :
  (i <= length retUtxos)%nat ->
  stepExisting modified i retUtxos remaining
  = ((take i retUtxos ≫= updateExisting modified) ++ drop i retUtxos,
     remaining ∖ list_to_set
                   (take i retUtxos ≫= fun u =>
                      match modified !! InputID u with
                      | Some m => [utxoID m]
                      | None => []
                      end)).
Proof.
  revert retUtxos remaining. induction i as [|j IH]; intros ret rem Hlen.
  - rewrite take_0, drop_0. simpl. by rewrite difference_empty_L.
  - destruct (lookup_lt_is_Some_2 ret j) as [u Hu]; [lia|].
    simpl. rewrite Hu.
    rewrite (take_S_r _ _ _ Hu), bind_updateExisting_snoc, bind_app.
    unfold updateExisting at 2. simpl.
    destruct (modified !! InputID u) as [m|] eqn:Hm.
    + assert (Hlen_take : length (take j ret) = j) by (rewrite length_take; lia).
      destruct (utxo m) as [u'|].
      * rewrite IH by (rewrite length_insert; lia).
        rewrite take_insert_ge by lia.
        rewrite drop_insert_ge by lia.
        rewrite Nat.sub_diag.
        rewrite (drop_S _ _ _ Hu). simpl.
        rewrite <- app_assoc. simpl. f_equal.
        rewrite list_to_set_app_L. simpl. apply difference_difference_singleton.
      * rewrite IH by (rewrite length_app, length_take, length_drop; lia).
        rewrite take_app_length' by done.
        rewrite drop_app_length' by done.
        rewrite app_nil_r. f_equal.
        rewrite list_to_set_app_L. simpl. apply difference_difference_singleton.
    + rewrite IH by lia. rewrite (drop_S _ _ _ Hu).
      rewrite <- app_assoc. simpl. f_equal.
      rewrite list_to_set_app_L. simpl. by rewrite union_empty_r_L.
Qed.

Lemma stepAppend_spec Match modified txIDs lockState order retUtxos :
  stepAppend Match modified txIDs lockState order retUtxos
  = retUtxos ++ omap (introduced Match modified txIDs lockState) order.
Proof.
  unfold stepAppend. revert retUtxos.
  induction order as [|utxoID order IH]; intros ret; simpl.
  - by rewrite app_nil_r.
  - rewrite IH. unfold introduced at 2.
    destruct (modified !! utxoID) as [[k [u|]]|]; simpl; try done.
    destruct (UTXO_Out u); try done.
    destruct (Match ids lockState txIDs); try done.
    by rewrite <- app_assoc.
Qed.

Lemma remaining_after_stepExisting (modified : gmap ID utxoModification)
    (retUtxos : list UTXO) :
  (forall k m, modified !! k = Some m -> utxoID m = k) ->
  dom modified ∖ list_to_set
                   (retUtxos ≫= fun u =>
                      match modified !! InputID u with
                      | Some m => [utxoID m]
                      | None => []
                      end)
  = dom modified ∖ list_to_set (InputID <$> retUtxos).
Proof.
  intros Hwf. apply set_eq. intros x.
  rewrite !elem_of_difference, !elem_of_list_to_set, list_elem_of_bind, list_elem_of_fmap.
  split; intros [Hdom Hnot]; (split; [done|]).
  - intros (u & -> & Hu). apply Hnot. exists u. split; [|done].
    apply elem_of_dom in Hdom as [m Hm]. rewrite Hm, (Hwf _ _ Hm). by left.
  - intros (u & Hx & Hu). apply Hnot. exists u. split; [|done].
    destruct (modified !! InputID u) as [m|] eqn:Hm; [|by apply elem_of_nil in Hx].
    apply list_elem_of_singleton in Hx. by rewrite Hx, (Hwf _ _ Hm).
Qed.

(** C4, as the claim puts it, fails.  The parent answers with the UTXO 1,
    bonded by the transaction 20; the diff holds a new version of the UTXO
    1 that is no longer locked.  The claim takes the UTXO out of the answer
    (its identifier appears in the diff, and the new version does not match
    the lock state); the source returns the new version in its place. *)
Lemma LockedUTXOs_replaces_instead_of_removing :
  let d := utxoDiff [bondedUTXO 1 20] [{| utxoID := 1%N; utxo := Some (plainUTXO 1) |}] in
  answer d (LockedUTXOs scenarioMatch elements d {[ 20%N ]} ∅ StateBonded)
  = Ok [plainUTXO 1]
  /\ LockedUTXOs_spec scenarioMatch (modifiedUTXOs d) {[ 20%N ]} StateBonded
       [bondedUTXO 1 20]
     = [].
Proof. split; vm_compute; reflexivity. Qed.

(** C4, amended.  Let the parent of the diff be resolvable and answer
    [parentUTXOs], and let every entry of [modifiedUTXOs] be filed under
    the identifier stored in it.  Then LockedUTXOs returns the parent's
    answer in which (1) every UTXO with a nil entry in [modifiedUTXOs] is
    removed and every UTXO with a non-nil entry is replaced, where it
    stands, by the diff's UTXO, followed by (2) the UTXOs that the diff holds
    under identifiers absent from the parent's answer and whose lock
    identifiers match [lockState] and [txIDs], in the order of the range. *)
Theorem LockedUTXOs_updates_in_place
    (Match : LockIDs -> LockState -> gset ID -> bool) (rangeOrder : gset ID -> list ID)
    (d : diff) (P : Chain) (txIDs : gset ID) (addresses : gset ShortID)
    (lockState : LockState) (parentUTXOs : list UTXO) :
  stateVersions d (parentID d) = Some P ->
  Chain_LockedUTXOs P txIDs addresses lockState = Ok parentUTXOs ->
  (forall k m, modifiedUTXOs d !! k = Some m -> utxoID m = k) ->
  (forall s, rangeOrder s ≡ₚ elements s) ->
  exists appended,
    answer d (LockedUTXOs Match rangeOrder d txIDs addresses lockState)
    = Ok ((parentUTXOs ≫= updateExisting (modifiedUTXOs d)) ++ appended)
    /\ appended
       ≡ₚ omap (introduced Match (modifiedUTXOs d) txIDs lockState)
            (elements (dom (modifiedUTXOs d) ∖ list_to_set (InputID <$> parentUTXOs))).
Proof.
  intros HP Hparent Hwf Horder.
  unfold LockedUTXOs, fromParent. simpl. rewrite HP, Hparent.
  rewrite stepExisting_spec by done.
  rewrite firstn_all, drop_all, app_nil_r, stepAppend_spec.
  eexists. split; [reflexivity|].
  by rewrite Horder, remaining_after_stepExisting.
Qed.

(** The parent answers with the bonded UTXOs 1, 2 and 3.  The diff deletes
    1, holds a new version of 2 and adds the bonded UTXO 4 and the plain
    UTXO 5: the answer is the new 2, then 3, then 4. *)
Lemma LockedUTXOs_updates_in_place_witness :
  answer (utxoDiff [bondedUTXO 1 20; bondedUTXO 2 20; bondedUTXO 3 20]
            [{| utxoID := 1%N; utxo := None |};
             {| utxoID := 2%N; utxo := Some (bondedUTXO 2 21) |};
             {| utxoID := 4%N; utxo := Some (bondedUTXO 4 20) |};
             {| utxoID := 5%N; utxo := Some (plainUTXO 5) |}])
    (LockedUTXOs scenarioMatch elements
       (utxoDiff [bondedUTXO 1 20; bondedUTXO 2 20; bondedUTXO 3 20]
          [{| utxoID := 1%N; utxo := None |};
           {| utxoID := 2%N; utxo := Some (bondedUTXO 2 21) |};
           {| utxoID := 4%N; utxo := Some (bondedUTXO 4 20) |};
           {| utxoID := 5%N; utxo := Some (plainUTXO 5) |}])
       {[ 20%N ]} ∅ StateBonded)
  = Ok [bondedUTXO 2 21; bondedUTXO 3 20; bondedUTXO 4 20]
  /\ exists appended,
       answer (utxoDiff [bondedUTXO 1 20; bondedUTXO 2 20; bondedUTXO 3 20]
                 [{| utxoID := 1%N; utxo := None |};
                  {| utxoID := 2%N; utxo := Some (bondedUTXO 2 21) |};
                  {| utxoID := 4%N; utxo := Some (bondedUTXO 4 20) |};
                  {| utxoID := 5%N; utxo := Some (plainUTXO 5) |}])
         (LockedUTXOs scenarioMatch elements
            (utxoDiff [bondedUTXO 1 20; bondedUTXO 2 20; bondedUTXO 3 20]
               [{| utxoID := 1%N; utxo := None |};
                {| utxoID := 2%N; utxo := Some (bondedUTXO 2 21) |};
                {| utxoID := 4%N; utxo := Some (bondedUTXO 4 20) |};
                {| utxoID := 5%N; utxo := Some (plainUTXO 5) |}])
            {[ 20%N ]} ∅ StateBonded)
       = Ok ([bondedUTXO 2 21; bondedUTXO 3 20] ++ appended)
       /\ appended ≡ₚ [bondedUTXO 4 20].
Proof.
  split; [vm_compute; reflexivity|].
  destruct (LockedUTXOs_updates_in_place scenarioMatch elements
              (utxoDiff [bondedUTXO 1 20; bondedUTXO 2 20; bondedUTXO 3 20]
                 [{| utxoID := 1%N; utxo := None |};
                  {| utxoID := 2%N; utxo := Some (bondedUTXO 2 21) |};
                  {| utxoID := 4%N; utxo := Some (bondedUTXO 4 20) |};
                  {| utxoID := 5%N; utxo := Some (plainUTXO 5) |}])
              (withLockedUTXOs (scenarioParent scenarioMaxTime 1000)
                 [bondedUTXO 1 20; bondedUTXO 2 20; bondedUTXO 3 20])
              {[ 20%N ]} ∅ StateBonded
              [bondedUTXO 1 20; bondedUTXO 2 20; bondedUTXO 3 20])
    as (appended & Hr & Happ).
  - reflexivity.
  - reflexivity.
  - intros k m Hkm. apply elem_of_list_to_map_2 in Hkm.
    by apply list_elem_of_fmap in Hkm as (m' & [= -> ->] & _).
  - done.
  - exists appended. split; [exact Hr|].
    rewrite Happ. vm_compute. reflexivity.
Defined.

(** ** The claim transaction *)

(** C5, as the claim puts it, fails.  The builder is asked to claim for
    two deposits.  The transaction it returns has one input and two
    credentials: the one of the input and a single trailing credential,
    where the claim counts one trailing credential per listed deposit. *)
Lemma NewClaimTx_one_credential_for_two_deposits :
  exists tx,
    NewClaimTx (scenarioBuilder [] scenarioDecode 100) [21%N; 22%N] [] [5; 5]
      (Some ownerA) [keyA] (Some ownerA)
    = (Some tx, None)
    /\ length (Creds tx) = 2%nat
    /\ claimedCredentials [feeInput] [21%N; 22%N] [] = 3%nat.
Proof. eexists. split; [vm_compute; reflexivity|]. split; reflexivity. Qed.

Lemma Keychain_Add_keys kc key key' :
  key' ∈ Keys (Keychain_Add kc key) -> key' ∈ Keys kc \/ key' = key.
Proof.
  unfold Keychain_Add. case_bool_decide as Hin; [by left|]. simpl.
  intros [Hk|Hk]%elem_of_app; [by left|right].
  by apply list_elem_of_singleton in Hk.
Qed.

Lemma Keychain_Add_addresses kc key a :
  a ∈ Key_Address <$> Keys kc \/ a = Key_Address key ->
  a ∈ Key_Address <$> Keys (Keychain_Add kc key).
Proof.
  unfold Keychain_Add. case_bool_decide as Hin; simpl.
  - intros [Ha|Ha]; [done|by subst a].
  - rewrite fmap_app, elem_of_app. intros [Ha|Ha]; [by left|right].
    subst a. by apply list_elem_of_singleton.
Qed.

Lemma foldl_Keychain_Add_keys keys kc key :
  key ∈ Keys (foldl Keychain_Add kc keys) -> key ∈ Keys kc \/ key ∈ keys.
Proof.
  revert kc. induction keys as [|k keys IH]; intros kc; simpl; [by left|].
  intros [Hk|Hk]%IH.
  - apply Keychain_Add_keys in Hk as [Hk|Hk]; [by left|].
    subst key. right. by left.
  - right. by right.
Qed.

Lemma foldl_Keychain_Add_addresses keys kc a :
  a ∈ Key_Address <$> Keys kc \/ a ∈ Key_Address <$> keys ->
  a ∈ Key_Address <$> Keys (foldl Keychain_Add kc keys).
Proof.
  revert kc. induction keys as [|k keys IH]; intros kc; simpl.
  - intros [Ha|Ha]; [done|by apply elem_of_nil in Ha].
  - rewrite elem_of_cons. intros [Ha|[Ha|Ha]]; apply IH.
    + left. apply Keychain_Add_addresses. by left.
    + left. apply Keychain_Add_addresses. by right.
    + by right.
Qed.

Lemma Keychain_Add_NoDup kc key :
  NoDup (Key_Address <$> Keys kc) -> NoDup (Key_Address <$> Keys (Keychain_Add kc key)).
Proof.
  intros Hnd. unfold Keychain_Add. case_bool_decide as Hin; [done|]. simpl.
  rewrite fmap_app. apply NoDup_app. split; [done|]. split; [|apply NoDup_singleton].
  intros a Ha Hk. apply list_elem_of_singleton in Hk. by subst a.
Qed.

Lemma foldl_Keychain_Add_NoDup keys kc :
  NoDup (Key_Address <$> Keys kc) ->
  NoDup (Key_Address <$> Keys (foldl Keychain_Add kc keys)).
Proof.
  revert kc. induction keys as [|k keys IH]; intros kc Hnd; simpl; [done|].
  by apply IH, Keychain_Add_NoDup.
Qed.

(** The loop over the listed deposits succeeds exactly when every listed
    deposit resolves to its rewards owner and the keys can sign for each of
    these owners; it then has added to the keychain the keys matched for
    each owner, in the order of the list. *)
Lemma depositSigners_spec b keys depositTxIDs kc0 kc1 :
  depositSigners b (NewKeychain keys) depositTxIDs kc0 = Ok kc1
  <-> exists depositOwners,
        Forall2 (fun depositTxID owner => getDepositRewardsOwner b depositTxID = Ok owner)
          depositTxIDs depositOwners
        /\ Forall (fun owner => ableToSign b keys owner = true) depositOwners
        /\ kc1 = foldl Keychain_Add kc0 (depositOwners ≫= matchedKeys b keys).
Proof.
  revert kc0. induction depositTxIDs as [|depositTxID rest IH]; intros kc0; simpl.
  - split.
    + intros [= <-]. exists []. by repeat split.
    + intros (owners & Hn%Forall2_nil_inv_l & _ & ->). by subst owners.
  - destruct (getDepositRewardsOwner b depositTxID) as [owner|e] eqn:Ho.
    + destruct (b_Match b (NewKeychain keys) owner (b_clkUnix b))
        as [[sigIdxs signers] able] eqn:Hm.
      assert (Hkeys : matchedKeys b keys owner = signers)
        by (unfold matchedKeys; by rewrite Hm).
      assert (Hable : ableToSign b keys owner = able)
        by (unfold ableToSign; by rewrite Hm).
      destruct able; simpl.
      * rewrite IH. split.
        -- intros (owners & Hall & Hcan & ->). exists (owner :: owners).
           split; [by constructor|]. split; [by constructor|].
           simpl. by rewrite foldl_app, Hkeys.
        -- intros (owners & Hall & Hcan & ->).
           apply Forall2_cons_inv_l in Hall as (owner' & owners' & Ho' & Hall & ->).
           assert (owner' = owner) as -> by congruence.
           apply Forall_cons in Hcan as [_ Hcan].
           exists owners'. split; [done|]. split; [done|].
           simpl. by rewrite foldl_app, Hkeys.
      * split; [done|]. intros (owners & Hall & Hcan & _).
        apply Forall2_cons_inv_l in Hall as (owner' & owners' & Ho' & Hall & ->).
        assert (owner' = owner) as -> by congruence.
        apply Forall_cons in Hcan as [Hcan _]. congruence.
    + split; [done|]. intros (owners & Hall & _).
      apply Forall2_cons_inv_l in Hall as (owner' & owners' & Ho' & _). congruence.
Qed.

(** The loop over the listed claimable owners, likewise. *)
Lemma claimableSigners_spec b keys claimableOwnerIDs kc0 kc1 :
  claimableSigners b (NewKeychain keys) claimableOwnerIDs kc0 = Ok kc1
  <-> exists claimables,
        Forall2 (fun ownerID claimable => b_GetClaimable b ownerID = Ok claimable)
          claimableOwnerIDs claimables
        /\ Forall (fun owner => ableToSign b keys owner = true) (Owner <$> claimables)
        /\ kc1 = foldl Keychain_Add kc0 ((Owner <$> claimables) ≫= matchedKeys b keys).
Proof.
  revert kc0. induction claimableOwnerIDs as [|ownerID rest IH]; intros kc0; simpl.
  - split.
    + intros [= <-]. exists []. by repeat split.
    + intros (claimables & Hn%Forall2_nil_inv_l & _ & ->). by subst claimables.
  - destruct (b_GetClaimable b ownerID) as [claimable|e] eqn:Ho.
    + destruct (b_Match b (NewKeychain keys) (Owner claimable) (b_clkUnix b))
        as [[sigIdxs signers] able] eqn:Hm.
      assert (Hkeys : matchedKeys b keys (Owner claimable) = signers)
        by (unfold matchedKeys; by rewrite Hm).
      assert (Hable : ableToSign b keys (Owner claimable) = able)
        by (unfold ableToSign; by rewrite Hm).
      destruct able; simpl.
      * rewrite IH. split.
        -- intros (claimables & Hall & Hcan & ->). exists (claimable :: claimables).
           split; [by constructor|]. split; [by constructor|].
           simpl. by rewrite foldl_app, Hkeys.
        -- intros (claimables & Hall & Hcan & ->).
           apply Forall2_cons_inv_l in Hall as (claimable' & claimables' & Ho' & Hall & ->).
           assert (claimable' = claimable) as -> by congruence.
           simpl in Hcan. apply Forall_cons in Hcan as [_ Hcan].
           exists claimables'. split; [done|]. split; [done|].
           simpl. by rewrite foldl_app, Hkeys.
      * split; [done|]. intros (claimables & Hall & Hcan & _).
        apply Forall2_cons_inv_l in Hall as (claimable' & claimables' & Ho' & Hall & ->).
        assert (claimable' = claimable) as -> by congruence.
        simpl in Hcan. apply Forall_cons in Hcan as [Hcan _]. congruence.
    + split; [done|]. intros (claimables & Hall & _).
      apply Forall2_cons_inv_l in Hall as (claimable' & claimables' & Ho' & _). congruence.
Qed.

(** What one keychain, filled in order, holds of the keys matched for a
    list of owners: one key per address, only keys matched for a listed
    owner, and a key for every address that a matched key has. *)
Lemma collectedKeys_spec b keys owners :
  NoDup (Key_Address <$> collectedKeys b keys owners)
  /\ (forall key, key ∈ collectedKeys b keys owners ->
        exists owner, owner ∈ owners /\ key ∈ matchedKeys b keys owner)
  /\ (forall owner key, owner ∈ owners -> key ∈ matchedKeys b keys owner ->
        Key_Address key ∈ Key_Address <$> collectedKeys b keys owners).
Proof.
  unfold collectedKeys. split; [|split].
  - apply foldl_Keychain_Add_NoDup. simpl. constructor.
  - intros key [Hk|Hk]%foldl_Keychain_Add_keys; [by apply elem_of_nil in Hk|].
    apply list_elem_of_bind in Hk as (owner & Hk & Ho). by exists owner.
  - intros owner key Ho Hk. apply foldl_Keychain_Add_addresses. right.
    apply list_elem_of_fmap. exists key. split; [done|].
    apply list_elem_of_bind. by exists owner.
Qed.

(** C5, amended.  NewClaimTx returns a transaction exactly when the lock
    mode is on, the spender succeeds, every listed deposit resolves to its
    rewards owner and every listed claimable owner to its claimable, the
    given keys can sign for each of these owners, and the signing succeeds.
    The transaction then carries one credential per signer entry of the
    spender (one per input, when the spender returns one entry per input),
    followed by exactly one trailing credential.  The trailing credential
    holds the keys that Match picks for the rewards owner of each listed
    deposit and then for the owner of each listed claimable, in the order
    of the two lists, collected in one keychain that starts empty: a key
    whose address the keychain already holds is not added again, so the
    credential holds one key per address, every key in it is matched for a
    listed owner, and every address of a matched key has a key in it. *)
Theorem NewClaimTx_single_trailing_credential (b : caminoBuilder)
    (depositTxIDs claimableOwnerIDs : list ID) (amountToClaim : list Z)
    (claimTo : option OutputOwners) (keys : list PrivateKey)
    (change : option OutputOwners) (tx : Tx) (err : option error) :
  NewClaimTx b depositTxIDs claimableOwnerIDs amountToClaim claimTo keys change
  = (Some tx, err)
  <-> exists caminoGenesis ins outs signers depositOwners claimables,
        let owners := depositOwners ++ (Owner <$> claimables) in
        b_CaminoConfig b = Ok caminoGenesis
        /\ LockModeBondDeposit caminoGenesis = true
        /\ b_Lock b keys 0 (b_TxFee b) StateUnlocked None change 0 = Ok (ins, outs, signers)
        /\ Forall2 (fun depositTxID owner => getDepositRewardsOwner b depositTxID = Ok owner)
             depositTxIDs depositOwners
        /\ Forall2 (fun ownerID claimable => b_GetClaimable b ownerID = Ok claimable)
             claimableOwnerIDs claimables
        /\ Forall (fun owner => ableToSign b keys owner = true) owners
        /\ b_signError b (Unsigned tx) (signers ++ [collectedKeys b keys owners]) = None
        /\ Unsigned tx
           = ClaimTx {| NetworkID := b_NetworkID b; BlockchainID := b_ChainID b;
                        Ins := ins; Outs := outs |}
               depositTxIDs claimableOwnerIDs amountToClaim claimTo
        /\ Creds tx
           = ((fun keys => {| Cred_Signers := keys |}) <$> signers)
             ++ [{| Cred_Signers := collectedKeys b keys owners |}]
        /\ length (Creds tx) = S (length signers)
        /\ (length signers = length ins -> length (Creds tx) = S (length ins))
        /\ NoDup (Key_Address <$> collectedKeys b keys owners)
        /\ (forall key, key ∈ collectedKeys b keys owners ->
              exists owner, owner ∈ owners /\ key ∈ matchedKeys b keys owner)
        /\ (forall owner key, owner ∈ owners -> key ∈ matchedKeys b keys owner ->
              Key_Address key ∈ Key_Address <$> collectedKeys b keys owners)
        /\ err = b_SyntacticVerify b tx.
Proof.
  unfold NewClaimTx, NewSigned. split.
  - destruct (b_CaminoConfig b) as [caminoGenesis|]; [|done].
    destruct (LockModeBondDeposit caminoGenesis) eqn:Hmode; [|done]. simpl.
    destruct (b_Lock b keys 0 (b_TxFee b) StateUnlocked None change 0)
      as [[[ins outs] signers]|]; [|done].
    destruct (depositSigners b _ depositTxIDs _) as [kcDeposits|] eqn:Hd; [|done].
    destruct (claimableSigners b _ claimableOwnerIDs _) as [kcClaimables|] eqn:Hc; [|done].
    apply depositSigners_spec in Hd as (depositOwners & HdAll & HdCan & ->).
    apply claimableSigners_spec in Hc as (claimables & HcAll & HcCan & ->).
    rewrite <- foldl_app, <- bind_app.
    change (Keys (foldl Keychain_Add (NewKeychain [])
                    ((depositOwners ++ (Owner <$> claimables)) ≫= matchedKeys b keys)))
      with (collectedKeys b keys (depositOwners ++ (Owner <$> claimables))).
    destruct (b_signError b _ _) eqn:Hsign; [done|].
    intros [= <- <-]. simpl.
    exists caminoGenesis, ins, outs, signers, depositOwners, claimables.
    destruct (collectedKeys_spec b keys (depositOwners ++ (Owner <$> claimables)))
      as (Hnd & Hin & Hall).
    rewrite fmap_app, length_app, length_fmap. simpl.
    repeat split; try done; try lia. by apply Forall_app.
  - intros (caminoGenesis & ins & outs & signers & depositOwners & claimables
            & -> & -> & -> & HdAll & HcAll & [HdCan HcCan]%Forall_app
            & Hsign & Hutx & Hcreds & _ & _ & _ & _ & _ & ->).
    simpl.
    assert (Hd : depositSigners b (NewKeychain keys) depositTxIDs (NewKeychain [])
                 = Ok (foldl Keychain_Add (NewKeychain [])
                         (depositOwners ≫= matchedKeys b keys))).
    { apply depositSigners_spec. by exists depositOwners. }
    rewrite Hd.
    assert (Hc : claimableSigners b (NewKeychain keys) claimableOwnerIDs
                   (foldl Keychain_Add (NewKeychain [])
                      (depositOwners ≫= matchedKeys b keys))
                 = Ok (foldl Keychain_Add
                         (foldl Keychain_Add (NewKeychain [])
                            (depositOwners ≫= matchedKeys b keys))
                         ((Owner <$> claimables) ≫= matchedKeys b keys))).
    { apply claimableSigners_spec. by exists claimables. }
    rewrite Hc. rewrite <- foldl_app, <- bind_app.
    change (Keys (foldl Keychain_Add (NewKeychain [])
                    ((depositOwners ++ (Owner <$> claimables)) ≫= matchedKeys b keys)))
      with (collectedKeys b keys (depositOwners ++ (Owner <$> claimables))).
    rewrite <- Hutx, Hsign.
    assert ({| Unsigned := Unsigned tx;
               Creds := (fun keys => {| Cred_Signers := keys |})
                          <$> signers
                              ++ [collectedKeys b keys
                                    (depositOwners ++ (Owner <$> claimables))] |} = tx)
      as ->; [|done].
    destruct tx as [utx creds]. simpl in *. subst. by rewrite fmap_app.
Qed.

(** One deposit and the claimable [O], both owned by the address of
    [keyA]: the transaction has the credential of its one input and one
    trailing credential with the single key [keyA], which is matched for
    both owners and collected once. *)
Lemma NewClaimTx_single_trailing_credential_witness :
  exists tx,
    NewClaimTx (scenarioBuilder [] scenarioDecode 100) [21%N] [idO] [5; 5]
      (Some ownerA) [keyA] (Some ownerA)
    = (Some tx, None)
    /\ Creds tx = [{| Cred_Signers := [keyA] |}; {| Cred_Signers := [keyA] |}]
    /\ matchedKeys (scenarioBuilder [] scenarioDecode 100) [keyA] ownerA = [keyA]
    /\ collectedKeys (scenarioBuilder [] scenarioDecode 100) [keyA] [ownerA; ownerA] = [keyA].
Proof.
  eexists. split; [vm_compute; reflexivity|].
  split; [|split; vm_compute; reflexivity].
  match goal with |- Creds ?t = _ => set (tx := t) end.
  destruct (proj1 (NewClaimTx_single_trailing_credential
                     (scenarioBuilder [] scenarioDecode 100) [21%N] [idO] [5; 5]
                     (Some ownerA) [keyA] (Some ownerA) tx None)
              ltac:(vm_compute; reflexivity))
    as (g & ins & outs & signers & depositOwners & claimables
        & _ & _ & [= <- <- <-] & Hd & Hc & _ & _ & _ & Hcreds & _).
  rewrite Hcreds.
  apply Forall2_cons_inv_l in Hd as (owner & owners' & Ho & Hn%Forall2_nil_inv_l & ->).
  subst owners'.
  apply Forall2_cons_inv_l in Hc as (claimable & claimables' & Hcl & Hn%Forall2_nil_inv_l & ->).
  subst claimables'.
  vm_compute in Ho. injection Ho as <-.
  vm_compute in Hcl. injection Hcl as <-.
  vm_compute. reflexivity.
Defined.

(** ** The rewards import transaction *)

Lemma importableUTXOs_omap b now allUTXOsBytes :
  importableUTXOs b now allUTXOsBytes = omap (importable b now) allUTXOsBytes.
Proof.
  unfold importableUTXOs.
  assert (H : forall acc,
            foldl (fun utxos utxoBytes =>
                     match b_Unmarshal b utxoBytes with
                     | Some utxo =>
                         if Timestamp utxo <=? sub64 now (b_SharedMemorySyncBound b)
                         then utxos ++ [Timed_UTXO utxo] else utxos
                     | None => utxos
                     end) acc allUTXOsBytes
            = acc ++ omap (importable b now) allUTXOsBytes); [|apply (H [])].
  induction allUTXOsBytes as [|utxoBytes rest IH]; intros acc; simpl.
  - by rewrite app_nil_r.
  - rewrite IH. unfold importable at 2.
    destruct (b_Unmarshal b utxoBytes) as [timed|]; [|done].
    destruct (Timestamp timed <=? _); [|done]. by rewrite <- app_assoc.
Qed.

Lemma importInputs_consumes b now utxos ins :
  importInputs b now utxos = inr ins -> Forall2 (consumes b now) utxos ins.
Proof.
  revert ins. induction utxos as [|u utxos IH]; intros ins; simpl.
  - intros [= <-]. constructor.
  - destruct (b_treasurySpend b (UTXO_Out u) now) as [[amount sigIndices|]|] eqn:Hspend;
      [|done..].
    destruct (importInputs b now utxos) as [|ins']; [done|].
    intros [= <-]. constructor; [|by apply IH]. by repeat split.
Qed.

Lemma importInputs_total b now utxos :
  Forall (fun u => exists amount sigIndices,
            b_treasurySpend b (UTXO_Out u) now = Ok (TransferableIn amount sigIndices))
         utxos ->
  exists ins, importInputs b now utxos = inr ins.
Proof.
  induction 1 as [|u utxos (amount & sigIndices & Hspend) _ [ins IH]]; simpl.
  - by eexists.
  - rewrite Hspend, IH. by eexists.
Qed.

Lemma utxoIDLe_total : Total utxoIDLe.
Proof. intros x y. unfold utxoIDLe. lia. Qed.

(** C8.  With the lock mode on and the shared-memory UTXOs fetched, the
    UTXOs that NewRewardsImportTx consumes are those whose bytes decode as
    a timed UTXO with [Timestamp <= now - SharedMemorySyncBound] in uint64
    arithmetic (which is [Timestamp + SharedMemorySyncBound <= now] when
    the bound does not exceed the clock); bytes that do not decode are
    skipped.  When no UTXO is left the call fails with errNoUTXOsForImport
    and returns no transaction.  A returned transaction has one input for
    each of these UTXOs and no other, sorted; and one is returned whenever
    the treasury key can spend each of them and signing succeeds. *)
Theorem NewRewardsImportTx_imports_timed_utxos (b : caminoBuilder)
    (caminoGenesis : CaminoConfig) (allUTXOsBytes : list (list byte)) :
  b_CaminoConfig b = Ok caminoGenesis ->
  LockModeBondDeposit caminoGenesis = true ->
  b_Indexed b = Ok allUTXOsBytes ->
  importableUTXOs b (b_clkUnix b) allUTXOsBytes
  = omap (importable b (b_clkUnix b)) allUTXOsBytes
  /\ (0 <= b_SharedMemorySyncBound b <= b_clkUnix b -> b_clkUnix b < 2 ^ 64 ->
      forall timestamp,
        timestamp <= sub64 (b_clkUnix b) (b_SharedMemorySyncBound b)
        <-> timestamp + b_SharedMemorySyncBound b <= b_clkUnix b)
  /\ (omap (importable b (b_clkUnix b)) allUTXOsBytes = [] ->
      NewRewardsImportTx b = (None, Some errNoUTXOsForImport))
  /\ (forall tx err,
        NewRewardsImportTx b = (Some tx, err) ->
        exists ins unsorted,
          Unsigned tx
          = RewardsImportTx {| NetworkID := b_NetworkID b; BlockchainID := b_ChainID b;
                               Ins := ins; Outs := [] |}
          /\ Creds tx = []
          /\ Sorted utxoIDLe ins
          /\ ins ≡ₚ unsorted
          /\ Forall2 (consumes b (b_clkUnix b))
               (omap (importable b (b_clkUnix b)) allUTXOsBytes) unsorted)
  /\ (omap (importable b (b_clkUnix b)) allUTXOsBytes <> [] ->
      Forall (fun u => exists amount sigIndices,
                b_treasurySpend b (UTXO_Out u) (b_clkUnix b)
                = Ok (TransferableIn amount sigIndices))
             (omap (importable b (b_clkUnix b)) allUTXOsBytes) ->
      (forall utx, b_signError b utx [] = None) ->
      exists tx, NewRewardsImportTx b = (Some tx, b_SyntacticVerify b tx)).
Proof.
  intros Hcfg Hmode Hindexed.
  split; [apply importableUTXOs_omap|]. split.
  { intros Hbound Hnow timestamp. unfold sub64.
    rewrite Z.mod_small by lia. lia. }
  unfold NewRewardsImportTx, NewSigned.
  rewrite Hcfg, Hmode, Hindexed, importableUTXOs_omap. simpl.
  set (utxos := omap (importable b (b_clkUnix b)) allUTXOsBytes).
  split; [|split].
  - intros ->. done.
  - intros tx err. case_bool_decide; [done|].
    destruct (importInputs b (b_clkUnix b) utxos) as [|unsorted] eqn:Hins; [done|].
    destruct (b_signError b _ _); [done|].
    intros [= <- <-]. simpl.
    exists (SortTransferableInputs unsorted), unsorted.
    split; [done|]. split; [done|].
    split; [apply (@Sorted_merge_sort _ utxoIDLe _ utxoIDLe_total)|].
    split; [apply merge_sort_Permutation|]. by apply importInputs_consumes.
  - intros Hne Hspend Hsign.
    rewrite bool_decide_eq_false_2 by (by destruct utxos).
    destruct (importInputs_total _ _ _ Hspend) as [ins ->].
    rewrite Hsign. by eexists.
Qed.

(** Shared memory holds four entries at the time 100, with a bound of 10:
    a UTXO stamped 50, undecodable bytes, a UTXO stamped 95 and a UTXO
    stamped 90.  The transaction consumes the first and the last. *)
Lemma NewRewardsImportTx_imports_timed_utxos_witness :
  importableUTXOs
    (scenarioBuilder [[x02; x01; x32]; [x07]; [x03; x01; x5f]; [x01; x01; x5a]]
       scenarioDecode 100)
    100 [[x02; x01; x32]; [x07]; [x03; x01; x5f]; [x01; x01; x5a]]
  = [plainUTXO 2; plainUTXO 1]
  /\ (exists tx,
        NewRewardsImportTx
          (scenarioBuilder [[x02; x01; x32]; [x07]; [x03; x01; x5f]; [x01; x01; x5a]]
             scenarioDecode 100)
        = (Some tx, None)
        /\ Unsigned tx
           = RewardsImportTx
               {| NetworkID := 1; BlockchainID := 0%N;
                  Ins := [ {| In_UTXOID := (1%N, 0%N); In_Asset := 1%N;
                              In_In := TransferableIn 100 [0] |};
                           {| In_UTXOID := (2%N, 0%N); In_Asset := 1%N;
                              In_In := TransferableIn 100 [0] |} ];
                  Outs := [] |})
  /\ NewRewardsImportTx (scenarioBuilder [[x07]; [x03; x01; x5f]] scenarioDecode 100)
     = (None, Some errNoUTXOsForImport).
Proof.
  split; [|split].
  - destruct (NewRewardsImportTx_imports_timed_utxos
                (scenarioBuilder [[x02; x01; x32]; [x07]; [x03; x01; x5f]; [x01; x01; x5a]]
                   scenarioDecode 100)
                {| VerifyNodeSignature := true; LockModeBondDeposit := true |}
                [[x02; x01; x32]; [x07]; [x03; x01; x5f]; [x01; x01; x5a]]
                eq_refl eq_refl eq_refl) as [Hsel _].
    etrans; [exact Hsel|]. vm_compute. reflexivity.
  - eexists. split; vm_compute; reflexivity.
  - destruct (NewRewardsImportTx_imports_timed_utxos
                (scenarioBuilder [[x07]; [x03; x01; x5f]] scenarioDecode 100)
                {| VerifyNodeSignature := true; LockModeBondDeposit := true |}
                [[x07]; [x03; x01; x5f]]
                eq_refl eq_refl eq_refl) as (_ & _ & Hempty & _).
    apply Hempty. vm_compute. reflexivity.
Defined.

(** ** The order of the ranges does not show in the base state *)

Lemma reversedOrders_rangesOver c : rangesOver c (reversedOrders c).
Proof.
  repeat split; try apply reverse_Permutation.
  exists (reverse (map_to_list (validatorDiffs c))). split; [apply reverse_Permutation|].
  simpl. induction (reverse (map_to_list (validatorDiffs c))) as [|x l IH];
    constructor; [|done].
  split; [done|]. apply reverse_Permutation.
Qed.

(** X1.  Let the base state keep the last value written per entry, and let
    the entries of the diff be filed as its setters file them.  Then the
    base state that ApplyCaminoState leaves does not depend on the orders in
    which it ranges over the diff's maps, which Go leaves open. *)
Theorem ApplyCaminoState_order_independent {S} (baseState : State S)
    (d : diff) (o1 o2 : RangeOrders) (s : S) :
  LastWriteWins baseState ->
  diff_wf (caminoDiff_ d) ->
  rangesOver (caminoDiff_ d) o1 ->
  rangesOver (caminoDiff_ d) o2 ->
  ApplyCaminoState_in baseState o1 d s = ApplyCaminoState_in baseState o2 d s.
Proof.
  intros Hlww Hwf Ho1 Ho2.
  rewrite !ApplyCaminoState_in_replay.
  destruct (applyCalls_written d o1 Hwf Ho1) as [Hsome Hnd].
  apply replay_Permutation; [done| |done..].
  by apply applyCalls_Permutation.
Qed.

(** A diff that sets two address states, two claimables and a deposit,
    applied in the orders of [map_to_list] and in the opposite orders. *)
Lemma ApplyCaminoState_order_independent_witness :
  ApplyCaminoState_in baseSetters
    (someOrders (caminoDiff_
       (performAll (scenarioDiff (scenarioParent scenarioMaxTime 1000))
          [OpSetAddressStates 10%N 1; OpSetAddressStates 11%N 2;
           OpSetClaimable idO (Some (claimableOf 25)); OpSetClaimable 6%N None;
           OpAddDeposit idY (depositEnding 900)])))
    (performAll (scenarioDiff (scenarioParent scenarioMaxTime 1000))
       [OpSetAddressStates 10%N 1; OpSetAddressStates 11%N 2;
        OpSetClaimable idO (Some (claimableOf 25)); OpSetClaimable 6%N None;
        OpAddDeposit idY (depositEnding 900)])
    scenarioBase
  = ApplyCaminoState_in baseSetters
      (reversedOrders (caminoDiff_
         (performAll (scenarioDiff (scenarioParent scenarioMaxTime 1000))
            [OpSetAddressStates 10%N 1; OpSetAddressStates 11%N 2;
             OpSetClaimable idO (Some (claimableOf 25)); OpSetClaimable 6%N None;
             OpAddDeposit idY (depositEnding 900)])))
      (performAll (scenarioDiff (scenarioParent scenarioMaxTime 1000))
         [OpSetAddressStates 10%N 1; OpSetAddressStates 11%N 2;
          OpSetClaimable idO (Some (claimableOf 25)); OpSetClaimable 6%N None;
          OpAddDeposit idY (depositEnding 900)])
      scenarioBase.
Proof.
  apply (ApplyCaminoState_order_independent baseSetters).
  - exact baseSetters_LastWriteWins.
  - apply performAll_wf, newCaminoDiff_wf.
  - apply someOrders_rangesOver.
  - apply reversedOrders_rangesOver.
Defined.

(** ** The calls of a diff, by the keys written *)

Lemma entryCall_perform d op k :
  entryCall (caminoDiff_ (perform d op)) k
  = if decide (target op = k) then Some (callOf op) else entryCall (caminoDiff_ d) k.
Proof.
  destruct op, k; simpl; try (case_decide; [congruence|reflexivity]);
    unfold toShortLinkKey; rewrite ?lookup_insert;
    repeat case_decide; simplify_eq/=; try reflexivity; try congruence.
Qed.

Lemma entryCall_performAll d0 ops k c :
  entryCall (caminoDiff_ (performAll d0 ops)) k = Some c
  <-> (exists before op after,
         ops = before ++ op :: after
         /\ target op = k
         /\ Forall (fun op' => target op' <> k) after
         /\ c = callOf op)
      \/ (Forall (fun op' => target op' <> k) ops
          /\ entryCall (caminoDiff_ d0) k = Some c).
Proof.
  induction ops as [|op ops IH] using rev_ind.
  - simpl. split.
    + intros H. right. by split.
    + intros [(before & op & after & Hops & _)|[_ H]]; [|done].
      by destruct before.
  - rewrite performAll_snoc, entryCall_perform. case_decide as Hk.
    + split.
      * intros [= <-]. left. exists ops, op, []. by repeat split.
      * intros [(before & op' & after & Hops & Hk' & Hafter & ->)|[Hall _]].
        -- destruct after as [|a after _] using rev_ind.
           ++ apply app_inj_tail in Hops as [_ ->]. done.
           ++ rewrite app_comm_cons, app_assoc in Hops.
              apply app_inj_tail in Hops as [_ ->].
              apply Forall_app in Hafter as [_ Ha]. rewrite Forall_singleton in Ha. by destruct Ha.
        -- apply Forall_app in Hall as [_ Ha]. rewrite Forall_singleton in Ha. by destruct Ha.
    + rewrite IH. split.
      * intros [(before & op' & after & -> & Hk' & Hafter & ->)|[Hall H0]].
        -- left. exists before, op', (after ++ [op]).
           rewrite <- app_assoc. repeat split; try done.
           apply Forall_app. split; [done|]. by apply Forall_singleton.
        -- right. split; [|done]. apply Forall_app. split; [done|].
           by apply Forall_singleton.
      * intros [(before & op' & after & Hops & Hk' & Hafter & ->)|[Hall H0]].
        -- destruct after as [|a after _] using rev_ind.
           ++ apply app_inj_tail in Hops as [_ ->]. done.
           ++ rewrite app_comm_cons, app_assoc in Hops.
              apply app_inj_tail in Hops as [-> ->].
              apply Forall_app in Hafter as [Hafter _].
              left. by exists before, op', after.
        -- apply Forall_app in Hall as [Hall _]. by right.
Qed.

Lemma performAll_validatorDiffs d ops :
  validatorDiffs (caminoDiff_ (performAll d ops)) = validatorDiffs (caminoDiff_ d).
Proof.
  induction ops as [|op ops IH] using rev_ind; [done|].
  rewrite performAll_snoc, <- IH. by destruct op.
Qed.

Lemma elem_of_applyCalls o d c :
  rangesOver (caminoDiff_ d) o ->
  c ∈ applyCalls o d
  <-> (exists k, entryCall (caminoDiff_ d) k = Some c)
      \/ c ∈ map_to_list (validatorDiffs (caminoDiff_ d)) ≫=
                (fun x => map_to_list x.2 ≫= validatorCalls).
Proof.
  intros (Ha & Ho & Hd & Hm & Hs & Hc & Hv).
  unfold applyCalls.
  rewrite Ha, Ho, Hd, Hm, Hs, Hc, (nestedRange_calls _ _ Hv).
  rewrite !elem_of_app, !list_elem_of_fmap. split.
  - intros [H|[H|[H|[H|[H|[H|[H|H]]]]]]]; [left..|by right].
    + exists KNotDistributedValidatorReward. simpl.
      destruct (modifiedNotDistributedValidatorReward (caminoDiff_ d));
        [by apply list_elem_of_singleton in H as ->|by apply elem_of_nil in H].
    + destruct H as ([k v] & -> & Hin%elem_of_map_to_list).
      exists (KAddressStates k). simpl. by rewrite Hin.
    + destruct H as ([k v] & -> & Hin%elem_of_map_to_list).
      exists (KDepositOffer k). simpl. by rewrite Hin.
    + destruct H as ([k v] & -> & Hin%elem_of_map_to_list).
      exists (KDeposit k). simpl. by rewrite Hin.
    + destruct H as ([k v] & -> & Hin%elem_of_map_to_list).
      exists (KMultisigAlias k). simpl. by rewrite Hin.
    + destruct H as ([[id key] v] & -> & Hin%elem_of_map_to_list).
      exists (KShortIDLink id key). simpl. unfold toShortLinkKey. by rewrite Hin.
    + destruct H as ([k v] & -> & Hin%elem_of_map_to_list).
      exists (KClaimable k). simpl. by rewrite Hin.
  - intros [[[address|offerID|depositTxID|alias|id key|ownerID|] Hk]|Hv'];
      [simpl in Hk..|by do 7 right].
    + destruct (modifiedAddressStates (caminoDiff_ d) !! address) as [v|] eqn:E;
        [|done]. injection Hk as <-.
      right; left. exists (address, v). split; [done|]. by apply elem_of_map_to_list.
    + destruct (modifiedDepositOffers (caminoDiff_ d) !! offerID) as [v|] eqn:E;
        [|done]. injection Hk as <-.
      right; right; left. exists (offerID, v). split; [done|].
      by apply elem_of_map_to_list.
    + destruct (modifiedDeposits (caminoDiff_ d) !! depositTxID) as [v|] eqn:E;
        [|done]. injection Hk as <-.
      right; right; right; left. exists (depositTxID, v). split; [done|].
      by apply elem_of_map_to_list.
    + destruct (modifiedMultisigOwners (caminoDiff_ d) !! alias) as [v|] eqn:E;
        [|done]. injection Hk as <-.
      right; right; right; right; left. exists (alias, v). split; [done|].
      by apply elem_of_map_to_list.
    + unfold toShortLinkKey in Hk.
      destruct (modifiedShortLinks (caminoDiff_ d) !! (id, key)) as [v|] eqn:E;
        [|done]. injection Hk as <-.
      right; right; right; right; right; left. exists ((id, key), v). split; [done|].
      by apply elem_of_map_to_list.
    + destruct (modifiedClaimables (caminoDiff_ d) !! ownerID) as [v|] eqn:E;
        [|done]. injection Hk as <-.
      do 6 right; left. exists (ownerID, v). split; [done|].
      by apply elem_of_map_to_list.
    + left. destruct (modifiedNotDistributedValidatorReward (caminoDiff_ d));
        [|done]. injection Hk as <-. by apply list_elem_of_singleton.
Qed.

Lemma elem_of_validatorCalls (vd : gmap ID (gmap NodeID diffValidator)) c :
  c ∈ map_to_list vd ≫= (fun x => map_to_list x.2 ≫= validatorCalls)
  <-> exists subnetID vs nodeID v,
        vd !! subnetID = Some vs /\ vs !! nodeID = Some v
        /\ c ∈ validatorCalls (nodeID, v).
Proof.
  rewrite list_elem_of_bind. split.
  - intros ([subnetID vs] & (kv & Hc & Hkv)%list_elem_of_bind & Hvs%elem_of_map_to_list).
    destruct kv as [nodeID v]. apply elem_of_map_to_list in Hkv.
    by exists subnetID, vs, nodeID, v.
  - intros (subnetID & vs & nodeID & v & Hvs & Hv & Hc).
    exists (subnetID, vs). split; [|by apply elem_of_map_to_list].
    apply list_elem_of_bind. exists (nodeID, v). split; [done|].
    by apply elem_of_map_to_list.
Qed.

Lemma entryCall_withValidatorDiffs d vd k :
  entryCall (caminoDiff_ (withValidatorDiffs d vd)) k = entryCall (caminoDiff_ d) k.
Proof. by destruct k. Qed.

Lemma withValidatorDiffs_wf d vd :
  diff_wf (caminoDiff_ d) -> validators_wf vd ->
  diff_wf (caminoDiff_ (withValidatorDiffs d vd)).
Proof. intros (Ho & Ha & _) Hvd. split; [exact Ho|]. split; [exact Ha|exact Hvd]. Qed.

Lemma elem_of_validatorCalls_modified (nodeID : NodeID) (v : diffValidator) c :
  c ∈ validatorCalls (nodeID, v) <-> validatorModified v = true /\ c = validatorCall v.
Proof.
  unfold validatorCalls, validatorCall. simpl.
  destruct (validatorModified v).
  - destruct (validatorDeleted v); rewrite list_elem_of_singleton; tauto.
  - rewrite elem_of_nil. split; [done|]. by intros [? _].
Qed.

(** X2.  Let a diff be created by NewCaminoDiff, be written to by the
    calls [ops] of the setters of address states, deposit offers, deposits,
    multisig aliases, short links, claimables and the reward, and hold the
    deferred-validator entries [vd], whatever they are, each modified entry
    filed under the subnet and the node of its staker.  ApplyCaminoState,
    whatever the orders of its ranges, makes on the base state one call for
    every key written, the one that hands over the value of the last write
    to that key, one call for every modified validator entry,
    DeleteDeferredValidator when the entry is marked deleted and
    PutDeferredValidator otherwise, and no other call: a call [c] is made
    exactly when [c] hands over a call [op] of [ops] that no later call of
    [ops] overwrites, or hands over a modified entry of [vd]; and no call
    is made twice. *)
Theorem ApplyCaminoState_hands_over_last_writes {S} (baseState : State S)
    (pid : ID) (versions : ID -> option Chain) (d0 : diff) (ops : list Op)
    (vd : gmap ID (gmap NodeID diffValidator)) (o : RangeOrders) (s : S) :
  NewCaminoDiff pid versions = Ok d0 ->
  validators_wf vd ->
  rangesOver (caminoDiff_ (withValidatorDiffs (performAll d0 ops) vd)) o ->
  exists calls,
    ApplyCaminoState_in baseState o (withValidatorDiffs (performAll d0 ops) vd) s
    = replay baseState calls s
    /\ NoDup calls
    /\ forall c,
         c ∈ calls
         <-> (exists before op after,
                ops = before ++ op :: after
                /\ Forall (fun op' => target op' <> target op) after
                /\ c = callOf op)
             \/ (exists subnetID vs nodeID v,
                   vd !! subnetID = Some vs
                   /\ vs !! nodeID = Some v
                   /\ validatorModified v = true
                   /\ c = validatorCall v).
Proof.
  intros Hnew Hvd Ho.
  assert (Hd0 : caminoDiff_ d0 = newCaminoDiff).
  { unfold NewCaminoDiff in Hnew. destruct (versions pid); [|done].
    by injection Hnew as <-. }
  exists (applyCalls o (withValidatorDiffs (performAll d0 ops) vd)). split; [|split].
  - apply ApplyCaminoState_in_replay.
  - assert (Hwf : diff_wf (caminoDiff_ (withValidatorDiffs (performAll d0 ops) vd))).
    { apply withValidatorDiffs_wf; [|done].
      apply performAll_wf. rewrite Hd0. apply newCaminoDiff_wf. }
    destruct (applyCalls_written _ o Hwf Ho) as [_ Hnd].
    by apply NoDup_fmap_1 in Hnd.
  - intros c. rewrite elem_of_applyCalls by done.
    setoid_rewrite entryCall_withValidatorDiffs.
    rewrite elem_of_validatorCalls. simpl.
    setoid_rewrite elem_of_validatorCalls_modified.
    split.
    + intros [[k Hk]|Hv].
      * left. apply entryCall_performAll in Hk
          as [(before & op & after & -> & <- & Hafter & ->)|[_ Hk]].
        -- by exists before, op, after.
        -- rewrite Hd0 in Hk. by destruct k.
      * right. destruct Hv as (subnetID & vs & nodeID & v & Hvs & Hv & Hmod & ->).
        by exists subnetID, vs, nodeID, v.
    + intros [(before & op & after & -> & Hafter & ->)
             |(subnetID & vs & nodeID & v & Hvs & Hv & Hmod & ->)].
      * left. exists (target op). apply entryCall_performAll. left.
        by exists before, op, after.
      * right. by exists subnetID, vs, nodeID, v.
Qed.

(** The claimable [O] is set to 25 and then to 30, an address state is
    set, the deferred validator of the node 12 is put and the one of the
    node 13 is deleted: the call for [O] hands over 30 and not 25, and the
    validator of the node 12 is handed over by PutDeferredValidator, the
    one of the node 13 by DeleteDeferredValidator. *)
Lemma ApplyCaminoState_hands_over_last_writes_witness :
  exists calls,
    ApplyCaminoState baseSetters
      (withValidatorDiffs
         (performAll (scenarioDiff (scenarioParent scenarioMaxTime 1000))
            [OpSetClaimable idO (Some (claimableOf 25)); OpSetAddressStates 10%N 1;
             OpSetClaimable idO (Some (claimableOf 30))])
         (validatorDiffs (caminoDiff_ validatorScenarioDiff)))
      scenarioBase
    = replay baseSetters calls scenarioBase
    /\ NoDup calls
    /\ (CallSetClaimable idO (Some (claimableOf 30)) ∈ calls)
    /\ (CallSetClaimable idO (Some (claimableOf 25)) ∉ calls)
    /\ (CallPutDeferredValidator
          {| Staker_TxID := 40%N; Staker_SubnetID := 1%N;
             Staker_NodeID := 12%N; Staker_Weight := 5 |} ∈ calls)
    /\ (CallDeleteDeferredValidator
          {| Staker_TxID := 41%N; Staker_SubnetID := 1%N;
             Staker_NodeID := 13%N; Staker_Weight := 6 |} ∈ calls).
Proof.
  assert (Hvd : validators_wf (validatorDiffs (caminoDiff_ validatorScenarioDiff))).
  { intros subnetID vs nodeID v Hvs Hv _. revert Hvs. simpl.
    rewrite lookup_singleton. case_decide as Hs; [|done]. intros [= <-]. subst subnetID.
    revert Hv. rewrite lookup_insert. case_decide as Hn; [by intros [= <-]; subst|].
    rewrite lookup_singleton. case_decide as Hn'; [by intros [= <-]; subst|done]. }
  destruct (ApplyCaminoState_hands_over_last_writes baseSetters 1%N
              (scenarioVersions (scenarioParent scenarioMaxTime 1000))
              (scenarioDiff (scenarioParent scenarioMaxTime 1000))
              [OpSetClaimable idO (Some (claimableOf 25)); OpSetAddressStates 10%N 1;
               OpSetClaimable idO (Some (claimableOf 30))]
              (validatorDiffs (caminoDiff_ validatorScenarioDiff))
              (someOrders (caminoDiff_
                 (withValidatorDiffs
                    (performAll (scenarioDiff (scenarioParent scenarioMaxTime 1000))
                       [OpSetClaimable idO (Some (claimableOf 25));
                        OpSetAddressStates 10%N 1;
                        OpSetClaimable idO (Some (claimableOf 30))])
                    (validatorDiffs (caminoDiff_ validatorScenarioDiff)))))
              scenarioBase)
    as (calls & Hrun & Hnd & Hcalls).
  - reflexivity.
  - exact Hvd.
  - apply someOrders_rangesOver.
  - exists calls. split; [exact Hrun|]. split; [exact Hnd|].
    split; [|split; [|split]].
    + apply Hcalls. left.
      exists [OpSetClaimable idO (Some (claimableOf 25)); OpSetAddressStates 10%N 1],
        (OpSetClaimable idO (Some (claimableOf 30))), [].
      by repeat split.
    + intros [(before & op & after & Hops & Hafter & Hc)
             |(subnetID & vs & nodeID & v & _ & _ & _ & Hc)]%Hcalls.
      * destruct op; try discriminate Hc. injection Hc as <- <-.
        destruct before as [|b1 [|b2 [|b3 [|]]]]; simplify_eq/=.
        apply Forall_cons in Hafter as [_ Hafter].
        apply Forall_cons in Hafter as [Hafter _]. done.
      * unfold validatorCall in Hc. by destruct (validatorDeleted v).
    + apply Hcalls. right. eexists 1%N, _, 12%N, _.
      split; [reflexivity|]. split; [reflexivity|]. by split.
    + apply Hcalls. right. eexists 1%N, _, 13%N, _.
      split; [reflexivity|]. split; [reflexivity|]. by split.
Defined.

(** ** The base state after a diff is applied *)

Lemma exec_baseSetters_cellOf c l (s : BaseState) :
  call_loc c = Some l -> exec baseSetters c s = store l (cellOf c) s.
Proof.
  destruct c as [| |[?|]| | | |[?|]| | | |]; simpl; intros [= <-]; reflexivity.
Qed.

Lemma lookup_store l v (s : BaseState) l' :
  store l v s !! l' = if decide (l = l') then v else s !! l'.
Proof.
  unfold store. destruct v; [by rewrite lookup_insert|].
  case_decide as Hl; [subst; apply lookup_delete_eq|by apply lookup_delete_ne].
Qed.

Lemma replay_lookup_other cs (s : BaseState) l :
  Forall (fun c => is_Some (call_loc c)) cs ->
  (forall c, c ∈ cs -> call_loc c <> Some l) ->
  replay baseSetters cs s !! l = s !! l.
Proof.
  revert s. induction cs as [|c cs IH]; intros s Hsome Hother; [done|].
  apply Forall_cons in Hsome as [[l' Hl'] Hsome].
  rewrite replay_cons, IH; [|done|intros; apply Hother; by right].
  rewrite (exec_baseSetters_cellOf _ _ _ Hl'), lookup_store.
  rewrite decide_False; [done|]. intros ->. by apply (Hother c); [left|].
Qed.

Lemma replay_lookup_written cs (s : BaseState) c l :
  Forall (fun c => is_Some (call_loc c)) cs ->
  NoDup (call_loc <$> cs) ->
  c ∈ cs ->
  call_loc c = Some l ->
  replay baseSetters cs s !! l = cellOf c.
Proof.
  revert s. induction cs as [|c0 cs IH]; intros s Hsome Hnd Hin Hl.
  { by apply elem_of_nil in Hin. }
  apply Forall_cons in Hsome as [_ Hsome].
  rewrite fmap_cons in Hnd. apply NoDup_cons in Hnd as [Hnot Hnd].
  rewrite replay_cons. apply elem_of_cons in Hin as [<-|Hin].
  - rewrite replay_lookup_other; [|done|].
    + by rewrite (exec_baseSetters_cellOf _ _ _ Hl), lookup_store, decide_True.
    + intros c' Hc' Hl'. apply Hnot. rewrite Hl, <- Hl'.
      apply list_elem_of_fmap. by exists c'.
  - by apply IH.
Qed.

Lemma entryCall_loc c k call :
  diff_wf c -> entryCall c k = Some call -> call_loc call = Some (keyLoc k).
Proof.
  intros (Hoffers & Hmsig & _). destruct k; simpl.
  - destruct (modifiedAddressStates c !! address); [|done]. by intros [= <-].
  - destruct (modifiedDepositOffers c !! offerID) as [o|] eqn:Ho; [|done].
    intros [= <-]. destruct (Hoffers _ _ Ho) as (offer & -> & <-). done.
  - destruct (modifiedDeposits c !! depositTxID) as [dd|]; [|done].
    intros [= <-]. unfold depositCall. simpl. by destruct (added dd), (removed dd).
  - destruct (modifiedMultisigOwners c !! alias) as [o|] eqn:Ho; [|done].
    intros [= <-]. destruct (Hmsig _ _ Ho) as (owner & -> & <-). done.
  - destruct (modifiedShortLinks c !! toShortLinkKey id key); [|done]. by intros [= <-].
  - destruct (modifiedClaimables c !! ownerID); [|done]. by intros [= <-].
  - destruct (modifiedNotDistributedValidatorReward c); [|done]. by intros [= <-].
Qed.

Lemma keyLoc_inj k1 k2 : keyLoc k1 = keyLoc k2 -> k1 = k2.
Proof. destruct k1, k2; simpl; congruence. Qed.

Lemma validatorCalls_loc (vd : gmap ID (gmap NodeID diffValidator)) c k :
  c ∈ map_to_list vd ≫= (fun x => map_to_list x.2 ≫= validatorCalls) ->
  call_loc c <> Some (keyLoc k).
Proof.
  intros (x & (kv & Hc & _)%list_elem_of_bind & _)%list_elem_of_bind.
  unfold validatorCalls in Hc.
  destruct (validatorModified kv.2); [|by apply elem_of_nil in Hc].
  destruct (validatorDeleted kv.2); apply list_elem_of_singleton in Hc as ->;
    by destruct k.
Qed.

Lemma entryCall_answer d k :
  diff_wf (caminoDiff_ d) ->
  deposits_wf (caminoDiff_ d) ->
  match entryCall (caminoDiff_ d) k with
  | Some c => exists a, getter d k = Done a /\ cellOfAnswer a = cellOf c
  | None => consultsParent (getter d k) = true
  end.
Proof.
  intros (Hoffers & Hmsig & _) Hdeposits. destruct k; simpl;
    unfold GetAddressStates, GetDepositOffer, GetDeposit, GetMultisigAlias,
      GetShortIDLink, GetClaimable, GetNotDistributedValidatorReward.
  - destruct (modifiedAddressStates (caminoDiff_ d) !! address); simpl; [|done].
    by eexists.
  - destruct (modifiedDepositOffers (caminoDiff_ d) !! offerID) as [o|] eqn:Ho;
      simpl; [|done].
    destruct (Hoffers _ _ Ho) as (offer & -> & _). by eexists.
  - destruct (modifiedDeposits (caminoDiff_ d) !! depositTxID) as [dd|] eqn:Hdd;
      simpl; [|done].
    unfold depositCall. simpl. specialize (Hdeposits _ _ Hdd).
    destruct (added dd) eqn:Ha.
    + rewrite Hdeposits by done. by eexists.
    + destruct (removed dd); by eexists.
  - destruct (modifiedMultisigOwners (caminoDiff_ d) !! alias) as [o|] eqn:Ho;
      simpl; [|done].
    destruct (Hmsig _ _ Ho) as (owner & -> & _). by eexists.
  - destruct (modifiedShortLinks (caminoDiff_ d) !! toShortLinkKey id key) as [[?|]|];
      simpl; [by eexists..|done].
  - destruct (modifiedClaimables (caminoDiff_ d) !! ownerID) as [[?|]|];
      simpl; [by eexists..|done].
  - destruct (modifiedNotDistributedValidatorReward (caminoDiff_ d)); simpl; [|done].
    by eexists.
Qed.

Lemma perform_deposits_wf d op :
  deposits_wf (caminoDiff_ d) -> deposits_wf (caminoDiff_ (perform d op)).
Proof.
  intros Hwf. destruct op; try exact Hwf;
    intros id dd; simpl; rewrite lookup_insert; case_decide; try (by apply Hwf);
    by intros [= <-].
Qed.

Lemma performAll_deposits_wf d ops :
  deposits_wf (caminoDiff_ d) -> deposits_wf (caminoDiff_ (performAll d ops)).
Proof.
  intros Hwf. induction ops as [|op ops IH] using rev_ind; [done|].
  rewrite performAll_snoc. by apply perform_deposits_wf.
Qed.

(** X3.  Let the entries of the diff be filed as its setters file them,
    and let the base state hold one value per entry, as [baseSetters]
    writes them.  After ApplyCaminoState, in whatever orders it ranges, the
    base state holds for every key what the diff's getter answered for it:
    where the getter answers from the diff, the entry of the key holds the
    value of the answer, and is empty when the answer is NotFound (a
    tombstone or a removed deposit); where the getter turns to the parent,
    the entry is as it was before. *)
Theorem ApplyCaminoState_publishes_answers (d : diff) (o : RangeOrders)
    (s : BaseState) (k : Key) :
  diff_wf (caminoDiff_ d) ->
  deposits_wf (caminoDiff_ d) ->
  rangesOver (caminoDiff_ d) o ->
  ApplyCaminoState_in baseSetters o d s !! keyLoc k
  = match getter d k with
    | Done a => cellOfAnswer a
    | AskParent _ _ => s !! keyLoc k
    end.
Proof.
  intros Hwf Hdeposits Ho.
  rewrite ApplyCaminoState_in_replay.
  destruct (applyCalls_written d o Hwf Ho) as [Hsome Hnd].
  pose proof (entryCall_answer d k Hwf Hdeposits) as Hentry.
  destruct (entryCall (caminoDiff_ d) k) as [c|] eqn:Hc.
  - destruct Hentry as (a & -> & ->).
    apply replay_lookup_written; [done..| |by eapply entryCall_loc].
    apply elem_of_applyCalls; [done|]. left. by exists k.
  - destruct (getter d k); [done|].
    apply replay_lookup_other; [done|].
    intros c [(k' & Hk')|Hv]%elem_of_applyCalls Hl; [| |done].
    + rewrite (entryCall_loc _ _ _ Hwf Hk') in Hl. injection Hl as Hl.
      apply keyLoc_inj in Hl as ->. congruence.
    + by eapply validatorCalls_loc.
Qed.

(** The base holds a validator reward of 10 for [O] and nothing for the
    owner 6.  The diff sets the reward of [O] to 25 and deletes the
    claimable of 6; after it is applied, backwards, the base holds 25 for
    [O], nothing for 6, and still nothing for the address 10. *)
Lemma ApplyCaminoState_publishes_answers_witness :
  let d := performAll (scenarioDiff (scenarioParent scenarioMaxTime 1000))
             [OpSetClaimable idO (Some (claimableOf 25)); OpSetClaimable 6%N None] in
  ApplyCaminoState_in baseSetters (reversedOrders (caminoDiff_ d)) d scenarioBase
    !! LocClaimable idO
  = Some (CellClaimable (claimableOf 25))
  /\ ApplyCaminoState_in baseSetters (reversedOrders (caminoDiff_ d)) d scenarioBase
       !! LocClaimable 6%N
     = None
  /\ ApplyCaminoState_in baseSetters (reversedOrders (caminoDiff_ d)) d scenarioBase
       !! LocAddressStates 10%N
     = scenarioBase !! LocAddressStates 10%N.
Proof.
  intros d.
  assert (Hwf : diff_wf (caminoDiff_ d)) by apply performAll_wf, newCaminoDiff_wf.
  assert (Hdep : deposits_wf (caminoDiff_ d)).
  { apply performAll_deposits_wf. intros id dd. simpl. by rewrite lookup_empty. }
  pose proof (reversedOrders_rangesOver (caminoDiff_ d)) as Ho.
  split; [|split].
  - exact (ApplyCaminoState_publishes_answers d _ scenarioBase (KClaimable idO)
             Hwf Hdep Ho).
  - exact (ApplyCaminoState_publishes_answers d _ scenarioBase (KClaimable 6%N)
             Hwf Hdep Ho).
  - exact (ApplyCaminoState_publishes_answers d _ scenarioBase (KAddressStates 10%N)
             Hwf Hdep Ho).
Defined.

(** ** Setter calls, one after the other *)

(** X4.  Two setter calls of the diff that write different keys leave the
    same diff in either order, and of two calls that write the same key
    the later one alone decides the diff: nothing of the earlier write is
    kept. *)
Theorem setters_commute_and_overwrite (d : diff) (op1 op2 : Op) :
  (target op1 <> target op2 ->
   perform (perform d op1) op2 = perform (perform d op2) op1)
  /\ (target op1 = target op2 -> perform (perform d op1) op2 = perform d op2).
Proof.
  split; intros Ht.
  - destruct op1, op2; simpl in Ht; try reflexivity;
      unfold perform, SetAddressStates, SetDepositOffer, AddDeposit, ModifyDeposit,
        RemoveDeposit, setDeposit, SetMultisigAlias, SetShortIDLink, SetClaimable,
        SetNotDistributedValidatorReward, with_camino, toShortLinkKey; simpl;
      try congruence;
      do 2 f_equal; apply insert_insert_ne; congruence.
  - destruct op1, op2; simpl in Ht; try discriminate Ht; simplify_eq;
      unfold perform, SetAddressStates, SetDepositOffer, AddDeposit, ModifyDeposit,
        RemoveDeposit, setDeposit, SetMultisigAlias, SetShortIDLink, SetClaimable,
        SetNotDistributedValidatorReward, with_camino, toShortLinkKey; simpl;
      try reflexivity;
      do 2 f_equal; rewrite ?Ht; apply insert_insert_eq.
Qed.

(** The claimable [O] and the address 10 are written in either order; the
    claimable [O] is set and then deleted. *)
Lemma setters_commute_and_overwrite_witness :
  let d := scenarioDiff (scenarioParent scenarioMaxTime 1000) in
  perform (perform d (OpSetClaimable idO (Some (claimableOf 25)))) (OpSetAddressStates 10%N 1)
  = perform (perform d (OpSetAddressStates 10%N 1)) (OpSetClaimable idO (Some (claimableOf 25)))
  /\ perform (perform d (OpSetClaimable idO (Some (claimableOf 25)))) (OpSetClaimable idO None)
     = perform d (OpSetClaimable idO None).
Proof.
  intros d. split.
  - by apply (setters_commute_and_overwrite d).
  - by apply (setters_commute_and_overwrite d).
Defined.

(** ** A diff that holds nothing *)

(** X5.  NewCaminoDiff fails with ErrMissingParentState, which names the
    parent, exactly when the parent is not registered.  The diff it returns
    otherwise holds nothing: LockedUTXOs and GetAllDepositOffers return
    what the parent returns, errors included, and ApplyCaminoState leaves
    every base state as it is. *)
Theorem fresh_diff_is_transparent {S} (baseState : State S)
    (Match : LockIDs -> LockState -> gset ID -> bool) (rangeOrder : gset ID -> list ID)
    (pid : ID) (versions : ID -> option Chain) :
  (forall s, rangeOrder s ≡ₚ elements s) ->
  match versions pid with
  | None => NewCaminoDiff pid versions = Err (ErrMissingParentState pid)
  | Some P =>
      exists d0,
        NewCaminoDiff pid versions = Ok d0
        /\ (forall txIDs addresses lockState,
              answer d0 (LockedUTXOs Match rangeOrder d0 txIDs addresses lockState)
              = Chain_LockedUTXOs P txIDs addresses lockState)
        /\ answer d0 (GetAllDepositOffers d0) = Chain_GetAllDepositOffers P
        /\ (forall o (s : S),
              rangesOver (caminoDiff_ d0) o -> ApplyCaminoState_in baseState o d0 s = s)
  end.
Proof.
  intros Horder. unfold NewCaminoDiff.
  destruct (versions pid) as [P|] eqn:HP; [|done].
  eexists. split; [reflexivity|]. split; [|split].
  - intros txIDs addresses lockState.
    unfold LockedUTXOs, fromParent. simpl. rewrite HP.
    destruct (Chain_LockedUTXOs P txIDs addresses lockState) as [retUtxos|err]; [|done].
    rewrite stepExisting_spec by done.
    rewrite firstn_all, drop_all, app_nil_r, stepAppend_spec.
    assert (rangeOrder (dom (∅ : gmap ID utxoModification)
                          ∖ list_to_set (retUtxos ≫= fun u =>
                              match (∅ : gmap ID utxoModification) !! InputID u with
                              | Some m => [utxoID m]
                              | None => []
                              end)) = []) as ->.
    { apply Permutation_nil_r. rewrite Horder, dom_empty_L.
      rewrite subseteq_empty_difference_L by apply empty_subseteq.
      by rewrite elements_empty. }
    simpl. rewrite app_nil_r. f_equal.
    induction retUtxos as [|u l IH]; [done|].
    rewrite bind_cons, IH. unfold updateExisting. by rewrite lookup_empty.
  - unfold GetAllDepositOffers, fromParent. simpl. rewrite HP.
    destruct (Chain_GetAllDepositOffers P) as [parentOffers|err]; [|done].
    rewrite map_to_list_empty. simpl. f_equal.
    induction parentOffers as [|offer l IH]; [done|].
    rewrite filter_cons, decide_True by apply lookup_empty. by rewrite IH.
  - intros o s (Ha & Ho & Hd & Hm & Hs & Hc & Hv).
    rewrite ApplyCaminoState_in_replay. unfold applyCalls.
    pose proof (nestedRange_calls _ _ Hv) as Hv'. simpl in *.
    rewrite map_to_list_empty in *.
    apply Permutation_nil_r in Ha, Ho, Hd, Hm, Hs, Hc, Hv'.
    by rewrite Ha, Ho, Hd, Hm, Hs, Hc, Hv'.
Qed.

(** Over the scenario parent, registered under 1, a diff is created and
    answers as the parent does; under 2 no state is registered. *)
Lemma fresh_diff_is_transparent_witness :
  (exists d0,
     NewCaminoDiff 1%N (scenarioVersions (scenarioParent scenarioMaxTime 1000)) = Ok d0
     /\ (forall txIDs addresses lockState,
           answer d0 (LockedUTXOs scenarioMatch elements d0 txIDs addresses lockState)
           = Ok [])
     /\ answer d0 (GetAllDepositOffers d0) = Ok []
     /\ (forall o (s : BaseState),
           rangesOver (caminoDiff_ d0) o -> ApplyCaminoState_in baseSetters o d0 s = s))
  /\ NewCaminoDiff 2%N (scenarioVersions (scenarioParent scenarioMaxTime 1000))
     = Err (ErrMissingParentState 2%N).
Proof.
  split.
  - apply (fresh_diff_is_transparent baseSetters scenarioMatch elements 1%N
             (scenarioVersions (scenarioParent scenarioMaxTime 1000))).
    done.
  - apply (fresh_diff_is_transparent baseSetters scenarioMatch elements 2%N
             (scenarioVersions (scenarioParent scenarioMaxTime 1000))).
    done.
Defined.

(** ** A diff whose parent is gone *)

Lemma entryCall_getter d k :
  match entryCall (caminoDiff_ d) k with
  | Some _ => exists a, getter d k = Done a /\ answerError a <> Some (ErrMissingParentState (parentID d))
  | None =>
      exists c, getter d k = AskParent (parentID d) c
        /\ answerError (c None) = Some (ErrMissingParentState (parentID d))
  end.
Proof.
  destruct k; simpl;
    unfold GetAddressStates, GetDepositOffer, GetDeposit, GetMultisigAlias,
      GetShortIDLink, GetClaimable, GetNotDistributedValidatorReward.
  - destruct (modifiedAddressStates (caminoDiff_ d) !! address); simpl;
      eexists; split; reflexivity || done.
  - destruct (modifiedDepositOffers (caminoDiff_ d) !! offerID); simpl;
      eexists; split; reflexivity || done.
  - destruct (modifiedDeposits (caminoDiff_ d) !! depositTxID) as [dd|]; simpl;
      [destruct (removed dd)|]; eexists; split; reflexivity || done.
  - destruct (modifiedMultisigOwners (caminoDiff_ d) !! alias) as [[?|]|]; simpl;
      eexists; split; reflexivity || done.
  - destruct (modifiedShortLinks (caminoDiff_ d) !! toShortLinkKey id key) as [[?|]|];
      simpl; eexists; split; reflexivity || done.
  - destruct (modifiedClaimables (caminoDiff_ d) !! ownerID) as [[?|]|]; simpl;
      eexists; split; reflexivity || done.
  - destruct (modifiedNotDistributedValidatorReward (caminoDiff_ d)); simpl;
      eexists; split; reflexivity || done.
Qed.

(** X6.  Let the parent of a diff not be registered any more.  Whatever
    the diff holds, LockedUTXOs, GetAllDepositOffers and the two
    next-to-unlock queries fail with ErrMissingParentState, which names the
    parent, and the queries leave the caller's set as it is.  A getter fails
    in this way exactly for the keys for which the diff holds no entry of
    its own; an entry of the diff, a tombstone included, is served without
    the parent. *)
Theorem missing_parent_is_reported
    (Match : LockIDs -> LockState -> gset ID -> bool) (rangeOrder : gset ID -> list ID)
    (MaxTime : Time) (o : DepositRanges) (d : diff) :
  stateVersions d (parentID d) = None ->
  (forall txIDs addresses lockState,
     answer d (LockedUTXOs Match rangeOrder d txIDs addresses lockState)
     = Err (ErrMissingParentState (parentID d)))
  /\ answer d (GetAllDepositOffers d) = Err (ErrMissingParentState (parentID d))
  /\ (forall removedDepositIDs,
        answer d (GetNextToUnlockDepositTime_in o MaxTime d removedDepositIDs)
        = ((zeroTime, Some (ErrMissingParentState (parentID d))), removedDepositIDs))
  /\ (forall removedDepositIDs,
        answer d (GetNextToUnlockDepositIDsAndTime_in o MaxTime d removedDepositIDs)
        = (([], zeroTime, Some (ErrMissingParentState (parentID d))), removedDepositIDs))
  /\ (forall k,
        answerError (answer d (getter d k)) = Some (ErrMissingParentState (parentID d))
        <-> entryCall (caminoDiff_ d) k = None).
Proof.
  intros HP. repeat split.
  - intros. unfold LockedUTXOs, fromParent. simpl. by rewrite HP.
  - unfold GetAllDepositOffers, fromParent. simpl. by rewrite HP.
  - intros. simpl. by rewrite HP.
  - intros. simpl. by rewrite HP.
  - pose proof (entryCall_getter d k) as H.
    destruct (entryCall (caminoDiff_ d) k); [|done].
    destruct H as (a & -> & Ha). simpl. intros. by destruct Ha.
  - pose proof (entryCall_getter d k) as H. intros Hnone. rewrite Hnone in H.
    destruct H as (c & -> & Hc). simpl. by rewrite HP.
Qed.

(** The diff marks the deposit [X] removed and its parent is not
    registered: reading [X] gives NotFound, reading the claimable [O], for
    which the diff holds nothing, fails for the missing parent. *)
Lemma missing_parent_is_reported_witness :
  let d := orphanDiff (scenarioParent scenarioMaxTime 1000) in
  answer d (GetAllDepositOffers d) = Err (ErrMissingParentState 2%N)
  /\ answer d (GetDeposit d idX) = Err ErrNotFound
  /\ answerError (answer d (getter d (KClaimable idO)))
     = Some (ErrMissingParentState 2%N).
Proof.
  intros d.
  destruct (missing_parent_is_reported scenarioMatch elements scenarioMaxTime
              (someDepositRanges d) d eq_refl) as (_ & Hoffers & _ & _ & Hget).
  split; [exact Hoffers|]. split; [reflexivity|].
  apply (Hget (KClaimable idO)). reflexivity.
Defined.

(** ** The two next-to-unlock queries agree *)

Lemma markRemoved_Permutation mods mods' (removedDepositIDs : gset ID) :
  mods ≡ₚ mods' ->
  markRemoved mods removedDepositIDs = markRemoved mods' removedDepositIDs.
Proof.
  intros Hp. apply set_eq. intros id. rewrite !elem_of_markRemoved.
  by setoid_rewrite Hp.
Qed.

Lemma earliestAdded_Permutation mods mods' (removedDepositIDs : gset ID) (t0 : Time) :
  mods ≡ₚ mods' ->
  earliestAdded mods removedDepositIDs t0 = earliestAdded mods' removedDepositIDs t0.
Proof.
  intros Hp.
  destruct (earliestAdded_spec removedDepositIDs mods t0) as (Hle & Hlow & Hatt).
  destruct (earliestAdded_spec removedDepositIDs mods' t0) as (Hle' & Hlow' & Hatt').
  apply Z.le_antisymm.
  - destruct Hatt' as [->|(kv & Hin & Hcand & <-)]; [done|].
    apply Hlow; [by rewrite Hp|done].
  - destruct Hatt as [->|(kv & Hin & Hcand & <-)]; [done|].
    apply Hlow'; [by rewrite <- Hp|done].
Qed.

Lemma next_to_unlock_agree MaxTime d o1 o2 removedDepositIDs :
  rangesOverDeposits d o1 ->
  rangesOverDeposits d o2 ->
  (forall P, stateVersions d (parentID d) = Some P -> nextToUnlockAgree P) ->
  answer d (GetNextToUnlockDepositTime_in o1 MaxTime d removedDepositIDs)
  = withoutIDs (answer d (GetNextToUnlockDepositIDsAndTime_in o2 MaxTime d removedDepositIDs)).
Proof.
  intros (Hr1 & He1 & _) (Hr2 & He2 & _) Hagree. simpl.
  destruct (stateVersions d (parentID d)) as [P|]; [|done].
  rewrite (Hagree P eq_refl).
  rewrite (markRemoved_Permutation _ (rangeRemoved o2)) by (by rewrite Hr1, Hr2).
  destruct (Chain_GetNextToUnlockDepositIDsAndTime P
              (markRemoved (rangeRemoved o2) removedDepositIDs))
    as [[[parentIDs t] err] S']. unfold withoutIDs at 1. simpl.
  destruct (isOtherError err); [done|].
  rewrite (earliestAdded_Permutation _ (rangeEarliest o2)) by (by rewrite He1, He2).
  destruct (earliestAdded (rangeEarliest o2) S' t =? MaxTime); [done|].
  by destruct (addedAt _ _ _ _).
Qed.


Lemma reversedDepositRanges_rangesOver d : rangesOverDeposits d (reversedDepositRanges d).
Proof. repeat split; apply reverse_Permutation. Qed.

Lemma scenarioParent_agree MaxTime xEnd : nextToUnlockAgree (scenarioParent MaxTime xEnd).
Proof. intros S. simpl. unfold withoutIDs. by case_decide. Qed.


(** ** The deposit offers that a diff lists *)

Lemma elem_of_diff_offers d P parentOffers :
  stateVersions d (parentID d) = Some P ->
  Chain_GetAllDepositOffers P = Ok parentOffers ->
  exists allOffers,
    answer d (GetAllDepositOffers d) = Ok allOffers
    /\ allOffers
       = omap snd (map_to_list (modifiedDepositOffers (caminoDiff_ d)))
         ++ filter (fun offer =>
                      modifiedDepositOffers (caminoDiff_ d) !! Offer_ID offer = None)
              parentOffers
    /\ forall offer,
         offer ∈ allOffers
         <-> (exists k, modifiedDepositOffers (caminoDiff_ d) !! k = Some (Some offer))
             \/ (offer ∈ parentOffers
                 /\ modifiedDepositOffers (caminoDiff_ d) !! Offer_ID offer = None).
Proof.
  intros HP Hparent. unfold GetAllDepositOffers, fromParent. simpl.
  rewrite HP, Hparent. eexists. split; [reflexivity|]. split; [reflexivity|].
  intros offer. rewrite elem_of_app, list_elem_of_omap, list_elem_of_filter.
  split; (intros [H|H]; [left|right]); try tauto.
  - destruct H as ([k v] & Hin%elem_of_map_to_list & Hv). simpl in Hv. subst v.
    by exists k.
  - destruct H as [k Hk]. exists (k, Some offer). split; [|done].
    by apply elem_of_map_to_list.
Qed.

Lemma own_offers_sublist (l : list (ID * option Offer)) :
  (forall k offer, (k, Some offer) ∈ l -> Offer_ID offer = k) ->
  Offer_ID <$> omap snd l `sublist_of` l.*1.
Proof.
  induction l as [|[k [offer|]] l IH]; intros Hwf; simpl.
  - constructor.
  - rewrite (Hwf k offer) by left. constructor. apply IH.
    intros k' offer' Hin. apply Hwf. by right.
  - constructor. apply IH. intros k' offer' Hin. apply Hwf. by right.
Qed.

(** X8.  Let the parent be registered and list the offers [parentOffers].
    GetAllDepositOffers of the diff lists an offer exactly when the diff
    holds it, or when the parent lists it and the diff holds no entry, nil
    or not, under its identifier.  So an offer of the parent that the diff
    overrides is listed in the diff's version only: when no identifier
    occurs twice in the parent's list and the diff files its offers as
    SetDepositOffer does, no identifier occurs twice in the diff's list. *)
Theorem GetAllDepositOffers_overrides_by_id (d : diff) (P : Chain)
    (parentOffers : list Offer) :
  stateVersions d (parentID d) = Some P ->
  Chain_GetAllDepositOffers P = Ok parentOffers ->
  exists allOffers,
    answer d (GetAllDepositOffers d) = Ok allOffers
    /\ (forall offer,
          offer ∈ allOffers
          <-> (exists k, modifiedDepositOffers (caminoDiff_ d) !! k = Some (Some offer))
              \/ (offer ∈ parentOffers
                  /\ modifiedDepositOffers (caminoDiff_ d) !! Offer_ID offer = None))
    /\ (diff_wf (caminoDiff_ d) ->
        NoDup (Offer_ID <$> parentOffers) ->
        NoDup (Offer_ID <$> allOffers)).
Proof.
  intros HP Hparent.
  destruct (elem_of_diff_offers d P parentOffers HP Hparent) as (allOffers & Hr & Hall & Hin).
  exists allOffers. split; [done|]. split; [done|].
  intros (Hoffers & _) Hnd. rewrite Hall, fmap_app. apply NoDup_app. split; [|split].
  - apply (sublist_NoDup _ (map_to_list (modifiedDepositOffers (caminoDiff_ d))).*1);
      [apply NoDup_fst_map_to_list|apply own_offers_sublist].
    intros k offer Hk%elem_of_map_to_list.
    destruct (Hoffers _ _ Hk) as (offer' & [= <-] & Hid). done.
  - intros id (offer & -> & ([k' v] & Hk%elem_of_map_to_list & Hv)%list_elem_of_omap)%list_elem_of_fmap.
    simpl in Hv. subst v.
    destruct (Hoffers _ _ Hk) as (offer' & [= <-] & Hid). subst k'.
    intros (offer2 & Hid2 & [Hnone _]%list_elem_of_filter)%list_elem_of_fmap.
    rewrite <- Hid2 in Hnone. congruence.
  - eapply sublist_NoDup; [exact Hnd|]. apply fmap_sublist, sublist_filter.
Qed.

(** The parent lists the offers 8 and 9; the diff holds a new version of
    the offer 8: the diff lists its version of 8 and the parent's 9. *)
Lemma GetAllDepositOffers_overrides_by_id_witness :
  let P := diffChain scenarioMaxTime scenarioMatch elements
             (performAll (scenarioDiff (scenarioParent scenarioMaxTime 1000))
                [OpSetDepositOffer lockedOffer; OpSetDepositOffer openOffer]) in
  let d := performAll (scenarioDiff P)
             [OpSetDepositOffer
                {| Offer_ID := 8%N; Flags := 0; MinDuration := 60; MaxDuration := 900 |}] in
  exists allOffers,
    answer d (GetAllDepositOffers d) = Ok allOffers
    /\ allOffers
       = [{| Offer_ID := 8%N; Flags := 0; MinDuration := 60; MaxDuration := 900 |};
          openOffer]
    /\ NoDup (Offer_ID <$> allOffers).
Proof.
  intros P d.
  destruct (GetAllDepositOffers_overrides_by_id d P
              (omap snd (map_to_list
                 (modifiedDepositOffers (caminoDiff_
                    (performAll (scenarioDiff (scenarioParent scenarioMaxTime 1000))
                       [OpSetDepositOffer lockedOffer; OpSetDepositOffer openOffer]))))
               ++ []))
    as (allOffers & Hr & _ & Hnd).
  - reflexivity.
  - reflexivity.
  - exists allOffers. split; [exact Hr|].
    assert (Hall : allOffers
              = [{| Offer_ID := 8%N; Flags := 0; MinDuration := 60; MaxDuration := 900 |};
                 openOffer]).
    { vm_compute in Hr. by injection Hr as <-. }
    split; [exact Hall|]. apply Hnd.
    + apply performAll_wf, newCaminoDiff_wf.
    + vm_compute. apply NoDup_cons. split; [|apply NoDup_singleton].
      by intros ?%list_elem_of_singleton.
Defined.

(** X9.  Let the parent be registered and list exactly the offers that it
    resolves by their identifiers, and let the diff file its offers as
    SetDepositOffer does.  Then the same holds of the diff: an offer is in
    the list of GetAllDepositOffers exactly when GetDepositOffer, asked for
    its identifier, returns it.  So the property passes from a state to
    every diff above it. *)
Theorem offers_listed_iff_resolvable (d : diff) (P : Chain) :
  stateVersions d (parentID d) = Some P ->
  diff_wf (caminoDiff_ d) ->
  offersAgree P ->
  exists allOffers,
    answer d (GetAllDepositOffers d) = Ok allOffers
    /\ forall offer,
         offer ∈ allOffers
         <-> answer d (GetDepositOffer d (Offer_ID offer)) = Ok (Some offer).
Proof.
  intros HP (Hoffers & _) (parentOffers & Hparent & Hagree).
  destruct (elem_of_diff_offers d P parentOffers HP Hparent) as (allOffers & Hr & _ & Hin).
  exists allOffers. split; [done|].
  intros offer. rewrite Hin. unfold GetDepositOffer.
  destruct (modifiedDepositOffers (caminoDiff_ d) !! Offer_ID offer) as [o|] eqn:Ho; simpl.
  - split.
    + intros [[k Hk]|[_ ?]]; [|done].
      destruct (Hoffers _ _ Hk) as (offer' & [= <-] & <-). congruence.
    + intros [= ->]. left. by exists (Offer_ID offer).
  - rewrite HP, <- Hagree. split.
    + intros [[k Hk]|[? _]]; [|done].
      destruct (Hoffers _ _ Hk) as (offer' & [= <-] & <-). congruence.
    + intros Hin'. by right.
Qed.

(** The lower diff holds the offers 8 and 9 over a parent without offers;
    the upper diff holds a new version of the offer 8.  Both list what
    they resolve. *)
Lemma offers_listed_iff_resolvable_witness :
  let lower := performAll (scenarioDiff (scenarioParent scenarioMaxTime 1000))
                 [OpSetDepositOffer lockedOffer; OpSetDepositOffer openOffer] in
  let d := performAll
             (scenarioDiff (diffChain scenarioMaxTime scenarioMatch elements lower))
             [OpSetDepositOffer
                {| Offer_ID := 8%N; Flags := 0; MinDuration := 60; MaxDuration := 900 |}] in
  exists allOffers,
    answer d (GetAllDepositOffers d) = Ok allOffers
    /\ forall offer,
         offer ∈ allOffers
         <-> answer d (GetDepositOffer d (Offer_ID offer)) = Ok (Some offer).
Proof.
  intros lower d.
  apply (offers_listed_iff_resolvable d
           (diffChain scenarioMaxTime scenarioMatch elements lower)).
  - reflexivity.
  - apply performAll_wf, newCaminoDiff_wf.
  - apply (offers_listed_iff_resolvable lower (scenarioParent scenarioMaxTime 1000)).
    + reflexivity.
    + apply performAll_wf, newCaminoDiff_wf.
    + exists []. split; [reflexivity|]. intros offer. split; [|done].
      by intros ?%elem_of_nil.
Defined.

(** ** The locked UTXOs that a diff returns *)

Lemma updateExisting_sublist modified (l : list UTXO) :
  utxos_wf modified ->
  InputID <$> (l ≫= updateExisting modified) `sublist_of` InputID <$> l.
Proof.
  intros Hwf. induction l as [|u l IH]; [constructor|].
  rewrite bind_cons, fmap_app, fmap_cons. unfold updateExisting at 1.
  destruct (modified !! InputID u) as [m|] eqn:Hm.
  - destruct (utxo m) as [u'|] eqn:Hu'; simpl.
    + destruct (Hwf _ _ Hm) as [_ Hid]. rewrite (Hid _ Hu'). by constructor.
    + by constructor.
  - simpl. by constructor.
Qed.

Lemma introduced_Some Match modified txIDs lockState id u :
  introduced Match modified txIDs lockState id = Some u ->
  exists m, modified !! id = Some m /\ utxo m = Some u.
Proof.
  unfold introduced. destruct (modified !! id) as [m|]; [|done].
  destruct (utxo m) as [u'|] eqn:Hu'; [|done].
  destruct (UTXO_Out u'); [|done].
  destruct (Match ids lockState txIDs); [|done].
  intros [= <-]. by exists m.
Qed.

Lemma introduced_sublist Match modified txIDs lockState (order : list ID) :
  utxos_wf modified ->
  InputID <$> omap (introduced Match modified txIDs lockState) order `sublist_of` order.
Proof.
  intros Hwf. induction order as [|id order IH]; [constructor|]. simpl.
  destruct (introduced Match modified txIDs lockState id) as [u|] eqn:Hu.
  - destruct (introduced_Some _ _ _ _ _ _ Hu) as (m & Hm & Hmu).
    destruct (Hwf _ _ Hm) as [_ Hid]. simpl. rewrite (Hid _ Hmu). by constructor.
  - by constructor.
Qed.

(** X10.  Let the parent be registered and answer [parentUTXOs], and let
    the entries of [modifiedUTXOs] be filed as AddUTXO and DeleteUTXO file
    them.  Every UTXO that LockedUTXOs returns is either a UTXO of the
    parent's answer for which the diff holds no entry, or the UTXO that the
    diff holds under its identifier: a UTXO that the diff has deleted is
    never returned, and neither is the parent's version of a UTXO that the
    diff holds.  When no identifier occurs twice in the parent's answer,
    none occurs twice in the diff's. *)
Theorem LockedUTXOs_never_stale
    (Match : LockIDs -> LockState -> gset ID -> bool) (rangeOrder : gset ID -> list ID)
    (d : diff) (P : Chain) (txIDs : gset ID) (addresses : gset ShortID)
    (lockState : LockState) (parentUTXOs : list UTXO) :
  stateVersions d (parentID d) = Some P ->
  Chain_LockedUTXOs P txIDs addresses lockState = Ok parentUTXOs ->
  utxos_wf (modifiedUTXOs d) ->
  (forall s, rangeOrder s ≡ₚ elements s) ->
  exists utxos,
    answer d (LockedUTXOs Match rangeOrder d txIDs addresses lockState) = Ok utxos
    /\ (forall u,
          u ∈ utxos ->
          (u ∈ parentUTXOs /\ modifiedUTXOs d !! InputID u = None)
          \/ (exists m, modifiedUTXOs d !! InputID u = Some m /\ utxo m = Some u))
    /\ (NoDup (InputID <$> parentUTXOs) -> NoDup (InputID <$> utxos)).
Proof.
  intros HP Hparent Hwf Horder.
  unfold LockedUTXOs, fromParent. simpl. rewrite HP, Hparent.
  rewrite stepExisting_spec by done.
  rewrite firstn_all, drop_all, app_nil_r, stepAppend_spec.
  rewrite remaining_after_stepExisting by (intros k m Hm; by destruct (Hwf k m Hm)).
  eexists. split; [reflexivity|]. split.
  - intros u [Hu|Hu]%elem_of_app.
    + apply list_elem_of_bind in Hu as (p & Hu & Hp). unfold updateExisting in Hu.
      destruct (modifiedUTXOs d !! InputID p) as [m|] eqn:Hm.
      * destruct (utxo m) as [u'|] eqn:Hu'; [|by apply elem_of_nil in Hu].
        apply list_elem_of_singleton in Hu as ->. right.
        destruct (Hwf _ _ Hm) as [_ Hid]. rewrite (Hid _ Hu'). by exists m.
      * apply list_elem_of_singleton in Hu as ->. by left.
    + apply list_elem_of_omap in Hu as (id & _ & Hu).
      destruct (introduced_Some _ _ _ _ _ _ Hu) as (m & Hm & Hmu). right.
      destruct (Hwf _ _ Hm) as [_ Hid]. rewrite (Hid _ Hmu). by exists m.
  - intros Hnd. rewrite fmap_app. apply NoDup_app. split; [|split].
    + by apply (sublist_NoDup _ (InputID <$> parentUTXOs)), updateExisting_sublist.
    + intros id Hin1 Hin2.
      eapply elem_of_sublist in Hin1; [|by apply updateExisting_sublist].
      eapply elem_of_sublist in Hin2; [|by apply introduced_sublist].
      rewrite Horder in Hin2. apply elem_of_elements, elem_of_difference in Hin2 as [_ Hnot].
      apply Hnot. by apply elem_of_list_to_set.
    + eapply sublist_NoDup; [|by apply introduced_sublist].
      rewrite Horder. apply NoDup_elements.
Qed.

(** The parent answers with the bonded UTXOs 1, 2 and 3; the diff deletes
    1, holds a new version of 2 and adds the bonded UTXO 4: the answer
    holds the identifiers 2, 3 and 4 once each, and not the deleted 1. *)
Lemma LockedUTXOs_never_stale_witness :
  let d := utxoDiff [bondedUTXO 1 20; bondedUTXO 2 20; bondedUTXO 3 20]
             [{| utxoID := 1%N; utxo := None |};
              {| utxoID := 2%N; utxo := Some (bondedUTXO 2 21) |};
              {| utxoID := 4%N; utxo := Some (bondedUTXO 4 20) |}] in
  exists utxos,
    answer d (LockedUTXOs scenarioMatch elements d {[ 20%N ]} ∅ StateBonded) = Ok utxos
    /\ utxos = [bondedUTXO 2 21; bondedUTXO 3 20; bondedUTXO 4 20]
    /\ NoDup (InputID <$> utxos).
Proof.
  intros d.
  destruct (LockedUTXOs_never_stale scenarioMatch elements d
              (withLockedUTXOs (scenarioParent scenarioMaxTime 1000)
                 [bondedUTXO 1 20; bondedUTXO 2 20; bondedUTXO 3 20])
              {[ 20%N ]} ∅ StateBonded
              [bondedUTXO 1 20; bondedUTXO 2 20; bondedUTXO 3 20])
    as (utxos & Hr & _ & Hnd).
  - reflexivity.
  - reflexivity.
  - intros k m Hkm. apply elem_of_list_to_map_2 in Hkm.
    apply list_elem_of_fmap in Hkm as (m' & [= -> ->] & Hm').
    split; [done|]. intros u Hu.
    repeat (apply elem_of_cons in Hm' as [->|Hm']; [simpl in Hu; by simplify_eq|]).
    by apply elem_of_nil in Hm'.
  - done.
  - exists utxos. split; [exact Hr|]. split.
    + vm_compute in Hr. by injection Hr as <-.
    + apply Hnd. vm_compute.
      apply NoDup_cons. split.
      { intros [?|[?|Hn]%elem_of_cons]%elem_of_cons; try done. by apply elem_of_nil in Hn. }
      apply NoDup_cons. split; [|apply NoDup_singleton].
      by intros ?%list_elem_of_singleton.
Defined.

(** ** The keys that sign for addresses *)

Lemma Keychain_Get_NewKeychain keys addr :
  match Keychain_Get (NewKeychain keys) addr with
  | Some key => Key_Address key = addr /\ key ∈ keys
  | None => addr ∉ Key_Address <$> keys
  end.
Proof.
  unfold Keychain_Get, NewKeychain.
  destruct (filter _ _) as [|key l] eqn:Hf; simpl.
  - intros Hin.
    assert (Hin' : addr ∈ Key_Address <$> Keys (foldl Keychain_Add {| Keys := [] |} keys)).
    { apply foldl_Keychain_Add_addresses. by right. }
    apply list_elem_of_fmap in Hin' as (key & -> & Hkey).
    assert (Hk : key ∈ filter (fun key' => Key_Address key' = Key_Address key)
                   (Keys (foldl Keychain_Add {| Keys := [] |} keys))).
    { by apply list_elem_of_filter. }
    rewrite Hf in Hk. by apply elem_of_nil in Hk.
  - assert (Hk : key ∈ filter (fun key' => Key_Address key' = addr)
                   (Keys (foldl Keychain_Add {| Keys := [] |} keys))).
    { rewrite Hf. by left. }
    apply list_elem_of_filter in Hk as [Ha Hk]. split; [done|].
    apply foldl_Keychain_Add_keys in Hk as [Hk|Hk]; [|done].
    by apply elem_of_nil in Hk.
Qed.

(** X11.  getSigners returns, for a list of addresses, one key per address
    and in the order of the addresses: the key at a position has the
    address at that position and is one of the given keys.  It fails
    exactly when one of the addresses has no key among the given keys; the
    error then wraps errKeyMissing and names the first such address. *)
Theorem getSigners_one_key_per_address (addrString : ShortID -> string)
    (keys : list PrivateKey) (addresses : list ShortID) :
  match getSigners addrString keys addresses with
  | Ok signers =>
      Key_Address <$> signers = addresses
      /\ Forall (fun key => key ∈ keys) signers
  | Err err =>
      exists before addr after,
        addresses = before ++ addr :: after
        /\ Forall (fun a => a ∈ Key_Address <$> keys) before
        /\ (addr ∉ Key_Address <$> keys)
        /\ err = ErrWrap (addrString addr) errKeyMissing
  end.
Proof.
  induction addresses as [|addr rest IH]; simpl.
  - by split.
  - pose proof (Keychain_Get_NewKeychain keys addr) as Hget.
    destruct (Keychain_Get (NewKeychain keys) addr) as [key|].
    + destruct Hget as [Ha Hk].
      destruct (getSigners addrString keys rest) as [signers|err].
      * destruct IH as [IH1 IH2]. split.
        -- by rewrite fmap_cons, Ha, IH1.
        -- by constructor.
      * destruct IH as (before & a & after & -> & Hbefore & Hnot & ->).
        exists (addr :: before), a, after. repeat split; try done.
        constructor; [|done]. rewrite <- Ha. apply list_elem_of_fmap. by exists key.
    + by exists [], addr, rest.
Qed.

(** ** The credentials of a transaction that registers a node *)

Lemma nodeSignersOf_spec EmptyNodeID addrString keys newNodeID :
  match nodeSignersOf EmptyNodeID addrString keys newNodeID with
  | Ok nodeSigners =>
      if decide (newNodeID = EmptyNodeID) then nodeSigners = []
      else exists key, nodeSigners = [key] /\ Key_Address key = newNodeID /\ key ∈ keys
  | Err err =>
      newNodeID <> EmptyNodeID
      /\ (newNodeID ∉ Key_Address <$> keys)
      /\ err = ErrWrap (addrString newNodeID) errKeyMissing
  end.
Proof.
  unfold nodeSignersOf, getSigner.
  destruct (decide (newNodeID <> EmptyNodeID)) as [Hne|Heq].
  - pose proof (getSigners_keys := Keychain_Get_NewKeychain keys newNodeID).
    simpl. destruct (Keychain_Get (NewKeychain keys) newNodeID) as [key|].
    + rewrite decide_False by done. destruct getSigners_keys. by exists key.
    + done.
  - apply dec_stable in Heq. by rewrite decide_True.
Qed.

(** X12.  A transaction that NewRegisterNodeTx returns carries, after the
    credentials of the spender's signer entries, exactly two credentials:
    first the one of the new node, which holds no key when the new node
    identifier is the empty one and otherwise holds one of the given keys,
    the one whose address is the new node identifier; then the one of the
    consortium member, which holds the keys that the keychain's multisig
    spend of an output owned by that member returns.  The signature indices
    of that spend are the transaction's consortium member authorisation. *)
Theorem NewRegisterNodeTx_two_trailing_credentials (e : registerNodeEnv)
    (oldNodeID newNodeID : NodeID) (consortiumMemberAddress : ShortID)
    (keys : list PrivateKey) (change : option OutputOwners)
    (tx : SignedRegisterNodeTx) (err : option error) :
  NewRegisterNodeTx e oldNodeID newNodeID consortiumMemberAddress keys change
  = (Some tx, err) ->
  exists ins outs signers nodeSigners sigIndices consortiumSigners,
    b_Lock (r_builder e) keys 0 (b_TxFee (r_builder e)) StateUnlocked None change 0
    = Ok (ins, outs, signers)
    /\ (if decide (newNodeID = r_EmptyNodeID e) then nodeSigners = []
        else exists key,
               nodeSigners = [key] /\ Key_Address key = newNodeID /\ key ∈ keys)
    /\ r_SpendMultiSig e (NewKeychain keys)
         {| Locktime := 0; Threshold := 1; Addrs := [consortiumMemberAddress] |} 0
       = Ok (sigIndices, consortiumSigners)
    /\ RegisterNode_Creds tx
       = ((fun keys => {| Cred_Signers := keys |}) <$> signers)
         ++ [{| Cred_Signers := nodeSigners |}; {| Cred_Signers := consortiumSigners |}]
    /\ RegisterNode_Unsigned tx
       = {| RegisterNodeTx_BaseTx :=
              {| NetworkID := b_NetworkID (r_builder e);
                 BlockchainID := b_ChainID (r_builder e);
                 Ins := ins; Outs := outs |};
            OldNodeID := oldNodeID;
            NewNodeID := newNodeID;
            ConsortiumMemberAuth := sigIndices;
            ConsortiumMemberAddress := consortiumMemberAddress |}
    /\ err = r_SyntacticVerify e tx.
Proof.
  unfold NewRegisterNodeTx.
  destruct (b_Lock _ _ _ _ _ _ _ _) as [[[ins outs] signers]|]; [|done].
  pose proof (nodeSignersOf_spec (r_EmptyNodeID e) (r_addrString e) keys newNodeID)
    as Hnode.
  destruct (nodeSignersOf (r_EmptyNodeID e) (r_addrString e) keys newNodeID)
    as [nodeSigners|]; [|done].
  destruct (r_SpendMultiSig e _ _ _) as [[sigIndices consortiumSigners]|]; [|done].
  destruct (r_signError e _ _); [done|].
  intros [= <- <-]. exists ins, outs, signers, nodeSigners, sigIndices, consortiumSigners.
  repeat split; try done. simpl.
  by rewrite !fmap_app, <- app_assoc.
Qed.

(** The keys are those of the consortium member, 10, and of the new node,
    12: the transaction carries the credential of the fee input, then the
    node's key, then the member's key. *)
Lemma NewRegisterNodeTx_two_trailing_credentials_witness :
  exists tx,
    NewRegisterNodeTx scenarioRegisterNodeEnv 0%N 12%N 10%N [keyA; keyNode] None
    = (Some tx, None)
    /\ RegisterNode_Creds tx
       = [{| Cred_Signers := [keyA; keyNode] |};
          {| Cred_Signers := [keyNode] |};
          {| Cred_Signers := [keyA] |}].
Proof.
  assert (Hnew : exists tx,
            NewRegisterNodeTx scenarioRegisterNodeEnv 0%N 12%N 10%N [keyA; keyNode] None
            = (Some tx, None)) by (eexists; reflexivity).
  destruct Hnew as [tx Hnew]. exists tx. split; [exact Hnew|].
  destruct (NewRegisterNodeTx_two_trailing_credentials scenarioRegisterNodeEnv
              0%N 12%N 10%N [keyA; keyNode] None tx None Hnew)
    as (ins & outs & signers & nodeSigners & sigIndices & consortiumSigners
        & Hlock & Hnode & Hspend & Hcreds & _).
  rewrite Hcreds.
  injection Hlock as <- <- <-.
  vm_compute in Hspend. injection Hspend as <- <-.
  rewrite decide_False in Hnode by done.
  destruct Hnode as (key & -> & Ha & Hk).
  apply elem_of_cons in Hk as [->|Hk]; [discriminate Ha|].
  apply list_elem_of_singleton in Hk as ->.
  reflexivity.
Defined.

(** ** A builder that returns neither a transaction nor an error *)

Lemma importInputs_neither b now utxos :
  importInputs b now utxos = inl None
  <-> exists imported utxo rest,
        utxos = imported ++ utxo :: rest
        /\ Forall (fun u => exists amount sigIndices,
                     b_treasurySpend b (UTXO_Out u) now
                     = Ok (TransferableIn amount sigIndices)) imported
        /\ b_treasurySpend b (UTXO_Out utxo) now = Ok OtherIn.
Proof.
  induction utxos as [|u utxos IH]; simpl.
  - split; [done|]. intros (imported & ? & ? & H & _). by destruct imported.
  - destruct (b_treasurySpend b (UTXO_Out u) now) as [[amount sigIndices|]|err] eqn:Hu.
    + destruct (importInputs b now utxos) as [e|ins] eqn:Hrest.
      * split.
        -- intros [= ->]. destruct (proj1 IH eq_refl) as (imported & utxo & rest & -> & Hall & Hodd).
           exists (u :: imported), utxo, rest. repeat split; try done.
           constructor; [by eauto|done].
        -- intros (imported & utxo & rest & Heq & Hall & Hodd).
           destruct imported as [|u' imported]; simplify_eq/=; [congruence|].
           apply Forall_cons in Hall as [_ Hall].
           assert (He : @inl (option error) (list TransferableInput) e = inl None).
           { apply IH. by exists imported, utxo, rest. }
           by injection He as ->.
      * split; [done|].
        intros (imported & utxo & rest & Heq & Hall & Hodd).
        destruct imported as [|u' imported]; simplify_eq/=; [congruence|].
        apply Forall_cons in Hall as [_ Hall].
        assert (@inr (option error) _ ins = inl None); [|done].
        apply IH. by exists imported, utxo, rest.
    + split; [|done]. intros _. by exists [], u, utxos.
    + split; [done|].
      intros (imported & utxo & rest & Heq & Hall & Hodd).
      destruct imported as [|u' imported]; simplify_eq/=; [congruence|].
      apply Forall_cons in Hall as [(? & ? & Hu') _]. congruence.
Qed.

(** X13.  NewClaimTx returns an error whenever it returns no transaction.
    NewRewardsImportTx does not: it returns neither a transaction nor an
    error exactly when, in lock mode and with the UTXOs of shared memory
    fetched, the treasury keychain spends one of the UTXOs to import into
    an input that is not a transferable input, having spent those before it
    into transferable inputs. *)
Theorem NewRewardsImportTx_neither_tx_nor_error (b : caminoBuilder) :
  (forall depositTxIDs claimableOwnerIDs amountToClaim claimTo keys change,
     NewClaimTx b depositTxIDs claimableOwnerIDs amountToClaim claimTo keys change
     <> (None, None))
  /\ (NewRewardsImportTx b = (None, None)
      <-> exists caminoGenesis allUTXOsBytes imported utxo rest,
            b_CaminoConfig b = Ok caminoGenesis
            /\ LockModeBondDeposit caminoGenesis = true
            /\ b_Indexed b = Ok allUTXOsBytes
            /\ importableUTXOs b (b_clkUnix b) allUTXOsBytes = imported ++ utxo :: rest
            /\ Forall (fun u => exists amount sigIndices,
                         b_treasurySpend b (UTXO_Out u) (b_clkUnix b)
                         = Ok (TransferableIn amount sigIndices)) imported
            /\ b_treasurySpend b (UTXO_Out utxo) (b_clkUnix b) = Ok OtherIn).
Proof.
  split.
  - intros *. unfold NewClaimTx.
    destruct (b_CaminoConfig b) as [caminoGenesis|]; [|done].
    destruct (LockModeBondDeposit caminoGenesis); [|done]. simpl.
    destruct (b_Lock _ _ _ _ _ _ _ _) as [[[ins outs] signers]|]; [|done].
    destruct (depositSigners _ _ _ _); [|done].
    destruct (claimableSigners _ _ _ _); [|done].
    by destruct (NewSigned _ _ _).
  - unfold NewRewardsImportTx.
    destruct (b_CaminoConfig b) as [caminoGenesis|].
    2: { split; [done|]. by intros (? & ? & ? & ? & ? & ? & _). }
    destruct (LockModeBondDeposit caminoGenesis) eqn:Hmode; simpl.
    2: { split; [done|]. intros (? & ? & ? & ? & ? & [= <-] & ? & _). congruence. }
    destruct (b_Indexed b) as [allUTXOsBytes|].
    2: { split; [done|]. by intros (? & ? & ? & ? & ? & _ & _ & ? & _). }
    case_bool_decide as Hlen.
    { split; [done|]. intros (? & ? & imported & ? & ? & _ & _ & [= <-] & Heq & _).
      rewrite Heq in Hlen. rewrite length_app in Hlen. simpl in Hlen. lia. }
    destruct (importInputs b (b_clkUnix b) _) as [e|ins] eqn:Himp.
    + split.
      * intros [= ->]. apply importInputs_neither in Himp
          as (imported & utxo & rest & Heq & Hall & Hodd).
        by exists caminoGenesis, allUTXOsBytes, imported, utxo, rest.
      * intros (? & ? & imported & utxo & rest & _ & _ & [= <-] & Heq & Hall & Hodd).
        assert (importInputs b (b_clkUnix b)
                  (importableUTXOs b (b_clkUnix b) allUTXOsBytes) = inl None) as Hn.
        { apply importInputs_neither. by exists imported, utxo, rest. }
        rewrite Hn in Himp. by injection Himp as <-.
    + split.
      * by destruct (NewSigned _ _ _).
      * intros (? & ? & imported & utxo & rest & _ & _ & [= <-] & Heq & Hall & Hodd).
        assert (importInputs b (b_clkUnix b)
                  (importableUTXOs b (b_clkUnix b) allUTXOsBytes) = inl None) as Hn.
        { apply importInputs_neither. by exists imported, utxo, rest. }
        congruence.
Qed.

(** Shared memory holds one UTXO that is old enough, and the treasury
    keychain spends it into an input that is not a transferable input: the
    builder returns no transaction and no error. *)
Lemma NewRewardsImportTx_neither_tx_nor_error_witness :
  NewRewardsImportTx (oddTreasuryBuilder [[x02; x01; x32]]) = (None, None).
Proof.
  apply (NewRewardsImportTx_neither_tx_nor_error (oddTreasuryBuilder [[x02; x01; x32]])).
  exists {| VerifyNodeSignature := true; LockModeBondDeposit := true |},
    [[x02; x01; x32]], [], (plainUTXO 2), [].
  repeat split; constructor.
Defined.

(** ** The balances of an address *)

Lemma MaxUint64_eq : MaxUint64 = 18446744073709551615.
Proof. reflexivity. Qed.

Section Balance.
Context (SafeAdd : Z -> Z -> Z) (LockStateOf : LockIDs -> LockState).
Hypothesis SafeAdd_saturates :
  forall x y, 0 <= x <= MaxUint64 -> 0 <= y <= MaxUint64 -> SafeAdd x y = saturatingAdd x y.

Lemma balanceField_countUTXO lockState r utxo :
  balanceField lockState (countUTXO SafeAdd LockStateOf r utxo)
  = match countsIn LockStateOf lockState utxo with
    | Some amount =>
        addAmount SafeAdd (balanceField lockState r) (Balance_AssetID utxo) amount
    | None => balanceField lockState r
    end.
Proof.
  unfold countUTXO, countsIn, countedAs.
  destruct (Balance_Out utxo) as [amount|ids amount|]; [| |done].
  - by destruct lockState as [[]|].
  - by destruct (LockStateOf ids), lockState as [[]|].
Qed.

Lemma sumIn_nonneg lockState assetID utxos :
  amountsInRange LockStateOf utxos -> 0 <= sumIn LockStateOf lockState assetID utxos.
Proof.
  induction 1 as [|utxo utxos Hu _ IH]; simpl; [done|].
  unfold countsIn.
  destruct (countedAs LockStateOf (Balance_Out utxo)) as [[st amount]|]; [|done].
  specialize (Hu st amount eq_refl).
  destruct lockState as [lockState|]; repeat case_decide; lia.
Qed.

Lemma amountOf_fold lockState assetID utxos r :
  amountsInRange LockStateOf utxos ->
  0 <= amountOf (balanceField lockState r) assetID <= MaxUint64 ->
  amountOf (balanceField lockState (foldl (countUTXO SafeAdd LockStateOf) r utxos)) assetID
  = saturated (amountOf (balanceField lockState r) assetID
               + sumIn LockStateOf lockState assetID utxos).
Proof.
  intros Hrange. revert r.
  induction Hrange as [|utxo utxos Hu Hrange IH]; intros r Hr; simpl.
  - unfold saturated. lia.
  - pose proof (sumIn_nonneg lockState assetID utxos Hrange) as Hsum.
    assert (Hstep :
      amountOf (balanceField lockState (countUTXO SafeAdd LockStateOf r utxo)) assetID
      = match countsIn LockStateOf lockState utxo with
        | Some amount =>
            if decide (Balance_AssetID utxo = assetID)
            then saturated (amountOf (balanceField lockState r) assetID + amount)
            else amountOf (balanceField lockState r) assetID
        | None => amountOf (balanceField lockState r) assetID
        end
      /\ forall amount, countsIn LockStateOf lockState utxo = Some amount -> 0 <= amount <= MaxUint64).
    { rewrite balanceField_countUTXO. unfold countsIn in *.
      destruct (countedAs LockStateOf (Balance_Out utxo)) as [[st amount]|]; [|done].
      specialize (Hu st amount eq_refl).
      assert (Hadd :
        amountOf (addAmount SafeAdd (balanceField lockState r) (Balance_AssetID utxo)
                    amount) assetID
        = if decide (Balance_AssetID utxo = assetID)
          then saturated (amountOf (balanceField lockState r) assetID + amount)
          else amountOf (balanceField lockState r) assetID).
      { unfold addAmount, amountOf at 1. rewrite lookup_insert.
        case_decide as Ha; [|done]. subst assetID. simpl.
        by rewrite SafeAdd_saturates. }
      destruct lockState as [lockState|]; [destruct (decide (st = lockState))|];
        (split; [first [exact Hadd|reflexivity]|]);
        intros amount' Heq; try discriminate Heq; by injection Heq as <-. }
    destruct Hstep as [Hstep Hamount].
    rewrite IH.
    + rewrite Hstep. destruct (countsIn LockStateOf lockState utxo) as [amount|]; [|done].
      specialize (Hamount amount eq_refl).
      case_decide; [|done]. unfold saturated. rewrite MaxUint64_eq in *. lia.
    + rewrite Hstep. destruct (countsIn LockStateOf lockState utxo) as [amount|]; [|done].
      specialize (Hamount amount eq_refl).
      case_decide; [|done]. unfold saturated. rewrite MaxUint64_eq in *. lia.
Qed.

Lemma UTXOIDs_fold utxos r :
  UTXOIDs (foldl (countUTXO SafeAdd LockStateOf) r utxos)
  = UTXOIDs r
    ++ (Balance_UTXOID <$> filter (fun utxo => is_Some (countedAs LockStateOf (Balance_Out utxo))) utxos).
Proof.
  revert r. induction utxos as [|utxo utxos IH]; intros r; simpl.
  - by rewrite app_nil_r.
  - rewrite IH, filter_cons. unfold countUTXO, countedAs.
    destruct (Balance_Out utxo) as [amount|ids amount|].
    + rewrite decide_True by done. simpl. by rewrite <- app_assoc.
    + destruct (LockStateOf ids).
      * rewrite decide_False by (by intros []). done.
      * rewrite decide_True by done. simpl. by rewrite <- app_assoc.
      * rewrite decide_True by done. simpl. by rewrite <- app_assoc.
      * rewrite decide_True by done. simpl. by rewrite <- app_assoc.
    + rewrite decide_False by (by intros []). done.
Qed.

Lemma sumIn_lockState lockState assetID utxos :
  sumIn LockStateOf (Some lockState) assetID utxos
  = sumCounted LockStateOf lockState assetID utxos.
Proof.
  induction utxos as [|utxo utxos IH]; simpl; [done|]. rewrite IH.
  unfold countsIn.
  destruct (countedAs LockStateOf (Balance_Out utxo)) as [[st amount]|]; [|done].
  repeat case_decide; try done; tauto.
Qed.

Lemma sumIn_all assetID utxos :
  sumIn LockStateOf None assetID utxos
  = sumCounted LockStateOf StateUnlocked assetID utxos
    + sumCounted LockStateOf StateBonded assetID utxos
    + sumCounted LockStateOf StateDeposited assetID utxos
    + sumCounted LockStateOf StateDepositedBonded assetID utxos.
Proof.
  induction utxos as [|utxo utxos IH]; simpl; [done|]. rewrite IH.
  unfold countsIn.
  destruct (countedAs LockStateOf (Balance_Out utxo)) as [[st amount]|]; [|done].
  destruct st; repeat case_decide; try lia;
    repeat match goal with H : _ /\ _ |- _ => destruct H end;
    repeat match goal with H : ~ (_ /\ _) |- _ => apply not_and_l in H as [?|?] end;
    try done; try lia.
Qed.
End Balance.

(** X14.  Let [SafeAdd] add [uint64] values and stop at the largest one.
    In lock mode, when the addresses are parsed and their UTXOs are read,
    GetBalance answers with the response of this service, in which, for
    every asset, each of the four maps of outputs holds the sum of the
    amounts of the asset's UTXOs in its lock state (a transfer output counts
    as unlocked), and the balance is the sum of the four, each sum stopping
    at the largest [uint64].  A locked output whose lock state is unlocked
    and an output of another type are counted nowhere, and the identifiers
    listed are those of the UTXOs counted, in their order. *)
Theorem GetBalance_sums_per_lock_state {A : Type} (SafeAdd : Z -> Z -> Z)
    (LockStateOf : LockIDs -> LockState)
    (caminoConfig : CaminoConfig) (avaxGetBalance : result A)
    (ParseServiceAddresses : list string -> result (gset ShortID))
    (GetAllUTXOs : gset ShortID -> result (list BalanceUTXO))
    (Address : option string) (Addresses : list string)
    (addrs : gset ShortID) (utxos : list BalanceUTXO) :
  (forall x y, 0 <= x <= MaxUint64 -> 0 <= y <= MaxUint64 ->
     SafeAdd x y = saturatingAdd x y) ->
  LockModeBondDeposit caminoConfig = true ->
  ParseServiceAddresses
    (match Address with Some address => Addresses ++ [address] | None => Addresses end)
  = Ok addrs ->
  GetAllUTXOs addrs = Ok utxos ->
  amountsInRange LockStateOf utxos ->
  exists r,
    CaminoService_GetBalance SafeAdd LockStateOf (Ok caminoConfig) avaxGetBalance
      ParseServiceAddresses GetAllUTXOs Address Addresses
    = Ok (inr r)
    /\ UTXOIDs r
       = Balance_UTXOID <$>
           filter (fun utxo => is_Some (countedAs LockStateOf (Balance_Out utxo))) utxos
    /\ forall assetID,
         amountOf (UnlockedOutputs r) assetID
         = saturated (sumCounted LockStateOf StateUnlocked assetID utxos)
         /\ amountOf (BondedOutputs r) assetID
            = saturated (sumCounted LockStateOf StateBonded assetID utxos)
         /\ amountOf (DepositedOutputs r) assetID
            = saturated (sumCounted LockStateOf StateDeposited assetID utxos)
         /\ amountOf (DepositedBondedOutputs r) assetID
            = saturated (sumCounted LockStateOf StateDepositedBonded assetID utxos)
         /\ amountOf (Balances r) assetID
            = saturated (amountOf (UnlockedOutputs r) assetID
                         + amountOf (BondedOutputs r) assetID
                         + amountOf (DepositedOutputs r) assetID
                         + amountOf (DepositedBondedOutputs r) assetID).
Proof.
  intros Hsafe Hmode Hparse Hutxos Hrange.
  unfold CaminoService_GetBalance. rewrite Hmode. simpl. rewrite Hparse, Hutxos.
  eexists. split; [reflexivity|]. split; [by rewrite UTXOIDs_fold|].
  intros assetID.
  assert (Hfield : forall lockState,
            amountOf (balanceField lockState
                        (foldl (countUTXO SafeAdd LockStateOf)
                           {| Balances := ∅; UnlockedOutputs := ∅; BondedOutputs := ∅;
                              DepositedOutputs := ∅; DepositedBondedOutputs := ∅;
                              UTXOIDs := [] |} utxos)) assetID
            = saturated (sumIn LockStateOf lockState assetID utxos)).
  { intros lockState. rewrite (amountOf_fold SafeAdd LockStateOf Hsafe); [|done|].
    - f_equal. by destruct lockState as [[]|].
    - rewrite MaxUint64_eq. by destruct lockState as [[]|]. }
  pose proof (Hfield (Some StateUnlocked)) as HU.
  pose proof (Hfield (Some StateBonded)) as HB.
  pose proof (Hfield (Some StateDeposited)) as HD.
  pose proof (Hfield (Some StateDepositedBonded)) as HDB.
  pose proof (Hfield None) as Hall.
  simpl in HU, HB, HD, HDB, Hall.
  rewrite sumIn_lockState in HU, HB, HD, HDB. rewrite sumIn_all in Hall.
  rewrite HU, HB, HD, HDB, Hall. repeat split.
  pose proof (sumIn_nonneg LockStateOf (Some StateUnlocked) assetID utxos Hrange) as H1.
  pose proof (sumIn_nonneg LockStateOf (Some StateBonded) assetID utxos Hrange) as H2.
  pose proof (sumIn_nonneg LockStateOf (Some StateDeposited) assetID utxos Hrange) as H3.
  pose proof (sumIn_nonneg LockStateOf (Some StateDepositedBonded) assetID utxos Hrange)
    as H4.
  rewrite !sumIn_lockState in *.
  unfold saturated. rewrite MaxUint64_eq. lia.
Qed.

(** An address holds 100 unlocked, 40 bonded, 30 deposited and 20
    deposited and bonded of the asset 1, next to two outputs that are not
    counted: its balance of the asset 1 is 190, and five UTXOs are listed. *)
Lemma GetBalance_sums_per_lock_state_witness :
  exists r,
    CaminoService_GetBalance (A := unit) saturatingAdd LockState_of
      (Ok {| VerifyNodeSignature := true; LockModeBondDeposit := true |}) (Ok ())
      (fun _ => Ok ∅) (fun _ => Ok scenarioBalanceUTXOs) None []
    = Ok (inr r)
    /\ UTXOIDs r = [(1%N, 0%N); (2%N, 0%N); (3%N, 0%N); (4%N, 0%N); (7%N, 0%N)]
    /\ amountOf (Balances r) 1%N = 190
    /\ amountOf (BondedOutputs r) 1%N = 40.
Proof.
  destruct (GetBalance_sums_per_lock_state (A := unit) saturatingAdd LockState_of
              {| VerifyNodeSignature := true; LockModeBondDeposit := true |} (Ok ())
              (fun _ => Ok ∅) (fun _ => Ok scenarioBalanceUTXOs) None [] ∅
              scenarioBalanceUTXOs)
    as (r & Hr & Hids & Hsums).
  - done.
  - reflexivity.
  - reflexivity.
  - reflexivity.
  - unfold amountsInRange, scenarioBalanceUTXOs.
    repeat (apply Forall_cons; split;
            [intros st amount; simpl; intros [= <- <-] || intros [=];
             rewrite ?MaxUint64_eq; lia|]).
    apply Forall_nil_2.
  - exists r. split; [exact Hr|]. split; [by rewrite Hids|].
    destruct (Hsums 1%N) as (HU & HB & HD & HDB & Hall).
    rewrite Hall, HU, HB, HD, HDB. split; [|reflexivity]. reflexivity.
Defined.

(** ** The deposits that the service reports *)

Lemma GetDeposits_from_spec state ClaimableReward (i : nat) (DepositTxIDs : list ID)
    (reply : GetDepositsReply) :
  (i + length DepositTxIDs <= length (Reply_Deposits reply))%nat ->
  (i + length DepositTxIDs <= length (Reply_AvailableRewards reply))%nat ->
  exists served failed found,
    DepositTxIDs = served ++ failed
    /\ Forall2 (fun depositTxID x => depositAndOffer state depositTxID = Ok x) served found
    /\ match failed with
       | [] => (GetDeposits_from state ClaimableReward i DepositTxIDs reply).2 = None
       | depositTxID :: _ =>
           exists err,
             depositAndOffer state depositTxID = Err err
             /\ (GetDeposits_from state ClaimableReward i DepositTxIDs reply).2 = Some err
       end
    /\ Reply_Deposits (GetDeposits_from state ClaimableReward i DepositTxIDs reply).1
       = take i (Reply_Deposits reply)
         ++ zip_with (fun depositTxID x => Some (APIDepositFromDeposit depositTxID x.1))
              served found
         ++ drop (i + length served) (Reply_Deposits reply)
    /\ Reply_AvailableRewards (GetDeposits_from state ClaimableReward i DepositTxIDs reply).1
       = take i (Reply_AvailableRewards reply)
         ++ ((fun x => ClaimableReward x.1 x.2 (Reply_Timestamp reply)) <$> found)
         ++ drop (i + length served) (Reply_AvailableRewards reply)
    /\ Reply_Timestamp (GetDeposits_from state ClaimableReward i DepositTxIDs reply).1
       = Reply_Timestamp reply.
Proof.
  revert i reply. induction DepositTxIDs as [|depositTxID rest IH]; intros i reply HD HR.
  - exists [], [], []. simpl. rewrite Nat.add_0_r, !take_drop. by repeat split.
  - simpl in *. unfold depositAndOffer at 1 2.
    destruct (Chain_GetDeposit state depositTxID) as [deposit|err] eqn:Hdep.
    2: { exists [], (depositTxID :: rest), []. simpl.
         rewrite Nat.add_0_r, !take_drop. unfold depositAndOffer. rewrite Hdep.
         repeat split; try done. by eexists. }
    destruct (Chain_GetDepositOffer state (DepositOfferID deposit)) as [offer|err] eqn:Hoff.
    2: { exists [], (depositTxID :: rest), []. simpl.
         rewrite Nat.add_0_r, !take_drop. unfold depositAndOffer. rewrite Hdep, Hoff.
         repeat split; try done. by eexists. }
    match goal with
    | |- context [GetDeposits_from _ _ (S i) rest ?r] => set (reply' := r)
    end.
    destruct (IH (S i) reply') as (served & failed & found & -> & Hfound & Hfail & HDs & HRs & HT).
    { simpl. rewrite length_insert. lia. }
    { simpl. rewrite length_insert. lia. }
    exists (depositTxID :: served), failed, ((deposit, offer) :: found).
    split; [done|]. split.
    { constructor; [|done]. unfold depositAndOffer. by rewrite Hdep, Hoff. }
    split; [exact Hfail|].
    assert (Hi1 : (i < length (Reply_Deposits reply))%nat) by lia.
    assert (Hi2 : (i < length (Reply_AvailableRewards reply))%nat) by lia.
    split; [|split].
    + rewrite HDs. simpl.
      rewrite (take_S_r _ _ (Some (APIDepositFromDeposit depositTxID deposit)))
        by (by apply list_lookup_insert_eq).
      rewrite take_insert_ge by lia.
      rewrite drop_insert_lt by lia.
      rewrite <- app_assoc. simpl.
      by replace (i + S (length served))%nat with (S (i + length served)) by lia.
    + rewrite HRs. simpl.
      rewrite (take_S_r _ _ (ClaimableReward deposit offer (Reply_Timestamp reply)))
        by (by apply list_lookup_insert_eq).
      rewrite take_insert_ge by lia.
      rewrite drop_insert_lt by lia.
      rewrite <- app_assoc. simpl.
      by replace (i + S (length served))%nat with (S (i + length served)) by lia.
    + exact HT.
Qed.

(** X15.  GetDeposits serves the given identifiers in their order, up to
    the first one for which the state has no deposit, or no offer for the
    deposit.  When there is none, it returns no error; otherwise it returns
    the error of that lookup, the one of the deposit wrapped, the one of the
    offer as it is.  The reply holds, at the positions of the identifiers
    served, the deposits found, each under its identifier, and the rewards
    that can be claimed at the time of the clock, which the reply carries;
    the positions from the failing identifier on are left nil and zero. *)
Theorem GetDeposits_serves_in_order (state : Chain)
    (ClaimableReward : Deposit -> option Offer -> Z -> Z)
    (clockUnix : Z) (DepositTxIDs : list ID) :
  exists served failed found,
    DepositTxIDs = served ++ failed
    /\ Forall2 (fun depositTxID x => depositAndOffer state depositTxID = Ok x) served found
    /\ match failed with
       | [] =>
           (CaminoService_GetDeposits state ClaimableReward clockUnix DepositTxIDs).2
           = None
       | depositTxID :: _ =>
           exists err,
             depositAndOffer state depositTxID = Err err
             /\ (CaminoService_GetDeposits state ClaimableReward clockUnix DepositTxIDs).2
                = Some err
       end
    /\ Reply_Deposits
         (CaminoService_GetDeposits state ClaimableReward clockUnix DepositTxIDs).1
       = zip_with (fun depositTxID x => Some (APIDepositFromDeposit depositTxID x.1))
           served found
         ++ replicate (length failed) None
    /\ Reply_AvailableRewards
         (CaminoService_GetDeposits state ClaimableReward clockUnix DepositTxIDs).1
       = ((fun x => ClaimableReward x.1 x.2 clockUnix) <$> found)
         ++ replicate (length failed) 0
    /\ Reply_Timestamp
         (CaminoService_GetDeposits state ClaimableReward clockUnix DepositTxIDs).1
       = clockUnix.
Proof.
  unfold CaminoService_GetDeposits.
  destruct (GetDeposits_from_spec state ClaimableReward 0 DepositTxIDs
              {| Reply_Deposits := replicate (length DepositTxIDs) None;
                 Reply_AvailableRewards := replicate (length DepositTxIDs) 0;
                 Reply_Timestamp := clockUnix |})
    as (served & failed & found & Hids & Hfound & Hfail & HDs & HRs & HT).
  { simpl. by rewrite length_replicate. }
  { simpl. by rewrite length_replicate. }
  exists served, failed, found.
  split; [done|]. split; [done|]. split; [done|].
  simpl in HDs, HRs, HT.
  assert (Hlen : length DepositTxIDs = (length served + length failed)%nat).
  { by rewrite Hids, length_app. }
  rewrite Hlen, drop_replicate_add in HDs.
  rewrite Hlen in HRs.
  replace (length found) with (length served) in HRs
    by (by apply Forall2_length in Hfound).
  rewrite drop_replicate_add in HRs.
  rewrite <- Hlen in HDs, HRs.
  by repeat split.
Qed.

(** The state holds the deposit [X] and its offer: asked for [X], the
    service reports it with the reward 5 at the time 100; asked for [X]
    and then for the unknown [Y], it reports [X], leaves the second
    position nil and fails with the wrapped NotFound. *)
Lemma GetDeposits_serves_in_order_witness :
  CaminoService_GetDeposits scenarioDepositState (fun _ _ _ => 5) 100 [idX]
  = ({| Reply_Deposits := [Some (APIDepositFromDeposit idX (depositEnding 1000))];
        Reply_AvailableRewards := [5];
        Reply_Timestamp := 100 |}, None)
  /\ exists served failed found,
       [idX; idY] = served ++ failed
       /\ Forall2 (fun depositTxID x =>
                     depositAndOffer scenarioDepositState depositTxID = Ok x) served found
       /\ Reply_Deposits
            (CaminoService_GetDeposits scenarioDepositState (fun _ _ _ => 5) 100
               [idX; idY]).1
          = zip_with (fun depositTxID x => Some (APIDepositFromDeposit depositTxID x.1))
              served found
            ++ replicate (length failed) None.
Proof.
  split; [reflexivity|].
  destruct (GetDeposits_serves_in_order scenarioDepositState (fun _ _ _ => 5) 100
              [idX; idY])
    as (served & failed & found & Hids & Hfound & _ & HDs & _).
  by exists served, failed, found.
Defined.

(** ** The beacons sampled *)

Lemma SampleBeacons_fold (beacons : list node) (indices : list Z)
    (ips0 ids0 : list string) :
  match foldl (fun sampled index =>
                 match sampled with
                 | None => None
                 | Some (sampledIPs, sampledIDs) =>
                     match beacons !! Z.to_nat index with
                     | Some beacon =>
                         Some (sampledIPs ++ [node_ip beacon],
                               sampledIDs ++ [node_nodeID beacon])
                     | None => None
                     end
                 end)
              (Some (ips0, ids0)) indices with
  | Some (ips, ids) =>
      exists sampled,
        Forall2 (fun index beacon => beacons !! Z.to_nat index = Some beacon)
          indices sampled
        /\ ips = ips0 ++ (node_ip <$> sampled)
        /\ ids = ids0 ++ (node_nodeID <$> sampled)
  | None => exists index, index ∈ indices /\ beacons !! Z.to_nat index = None
  end.
Proof.
  revert ips0 ids0. induction indices as [|index indices IH]; intros ips0 ids0; simpl.
  - exists []. by rewrite !app_nil_r.
  - destruct (beacons !! Z.to_nat index) as [beacon|] eqn:Hb.
    + specialize (IH (ips0 ++ [node_ip beacon]) (ids0 ++ [node_nodeID beacon])).
      destruct (foldl _ _ indices) as [[ips ids]|].
      * destruct IH as (sampled & Hall & -> & ->).
        exists (beacon :: sampled). rewrite <- !app_assoc. by repeat split; [constructor|..].
      * destruct IH as (index' & Hin & Hnone). exists index'. split; [by right|done].
    + assert (Hnone : forall l,
                foldl (fun sampled index =>
                         match sampled with
                         | None => None
                         | Some (sampledIPs, sampledIDs) =>
                             match beacons !! Z.to_nat index with
                             | Some beacon =>
                                 Some (sampledIPs ++ [node_ip beacon],
                                       sampledIDs ++ [node_nodeID beacon])
                             | None => None
                             end
                         end) None l = None).
      { intros l. by induction l. }
      rewrite Hnone. exists index. split; [by left|done].
Qed.

(** X16.  SampleBeacons asks the sampler, initialised with the number of
    beacons of the network, for [count] indices, or for as many as the
    network has beacons when [count] is larger.  The two lists that it
    returns are aligned with the indices that the sampler returned: they
    have one entry per index, in the order of the indices, and the entries
    at a position are the address and the node identifier of the beacon at
    that index.  When the sampler returns at most as many indices as it is
    asked for, each within the beacons, then for a count that is not
    negative SampleBeacons returns, and returns no more entries than asked
    for and no more than the network has beacons; a network without beacons
    gives two empty lists. *)
Theorem SampleBeacons_aligned (ColumbusID : Z) (Sample : Z -> Z -> list Z)
    (networkID count : Z) :
  (forall sampledIPs sampledIDs,
     SampleBeacons ColumbusID Sample networkID count = Some (sampledIPs, sampledIDs) ->
     exists sampled,
       Forall2 (fun index beacon =>
                  getNodes ColumbusID networkID !! Z.to_nat index = Some beacon)
         (Sample (Z.of_nat (length (getNodes ColumbusID networkID)))
            (if Z.of_nat (length (getNodes ColumbusID networkID)) <? count
             then Z.of_nat (length (getNodes ColumbusID networkID)) else count))
         sampled
       /\ sampledIPs = node_ip <$> sampled
       /\ sampledIDs = node_nodeID <$> sampled)
  /\ ((forall n c, 0 <= c <= n ->
         Z.of_nat (length (Sample n c)) <= c
         /\ Forall (fun index => 0 <= index < n) (Sample n c)) ->
      0 <= count ->
      exists sampledIPs sampledIDs,
        SampleBeacons ColumbusID Sample networkID count = Some (sampledIPs, sampledIDs)
        /\ length sampledIPs = length sampledIDs
        /\ Z.of_nat (length sampledIPs) <= count
        /\ (length sampledIPs <= length (getNodes ColumbusID networkID))%nat).
Proof.
  unfold SampleBeacons.
  set (beacons := getNodes ColumbusID networkID).
  set (count' := if Z.of_nat (length beacons) <? count
                 then Z.of_nat (length beacons) else count).
  split.
  - intros sampledIPs sampledIDs. destruct (count' <? 0); [done|].
    pose proof (SampleBeacons_fold beacons (Sample (Z.of_nat (length beacons)) count')
                  [] []) as Hfold.
    intros Hs. rewrite Hs in Hfold. destruct Hfold as (sampled & Hall & -> & ->).
    by exists sampled.
  - intros Hsample Hcount.
    assert (Hc : 0 <= count' <= Z.of_nat (length beacons)
                 /\ count' <= count).
    { unfold count'. destruct (Z.ltb_spec (Z.of_nat (length beacons)) count); lia. }
    destruct Hc as [Hc Hle].
    destruct (Z.ltb_spec count' 0) as [?|_]; [lia|].
    destruct (Hsample _ _ Hc) as [Hlen Hrange].
    pose proof (SampleBeacons_fold beacons (Sample (Z.of_nat (length beacons)) count')
                  [] []) as Hfold.
    destruct (foldl _ _ _) as [[ips ids]|].
    + destruct Hfold as (sampled & Hall & -> & ->).
      exists (node_ip <$> sampled), (node_nodeID <$> sampled).
      split; [done|]. rewrite !length_fmap.
      apply Forall2_length in Hall. split; [done|]. split; lia.
    + destruct Hfold as (index & Hin & Hnone).
      rewrite Forall_forall in Hrange. specialize (Hrange _ Hin).
      apply lookup_ge_None in Hnone. lia.
Qed.

(** With a sampler that returns the first indices, three beacons are
    asked of the network 1001, which has two: the sampler is asked for two
    indices and returns 0 and 1, and both beacons are returned in that
    order, each address with its node identifier. *)
Lemma SampleBeacons_aligned_witness :
  exists sampledIPs sampledIDs sampled,
    SampleBeacons 1001 firstIndices 1001 3 = Some (sampledIPs, sampledIDs)
    /\ Forall2 (fun index beacon => getNodes 1001 1001 !! Z.to_nat index = Some beacon)
         [0; 1] sampled
    /\ sampledIPs = node_ip <$> sampled
    /\ sampledIDs = node_nodeID <$> sampled
    /\ length sampledIPs = 2%nat
    /\ length sampledIPs = length sampledIDs.
Proof.
  destruct (SampleBeacons_aligned 1001 firstIndices 1001 3) as [Haligned Hreturns].
  destruct Hreturns as (ips & ids & Hs & Hlen & _ & _).
  - intros n c Hc. unfold firstIndices. rewrite length_fmap, length_seq. split; [lia|].
    apply Forall_fmap, Forall_forall. intros i Hi%elem_of_seq. simpl. lia.
  - lia.
  - destruct (Haligned ips ids Hs) as (sampled & Hall & Hips & Hids).
    exists ips, ids, sampled. split; [exact Hs|]. split; [exact Hall|].
    split; [exact Hips|]. split; [exact Hids|]. split; [|exact Hlen].
    vm_compute in Hs. by injection Hs as <- <-.
Defined.

(** ** The time of the next unlock *)



(** ** The orders of the ranges do not show in the next unlock *)

Lemma addedAt_Permutation mods mods' (removedDepositIDs : gset ID) (t : Time)
    (ids0 : list ID) :
  mods ≡ₚ mods' ->
  (let '(ids, needSort) := addedAt mods removedDepositIDs t ids0 in
   if needSort then sortIDs ids else ids)
  = (let '(ids, needSort) := addedAt mods' removedDepositIDs t ids0 in
     if needSort then sortIDs ids else ids).
Proof.
  intros Hp. unfold addedAt.
  rewrite !(addedAt_spec removedDepositIDs). simpl.
  set (L := filter _ mods). set (L' := filter _ mods').
  assert (HL : L ≡ₚ L') by (unfold L, L'; by rewrite Hp).
  destruct L as [|x L].
  - apply Permutation_nil_l in HL. by rewrite <- HL.
  - destruct L' as [|x' L']; [by apply Permutation_nil_r in HL|].
    rewrite !bool_decide_eq_true_2 by done.
    apply (Sorted_unique N.le).
    + apply (Sorted_merge_sort N.le); apply _.
    + apply (Sorted_merge_sort N.le); apply _.
    + unfold sortIDs. rewrite !merge_sort_Permutation. by rewrite HL.
Qed.



(** ** The deferred validators of the base state after a diff is applied *)

(** X19.  Let the entries of the diff be filed as its setters file them,
    and let the base state hold one value per entry, as [baseSetters]
    writes them.  After ApplyCaminoState, in whatever orders it ranges, the
    base state holds for a subnet and a node the deferred validator that
    the diff put, holds none where the diff deleted it, and holds what it
    held before where the diff has no modified entry for them. *)
Theorem ApplyCaminoState_publishes_validators (d : diff) (o : RangeOrders)
    (s : BaseState) (subnetID : ID) (nodeID : NodeID) :
  diff_wf (caminoDiff_ d) ->
  rangesOver (caminoDiff_ d) o ->
  ApplyCaminoState_in baseSetters o d s !! LocDeferredValidator subnetID nodeID
  = match validatorEntry (caminoDiff_ d) subnetID nodeID with
    | Some v =>
        if validatorModified v
        then if validatorDeleted v then None else Some (CellStaker (validator v))
        else s !! LocDeferredValidator subnetID nodeID
    | None => s !! LocDeferredValidator subnetID nodeID
    end.
Proof.
  intros Hwf Ho.
  rewrite ApplyCaminoState_in_replay.
  destruct (applyCalls_written d o Hwf Ho) as [Hsome Hnd].
  assert (Hloc : forall c subnetID' vs nodeID' v,
            validatorDiffs (caminoDiff_ d) !! subnetID' = Some vs ->
            vs !! nodeID' = Some v ->
            c ∈ validatorCalls (nodeID', v) ->
            validatorModified v = true
            /\ call_loc c = Some (LocDeferredValidator subnetID' nodeID')
            /\ cellOf c = if validatorDeleted v then None
                          else Some (CellStaker (validator v))).
  { intros c subnetID' vs nodeID' v Hvs Hv Hc. unfold validatorCalls in Hc. simpl in Hc.
    destruct (validatorModified v) eqn:Hmod; [|by apply elem_of_nil in Hc].
    destruct Hwf as (_ & _ & Hvals).
    destruct (Hvals _ _ _ _ Hvs Hv Hmod) as [Hs Hn].
    destruct (validatorDeleted v); apply list_elem_of_singleton in Hc as ->;
      simpl; by rewrite Hs, Hn. }
  assert (Hother : forall c,
            c ∈ applyCalls o d ->
            call_loc c = Some (LocDeferredValidator subnetID nodeID) ->
            exists v, validatorEntry (caminoDiff_ d) subnetID nodeID = Some v
                      /\ c ∈ validatorCalls (nodeID, v)).
  { intros c [(k & Hk)|Hv]%elem_of_applyCalls Hl; [| |done].
    - rewrite (entryCall_loc _ _ _ Hwf Hk) in Hl. by destruct k.
    - apply elem_of_validatorCalls in Hv as (subnetID' & vs & nodeID' & v & Hvs & Hv & Hc).
      destruct (Hloc _ _ _ _ _ Hvs Hv Hc) as (_ & Hl' & _).
      rewrite Hl' in Hl. injection Hl as -> ->.
      exists v. split; [|done]. unfold validatorEntry. by rewrite Hvs. }
  unfold validatorEntry in *.
  destruct (validatorDiffs (caminoDiff_ d) !! subnetID) as [vs|] eqn:Hvs; simpl.
  2: { apply replay_lookup_other; [done|]. intros c Hc Hl.
       destruct (Hother c Hc Hl) as (v & Hx & _). simpl in Hx. congruence. }
  destruct (vs !! nodeID) as [v|] eqn:Hv; simpl in *.
  2: { apply replay_lookup_other; [done|]. intros c Hc Hl.
       destruct (Hother c Hc Hl) as (v & Hx & _). simpl in Hx. congruence. }
  destruct (validatorModified v) eqn:Hmod.
  - set (c := if validatorDeleted v then CallDeleteDeferredValidator (validator v)
              else CallPutDeferredValidator (validator v)).
    assert (Hc : c ∈ validatorCalls (nodeID, v)).
    { unfold validatorCalls, c. simpl. rewrite Hmod.
      destruct (validatorDeleted v); by apply list_elem_of_singleton. }
    destruct (Hloc _ _ _ _ _ Hvs Hv Hc) as (_ & Hl & Hcell).
    rewrite <- Hcell. apply replay_lookup_written; [done..| |done].
    apply elem_of_applyCalls; [done|]. right. apply elem_of_validatorCalls.
    by exists subnetID, vs, nodeID, v.
  - apply replay_lookup_other; [done|]. intros c Hc Hl.
    destruct (Hother c Hc Hl) as (v' & Hx & Hc'). simpl in Hx.
    rewrite ?Hv in Hx. injection Hx as <-.
    unfold validatorCalls in Hc'. simpl in Hc'. rewrite Hmod in Hc'.
    by apply elem_of_nil in Hc'.
Qed.

(** The diff puts the deferred validator of the node 12 and deletes the
    one of the node 13, both in the subnet 1: the base state then holds the
    first and does not hold the second. *)
Lemma ApplyCaminoState_publishes_validators_witness :
  ApplyCaminoState baseSetters validatorScenarioDiff
    {[ LocDeferredValidator 1%N 13%N :=
         CellStaker {| Staker_TxID := 41%N; Staker_SubnetID := 1%N;
                       Staker_NodeID := 13%N; Staker_Weight := 6 |} ]}
    !! LocDeferredValidator 1%N 12%N
  = Some (CellStaker {| Staker_TxID := 40%N; Staker_SubnetID := 1%N;
                        Staker_NodeID := 12%N; Staker_Weight := 5 |})
  /\ ApplyCaminoState baseSetters validatorScenarioDiff
       {[ LocDeferredValidator 1%N 13%N :=
            CellStaker {| Staker_TxID := 41%N; Staker_SubnetID := 1%N;
                          Staker_NodeID := 13%N; Staker_Weight := 6 |} ]}
       !! LocDeferredValidator 1%N 13%N
     = None.
Proof.
  assert (Hwf : diff_wf (caminoDiff_ validatorScenarioDiff)).
  { split; [|split]; simpl.
    - intros k o. by rewrite lookup_empty.
    - intros k o. by rewrite lookup_empty.
    - intros subnetID vs nodeID v Hvs Hv _. revert Hvs.
      rewrite lookup_singleton. case_decide as Hs; [|done]. intros [= <-]. subst subnetID.
      revert Hv. rewrite lookup_insert. case_decide as Hn; [by intros [= <-]; subst|].
      rewrite lookup_singleton. case_decide as Hn'; [by intros [= <-]; subst|done]. }
  split.
  - unfold ApplyCaminoState.
    rewrite (ApplyCaminoState_publishes_validators validatorScenarioDiff _ _ 1%N 12%N Hwf
               (someOrders_rangesOver _)).
    reflexivity.
  - unfold ApplyCaminoState.
    rewrite (ApplyCaminoState_publishes_validators validatorScenarioDiff _ _ 1%N 13%N Hwf
               (someOrders_rangesOver _)).
    reflexivity.
Defined.
